(** * pyMCTS: a shallow embedding of [mcts.py] and its specification

    The Python objects of [mcts.py] live in a store of nodes addressed by
    location; every method of [MonteCarloTreeNode] and [MonteCarloTree] is a
    computation in a state-and-exception monad over that store.  Python
    [float]s are idealised as real numbers extended with [+inf]; Python
    [int]s are [Z]. *)

From Stdlib Require Import ZArith Reals Lra Lia String.
From stdpp Require Import base list option.

(** ** Values *)

(** A reference to a node object. *)
Abbreviation loc := nat.

(** A [float] as [ucb1] produces it: [float('inf')] or a finite number. *)
Inductive float :=
| Inf
| Fin (x : R).

#[global] Instance Rgt_decision (x y : R) : Decision (x > y)%R := Rgt_dec x y.
#[global] Instance Rlt_decision (x y : R) : Decision (x < y)%R := Rlt_dec x y.
#[global] Instance Rle_decision (x y : R) : Decision (x <= y)%R := Rle_dec x y.
#[global] Instance Req_decision : EqDecision R := Req_dec_T.

(** [a > b] on floats. *)
Definition float_gt (a b : float) : bool :=
  match a, b with
  | Fin x, Fin y => bool_decide (x > y)%R
  | Inf, Fin _ => true
  | _, Inf => false
  end.

(** What a caller may pass where a node is expected. *)
Inductive pyval :=
| PyNone
| PyNode (l : loc)
| PyOther.

Inductive exn :=
| ValueError (msg : string)
| TypeError (msg : string)
| IndexError
| RecursionError
| NonTermination
| NoSuchObject.

Inductive res (A : Type) :=
| Done (a : A)
| Raise (e : exn).
Arguments Done {A} a.
Arguments Raise {A} e.

(** ** The abstract node class

    [MonteCarloTreeNode] leaves [expand] and [simulate] to its subclasses.  A
    subclass is a type of domain states together with: the successor states
    [expand] builds nodes for, the [minmax_search] argument and the
    [is_terminal] flag its constructor gives a node, and [simulate], which
    draws on the outside world (the random source).  [expand] constructs a
    new node object for each successor state, as the subclass of [game.py]
    does; it neither returns nodes of the tree nor changes them. *)
Class Domain (State Env : Type) := {
  expand : State -> list State;
  init_minmax : State -> bool;
  init_terminal : State -> bool;
  simulate : State -> Env -> R * Env;
}.

(** [time()] reads the wall clock of the outside world. *)
Class Clock (Env : Type) := time : Env -> R * Env.

Section Node.
Context {State : Type}.

Record node := Node {
  visit : Z;
  score : R;
  children : list loc;
  is_terminal : bool;
  parent : option loc;
  minmax_search : bool;
  state : State;
}.

Definition set_visit (v : Z) (n : node) : node :=
  Node v (score n) (children n) (is_terminal n) (parent n) (minmax_search n) (state n).
Definition set_score (s : R) (n : node) : node :=
  Node (visit n) s (children n) (is_terminal n) (parent n) (minmax_search n) (state n).
Definition set_children (cs : list loc) (n : node) : node :=
  Node (visit n) (score n) cs (is_terminal n) (parent n) (minmax_search n) (state n).
Definition set_is_terminal (b : bool) (n : node) : node :=
  Node (visit n) (score n) (children n) b (parent n) (minmax_search n) (state n).
Definition set_parent (p : option loc) (n : node) : node :=
  Node (visit n) (score n) (children n) (is_terminal n) p (minmax_search n) (state n).

(** [MonteCarloTreeNode.__init__]. *)
Definition init_node (minmax : bool) (st : State) : node :=
  Node 0 0 [] false None minmax st.
End Node.
Arguments node : clear implicits.

(** [MonteCarloTreeNode.exploration_weight], the class attribute's default. *)
Definition default_exploration_weight : R := 1.

(** [math.log] on an [int]: a [ValueError] outside the domain. *)
Definition math_log (N : Z) : res R :=
  if (0 <? N)%Z then Done (ln (IZR N)) else Raise (ValueError "math domain error").

Section Engine.
Context {State Env : Type} `{!Domain State Env} `{!Clock Env}.

(** The class attribute [exploration_weight] is shared by all nodes. *)
Variable exploration_weight : R.

(** The store, the tree object's [root] field and the outside world. *)
Record world := World {
  heap : list (node State);
  root : loc;
  env : Env;
}.

Definition set_heap (h : list (node State)) (w : world) : world :=
  World h (root w) (env w).
Definition set_root (r : loc) (w : world) : world :=
  World (heap w) r (env w).
Definition set_env (e : Env) (w : world) : world :=
  World (heap w) (root w) e.

(** Computations: the store survives an exception. *)
Definition M (A : Type) : Type := world -> res A * world.

Definition ret {A} (a : A) : M A := fun w => (Done a, w).
Definition raise {A} (e : exn) : M A := fun w => (Raise e, w).
Definition bind {A B} (m : M A) (k : A -> M B) : M B :=
  fun w => match m w with
           | (Done a, w') => k a w'
           | (Raise e, w') => (Raise e, w')
           end.
Definition lift {A} (r : res A) : M A := fun w => (r, w).

Notation "'let*' x := m 'in' k" := (bind m (fun x => k))
  (at level 10, x name, m at level 100, k at level 200).

(** Attribute access [l.field] and update through a reference. *)
Definition deref (h : list (node State)) (l : loc) : res (node State) :=
  match h !! l with
  | Some n => Done n
  | None => Raise NoSuchObject
  end.
Definition get (l : loc) : M (node State) := fun w => (deref (heap w) l, w).
Definition update (l : loc) (f : node State -> node State) : M unit :=
  let* n := get l in
  fun w => (Done tt, set_heap (<[l := f n]> (heap w)) w).
Definition get_root : M loc := fun w => (Done (root w), w).

(** Construction of a node object by the subclass constructor: the base
    [__init__], then the subclass's own terminal-state test. *)
Definition new_node (st : State) : node State :=
  set_is_terminal (init_terminal st) (init_node (init_minmax st) st).
Definition alloc (st : State) : M loc :=
  fun w => (Done (length (heap w)), set_heap (heap w ++ [new_node st]) w).
Fixpoint alloc_all (sts : list State) : M (list loc) :=
  match sts with
  | [] => ret []
  | st :: sts' =>
    let* l := alloc st in
    let* ls := alloc_all sts' in
    ret (l :: ls)
  end.
Fixpoint for_each {A} (xs : list A) (body : A -> M unit) : M unit :=
  match xs with
  | [] => ret tt
  | x :: xs' => let* _ := body x in for_each xs' body
  end.

(** *** [MonteCarloTreeNode] *)

Definition expand_node (self : loc) : M unit :=
  let* n := get self in
  let* cs := alloc_all (expand (state n)) in
  let* _ := update self (set_children cs) in
  let* n := get self in
  if (length (children n) =? 0)%nat then
    update self (set_is_terminal true)
  else
    for_each (children n) (fun child => update child (set_parent (Some self))).

Fixpoint backpropagate (depth : nat) (self : loc) (result : R) : M unit :=
  match depth with
  | O => raise RecursionError
  | S depth' =>
    let* _ := update self (fun n => set_visit (visit n + 1) n) in
    let* _ := update self (fun n => set_score (score n + result) n) in
    let* n := get self in
    match parent n with
    | Some p => backpropagate depth' p (if minmax_search n then - result else result)
    | None => ret tt
    end
  end.

Definition ucb1 (n : node State) (N : Z) : res float :=
  if (visit n =? 0)%Z then Done Inf
  else
    match math_log N with
    | Done lg => Done (Fin (score n / IZR (visit n)
                            + exploration_weight * (lg / IZR (visit n))))
    | Raise e => Raise e
    end.

(** The [for child in self.children] loop of [select], with the loop
    variables [best_child] and [best_ucb1]. *)
Fixpoint select_loop (h : list (node State)) (N : Z) (cs : list loc)
    (best_child : loc) (best_ucb1 : float) : res loc :=
  match cs with
  | [] => Done best_child
  | child :: cs' =>
    match deref h child with
    | Raise e => Raise e
    | Done c =>
      if (visit c =? 0)%Z then Done child
      else
        match ucb1 c N with
        | Raise e => Raise e
        | Done u =>
          if float_gt u best_ucb1 then select_loop h N cs' child u
          else select_loop h N cs' best_child best_ucb1
        end
    end
  end.

Definition select (h : list (node State)) (self : loc) (N : Z) : res loc :=
  match deref h self with
  | Raise e => Raise e
  | Done n =>
    match children n with
    | [] => Done self
    | c0 :: _ =>
      match deref h c0 with
      | Raise e => Raise e
      | Done best =>
        match ucb1 best N with
        | Raise e => Raise e
        | Done best_ucb1 => select_loop h N (children n) c0 best_ucb1
        end
      end
    end
  end.
Definition select_from (curr : loc) (N : Z) : M loc :=
  fun w => (select (heap w) curr N, w).

(** *** [MonteCarloTree] *)

(** The [while len(curr.children) > 0] loop of [search_iter]. *)
Fixpoint descend (fuel : nat) (curr : loc) : M loc :=
  match fuel with
  | O => raise NonTermination
  | S fuel' =>
    let* n := get curr in
    if (0 <? length (children n))%nat then
      let* r := get_root in
      let* rn := get r in
      let* next := select_from curr (visit rn) in
      descend fuel' next
    else ret curr
  end.

Definition run_simulate (curr : loc) : M R :=
  let* n := get curr in
  fun w => let (r, e) := simulate (state n) (env w) in (Done r, set_env e w).

(** The expansion step of [search_iter], between the descent and the
    simulation. *)
Definition expand_step (curr : loc) : M loc :=
  let* n := get curr in
  if negb (is_terminal n) && negb (visit n =? 0)%Z then
    let* _ := expand_node curr in
    let* n := get curr in
    if negb (is_terminal n) then
      match children n with
      | c :: _ => ret c
      | [] => raise IndexError
      end
    else ret curr
  else ret curr.

Definition search_iter (fuel : nat) (curr : loc) : M loc :=
  let* curr := descend fuel curr in
  let* curr := expand_step curr in
  let* score := run_simulate curr in
  let* _ := backpropagate fuel curr score in
  ret curr.

(** The four argument checks at the head of [search]; [x and x <= 0]
    tests the truth value of [x] first, and [0] is false. *)
Definition check_args (iterations : option Z) (time_limit : option R) : res unit :=
  match iterations, time_limit with
  | None, None =>
    Raise (ValueError "Either iterations or time_limit must be specified.")
  | Some _, Some _ =>
    Raise (ValueError "Only one of iterations or time_limit can be specified.")
  | None, Some t =>
    if negb (bool_decide (t = 0%R)) && bool_decide (t <= 0)%R then
      Raise (ValueError "Time limit must be greater than zero.")
    else Done tt
  | Some k, None =>
    if negb (k =? 0)%Z && (k <=? 0)%Z then
      Raise (ValueError "Number of iterations must be greater than zero.")
    else Done tt
  end.

(** [for _ in range(k): search_iter(curr)]. *)
Fixpoint for_range (k : nat) (body : M loc) : M unit :=
  match k with
  | O => ret tt
  | S k' => let* _ := body in for_range k' body
  end.

Definition read_clock : M R :=
  fun w => let (t, e) := time (env w) in (Done t, set_env e w).

Definition CHECK_ITERATIONS : Z := 100.

(** [while iters % CHECK_ITERATIONS != 0 and time() - start_time < time_limit];
    [and] does not read the clock when its left operand is false. *)
Fixpoint timed_loop (fuel depth : nat) (curr : loc) (iters : Z)
    (start_time time_limit : R) : M unit :=
  match fuel with
  | O => raise NonTermination
  | S fuel' =>
    if negb (iters mod CHECK_ITERATIONS =? 0)%Z then
      let* now := read_clock in
      if bool_decide (now - start_time < time_limit)%R then
        let* _ := search_iter depth curr in
        timed_loop fuel' depth curr (iters + 1) start_time time_limit
      else ret tt
    else ret tt
  end.

(** [for child in self.root.children[1:]], with the loop variable
    [best_child]. *)
Fixpoint most_visited (h : list (node State)) (cs : list loc) (best_child : loc)
    : res loc :=
  match cs with
  | [] => Done best_child
  | child :: cs' =>
    match deref h child, deref h best_child with
    | Done c, Done b =>
      if (visit c >? visit b)%Z then most_visited h cs' child
      else most_visited h cs' best_child
    | Raise e, _ | _, Raise e => Raise e
    end
  end.

Definition best_child_of_root : M loc :=
  let* r := get_root in
  let* rn := get r in
  match children rn with
  | [] => raise (ValueError
      "No children found in the root node. Ensure the root could be expanded.")
  | c0 :: rest => fun w => (most_visited (heap w) rest c0, w)
  end.

(** The two search loops of [search], by iteration count or by time. *)
Definition run_budget (fuel : nat) (iterations : option Z) (time_limit : option R)
    (curr : loc) : M unit :=
  match iterations, time_limit with
  | Some k, _ => for_range (Z.to_nat k) (search_iter fuel curr)
  | None, Some t =>
    let* start_time := read_clock in
    timed_loop fuel fuel curr 0 start_time t
  | None, None => raise (TypeError "unsupported operand type(s) for <")
  end.

Definition search (fuel : nat) (iterations : option Z) (time_limit : option R)
    : M loc :=
  let* _ := lift (check_args iterations time_limit) in
  let* curr := get_root in
  let* _ := run_budget fuel iterations time_limit curr in
  best_child_of_root.

Definition isinstance_node (v : pyval) : bool :=
  match v with PyNode _ => true | _ => false end.
Definition is_none (v : pyval) : bool :=
  match v with PyNone => true | _ => false end.

Definition move_to (v : pyval) : M unit :=
  if negb (isinstance_node v) then
    raise (TypeError "node must be an instance of MonteCarloTreeNode.")
  else if is_none v then
    raise (ValueError "node cannot be None.")
  else
    match v with
    | PyNode l =>
      let* _ := (fun w => (Done tt, set_root l w)) in
      let* r := get_root in
      update r (set_parent None)
    | _ => raise (TypeError "node must be an instance of MonteCarloTreeNode.")
    end.

(** [MonteCarloTree(root)] on a freshly constructed root node. *)
Definition fresh_world (st : State) (e : Env) : world :=
  World [new_node st] 0 e.
End Engine.
Arguments world : clear implicits.
Arguments M : clear implicits.

(** ** The tic-tac-toe subclass of [game.py] *)
Module TicTacToe.
(** The 3x3 board, row by row; a cell is [None], [0] or [1]. *)
Definition board := list (option Z).

Record state := State {
  current_player : Z;
  cells : board;
}.

(** The outside world: the draws [np.random.randint] will make, and the
    wall clock. *)
Record env := Env {
  tape : list nat;
  wall : R;
}.

Definition cell (b : board) (i j : nat) : option Z :=
  default None (b !! (i * 3 + j)%nat).

Definition cell_eqb (a b : option Z) : bool := bool_decide (a = b).

(** [a == b == c is not None]. *)
Definition three (a b c : option Z) : bool :=
  cell_eqb a b && cell_eqb b c && negb (bool_decide (c = None)).

Definition check_winner (b : board) : option Z :=
  let row i := three (cell b i 0) (cell b i 1) (cell b i 2) in
  let col j := three (cell b 0 j) (cell b 1 j) (cell b 2 j) in
  if row 0%nat then cell b 0 0
  else if row 1%nat then cell b 1 0
  else if row 2%nat then cell b 2 0
  else if col 0%nat then cell b 0 0
  else if col 1%nat then cell b 0 1
  else if col 2%nat then cell b 0 2
  else if three (cell b 0 0) (cell b 1 1) (cell b 2 2) then cell b 0 0
  else if three (cell b 0 2) (cell b 1 1) (cell b 2 0) then cell b 0 2
  else None.

(** [None in board]. *)
Definition has_empty (b : board) : bool :=
  existsb (fun c => bool_decide (c = None)) b.

(** The positions [(i, j)] with [board[i, j] is None], in loop order. *)
Definition empty_positions (b : board) : list nat :=
  filter (fun k => b !! k = Some None) (seq 0 9).

Definition empty_board : board := replicate 9 None.

(** [TicTacToeNode(current_player)] at the start of a game. *)
Definition start : state := State 0 empty_board.

Definition ttt_expand (s : state) : list state :=
  map (fun k => State (1 - current_player s) (<[k := Some (current_player s)]> (cells s)))
      (empty_positions (cells s)).

Definition ttt_terminal (s : state) : bool :=
  negb (bool_decide (check_winner (cells s) = None)) || negb (has_empty (cells s)).

(** [super().__init__(current_player)] passes the player as
    [minmax_search]; its truth value is read. *)
Definition ttt_minmax (s : state) : bool :=
  negb (current_player s =? 0)%Z.

Definition randint (n : nat) (e : env) : nat * env :=
  match tape e with
  | [] => (0%nat, e)
  | d :: ds => ((d mod n)%nat, Env ds (wall e))
  end.

(** The [while True] loop of [simulate]: every pass fills a cell, so nine
    passes suffice. *)
Fixpoint playout (fuel : nat) (b : board) (player : Z) (winner : option Z) (e : env)
    : option Z * Z * env :=
  match fuel with
  | O => (winner, player, e)
  | S fuel' =>
    let empty := empty_positions b in
    if (length empty =? 0)%nat then (winner, player, e)
    else
      let (r, e') := randint (length empty) e in
      let k := default 0%nat (empty !! r) in
      let b' := <[k := Some player]> b in
      let player' := (1 - player)%Z in
      let winner' := check_winner b' in
      if negb (bool_decide (winner' = None)) then (winner', player', e')
      else playout fuel' b' player' winner' e'
  end.

Definition ttt_simulate (s : state) (e : env) : R * env :=
  let winner := check_winner (cells s) in
  if bool_decide (winner = None) && negb (has_empty (cells s)) then (0%R, e)
  else
    let '(winner, player, e') := playout 10 (cells s) (current_player s) winner e in
    match winner with
    | None => (0%R, e')
    | Some p => if (p =? player)%Z then (1%R, e') else ((-1)%R, e')
    end.

#[global] Instance ttt_domain : Domain state env := {
  expand := ttt_expand;
  init_minmax := ttt_minmax;
  init_terminal := ttt_terminal;
  simulate := ttt_simulate;
}.

#[global] Instance ttt_clock : Clock env :=
  fun e => (wall e, Env (tape e) (wall e + 1)).
End TicTacToe.


(** ** Notions the statements below are written with *)
Section SpecDefs.
Context {State Env : Type} `{!Domain State Env} `{!Clock Env}.
Variable exploration_weight : R.
Implicit Types (h : list (node State)) (n : node State) (l : loc) (N : Z).

(** The value [ucb1] computes for a visited node. *)
Definition ucb_value n N : R :=
  (score n / IZR (visit n) + exploration_weight * (ln (IZR N) / IZR (visit n)))%R.

(** Every reference in [cs] points to an object. *)
Definition allocated h (cs : list loc) : Prop :=
  Forall (fun c => is_Some (h !! c)) cs.

(** A node after one backpropagation step with reward [r]. *)
Definition bumped (r : R) n : node State :=
  set_score (score n + r) (set_visit (visit n + 1) n).

(** [path] lists [l] and its ancestors, up to a node without parent. *)
Inductive parent_chain h : loc -> list loc -> Prop :=
| chain_root l n :
    h !! l = Some n -> parent n = None -> parent_chain h l [l]
| chain_step l n p path :
    h !! l = Some n -> parent n = Some p -> parent_chain h p path ->
    parent_chain h l (l :: path).

(** The reward each node of [path] receives when the first receives [r]:
    a node hands its own reward to its parent, negated when its own
    [minmax_search] flag is set. *)
Fixpoint rewards h (path : list loc) (r : R) : list R :=
  match path with
  | [] => []
  | l :: path' =>
    r :: rewards h path'
           (match h !! l with
            | Some n => if minmax_search n then (- r)%R else r
            | None => r
            end)
  end.

(** The store after [expand_node] on the node [n] at [self]. *)
Definition expanded_heap h (self : loc) n : list (node State) :=
  let sts := expand (state n) in
  let cs := seq (length h) (length sts) in
  match sts with
  | [] => <[self := set_is_terminal true (set_children [] n)]> h
  | _ => <[self := set_children cs n]> h
         ++ map (fun st => set_parent (Some self) (new_node st)) sts
  end.

(** Simulation and backpropagation from the node a cycle ends at. *)
Definition simulate_and_backpropagate (fuel : nat) (curr : loc) : M State Env loc :=
  bind (run_simulate curr) (fun score =>
  bind (backpropagate fuel curr score) (fun _ => ret curr)).

(** The worlds search cycles lead to from a freshly constructed root; a
    cycle that ends in an exception counts, with the store it leaves. *)
Inductive reachable : world State Env -> Prop :=
| reach_fresh st e : reachable (fresh_world st e)
| reach_cycle w fuel r w' :
    reachable w ->
    search_iter exploration_weight fuel (root w) w = (r, w') ->
    reachable w'.
End SpecDefs.

(** ** Boards of tic-tac-toe *)

(** The board of a state is the 3x3 grid [game.py] builds. *)
Definition board_ok (s : TicTacToe.state) : Prop :=
  length (TicTacToe.cells s) = 9%nat.

(** The number of empty cells. *)
Definition empties (s : TicTacToe.state) : nat :=
  length (TicTacToe.empty_positions (TicTacToe.cells s)).

(** The three rows, three columns and two diagonals, as positions of the
    row-by-row board. *)
Definition lines : list (nat * nat * nat) :=
  [(0, 1, 2); (3, 4, 5); (6, 7, 8); (0, 3, 6); (1, 4, 7); (2, 5, 8);
   (0, 4, 8); (2, 4, 6)]%nat.

(** Player [p] holds the three cells of a line. *)
Definition holds (b : TicTacToe.board) (p : Z) (ln : nat * nat * nat) : Prop :=
  b !! ln.1.1 = Some (Some p) /\ b !! ln.1.2 = Some (Some p) /\
  b !! ln.2 = Some (Some p).

(** A position the first player has won with the top row, four cells
    free. *)
Definition won_position : TicTacToe.state :=
  TicTacToe.State 1
    [Some 0%Z; Some 0%Z; Some 0%Z; Some 1%Z; Some 1%Z; None; None; None; None].

(** ** A game in progress

    The first two cycles of a search from the opening position of
    tic-tac-toe, with a fixed sequence of random draws. *)
Definition opening : world TicTacToe.state TicTacToe.env :=
  fresh_world TicTacToe.start
    (TicTacToe.Env [3; 1; 4; 1; 5; 9; 2; 6; 5; 3; 5; 8; 9; 7; 9; 3; 2; 3; 8]%nat 0).

Definition after_one_cycle : world TicTacToe.state TicTacToe.env :=
  snd (search_iter default_exploration_weight 10 0 opening).

Definition after_two_cycles : world TicTacToe.state TicTacToe.env :=
  snd (search_iter default_exploration_weight 10 0 after_one_cycle).

(** The root after the first cycle, and the root and its first two children
    after the second. *)
Definition root_once : node TicTacToe.state :=
  Node 1 (0 + -1) [] false None false TicTacToe.start.

Definition root_twice : node TicTacToe.state :=
  Node 2 (0 + -1 + - (-1)) [1; 2; 3; 4; 5; 6; 7; 8; 9]%nat false None false
       TicTacToe.start.

Definition second_child : node TicTacToe.state :=
  Node 0 0 [] false (Some 0%nat) true
       (TicTacToe.State 1 (<[1%nat := Some 0%Z]> TicTacToe.empty_board)).

Definition first_child : node TicTacToe.state :=
  Node 1 (0 + -1) [] false (Some 0%nat) true
       (TicTacToe.State 1 (<[0%nat := Some 0%Z]> TicTacToe.empty_board)).

(** ** The callers of the engine

    The route [TreeDrawer.draw] marks, and the turns [TicTacToeGame.play]
    takes when both players are the engine. *)
Section Callers.
Context {State Env : Type} `{!Domain State Env} `{!Clock Env}.
Variable exploration_weight : R.

Notation "'let*' x := m 'in' k" := (bind m (fun x => k))
  (at level 10, x name, m at level 100, k at level 200).

(** The loop of [draw] that fills [select_route]:
    [while len(curr.children) > 0: curr = curr.select(tree.root.visit);
    select_route.append(curr)]. *)
Fixpoint select_route (fuel : nat) (curr : loc) (route : list loc)
    : M State Env (list loc) :=
  match fuel with
  | O => raise NonTermination
  | S fuel' =>
    let* n := get curr in
    if (0 <? length (children n))%nat then
      let* r := get_root in
      let* rn := get r in
      let* next := select_from exploration_weight curr (visit rn) in
      select_route fuel' next (route ++ [next])
    else ret route
  end.

(** [TicTacToeGame.ai_move]. *)
Definition ai_move (fuel : nat) (iterations : Z) : M State Env loc :=
  search exploration_weight fuel (Some iterations) None.

(** One pass of the loop of [play] for an engine player: the move, then
    [self.current_node = new_node; self.tree.move_to(self.current_node)]. *)
Definition ai_turn (fuel : nat) (iterations : Z) : M State Env loc :=
  let* new_node := ai_move fuel iterations in
  let* _ := move_to (PyNode new_node) in
  ret new_node.

(** [play] with both players the engine:
    [while not self.current_node.is_terminal], at most [turns] passes. *)
Fixpoint play (turns fuel : nat) (iterations : Z) (current_node : loc)
    : M State Env loc :=
  match turns with
  | O => raise NonTermination
  | S turns' =>
    let* n := get current_node in
    if negb (is_terminal n) then
      let* new_node := ai_turn fuel iterations in
      play turns' fuel iterations new_node
    else ret current_node
  end.
End Callers.


(** ** The shape of the tree during a session *)
Section Shape.
Context {State Env : Type} `{!Domain State Env} `{!Clock Env}.
Variable exploration_weight : R.
Implicit Types (h : list (node State)) (n : node State) (l r : loc).

(** [l] is [r] or one of its descendants along the [children] lists. *)
Inductive in_tree h r : loc -> Prop :=
| in_tree_root : in_tree h r r
| in_tree_child p n c :
    in_tree h r p -> h !! p = Some n -> c ∈ children n -> in_tree h r c.

(** The nodes under [r] form a tree: [r] has no parent, and a child of a
    node of the tree is an object built after that node, whose [parent]
    is that node. *)
Record tree_shape h r : Prop := TreeShape {
  shape_root : exists n, h !! r = Some n /\ parent n = None;
  shape_child : forall p n c,
    in_tree h r p -> h !! p = Some n -> c ∈ children n ->
    (p < c)%nat /\ exists nc, h !! c = Some nc /\ parent nc = Some p;
}.

(** No visit count is negative, and a node with children has been visited,
    and so has the first of its children. *)
Definition visits_sound h : Prop :=
  forall l n, h !! l = Some n ->
    (0 <= visit n)%Z /\
    forall c cs, children n = c :: cs ->
      (1 <= visit n)%Z /\ exists nc, h !! c = Some nc /\ (1 <= visit nc)%Z.

Definition sound h r : Prop := tree_shape h r /\ visits_sound h.

(** What a search cycle may change of a node. *)
Definition node_grows n n' : Prop :=
  (visit n <= visit n')%Z /\
  (children n <> [] -> children n' = children n) /\
  (is_terminal n = true -> is_terminal n' = true) /\
  parent n' = parent n /\ minmax_search n' = minmax_search n /\
  state n' = state n.

Definition evolves h h' : Prop :=
  (length h <= length h')%nat /\
  forall l n, h !! l = Some n -> exists n', h' !! l = Some n' /\ node_grows n n'.

(** Every child is an existing object whose domain state is a successor of
    its parent's state. *)
Definition state_links h : Prop :=
  forall p np c, h !! p = Some np -> c ∈ children np ->
    exists nc, h !! c = Some nc /\ state nc ∈ expand (state np).

(** The [is_terminal] flag of a node against its domain state: it is set by
    the constructor, or by [expand_node] when there is no successor. *)
Definition flag_sound (Inv : State -> Prop) n : Prop :=
  Inv (state n) /\
  (is_terminal n = false -> init_terminal (state n) = false) /\
  (is_terminal n = true ->
   init_terminal (state n) = true \/ expand (state n) = []).

(** What the turns of a game keep of the store, for a property [Inv] of
    the domain states. *)
Definition game_ok (Inv : State -> Prop) h : Prop :=
  Forall (flag_sound Inv) h /\ state_links h.

(** [game.human_move] followed by [move_to]: a node built outside the tree
    becomes the root. *)
Definition move_to_new (st : State) : M State Env unit :=
  bind (alloc st) (fun l => move_to (PyNode l)).

(** The worlds of a session: search cycles from the root (whatever their
    outcome), [move_to] on a child of the root, and [move_to] on a newly
    built node. *)
Inductive in_session : world State Env -> Prop :=
| session_fresh st e : in_session (fresh_world st e)
| session_cycle w fuel out w' :
    in_session w ->
    search_iter exploration_weight fuel (root w) w = (out, w') ->
    in_session w'
| session_move w n c out w' :
    in_session w ->
    heap w !! root w = Some n -> c ∈ children n ->
    move_to (PyNode c) w = (out, w') ->
    in_session w'
| session_new_root w st out w' :
    in_session w ->
    move_to_new st w = (out, w') ->
    in_session w'.

(** The visit count of the object at [c]. *)
Definition visit_at h (c : loc) : Z :=
  match h !! c with Some n => visit n | None => 0%Z end.

(** The visits of the nodes of [cs], summed. *)
Definition visits_of h (cs : list loc) : Z :=
  foldr (fun c acc => (visit_at h c + acc)%Z) 0%Z cs.

(** Every visit of [n] is accounted for: with children, it is the visit that
    simulated [n] itself or a visit of one of the children; without, and
    not terminal, [n] has been visited once at most. *)
Definition accounted h n : Prop :=
  NoDup (children n) /\
  (children n <> [] -> visit n = (1 + visits_of h (children n))%Z) /\
  (children n = [] -> is_terminal n = false -> (visit n <= 1)%Z).

Definition conserved h r : Prop :=
  forall p n, in_tree h r p -> h !! p = Some n -> accounted h n.

(** A visit is owed to [n]: once it is counted, [n] is accounted for. *)
Definition pending h n : Prop :=
  NoDup (children n) /\
  (children n <> [] -> visit n = visits_of h (children n)) /\
  (children n = [] -> is_terminal n = false -> (visit n <= 0)%Z).

(** The state of the tree in the middle of a backpropagation that has
    reached [l]. *)
Definition conserved_but h r l : Prop :=
  forall p n, in_tree h r p -> h !! p = Some n ->
    if decide (p = l) then pending h n else accounted h n.

(** The points of a session every search cycle of which has returned. *)
Inductive in_session_ok : world State Env -> Prop :=
| ok_fresh st e : in_session_ok (fresh_world st e)
| ok_cycle w fuel c w' :
    in_session_ok w ->
    search_iter exploration_weight fuel (root w) w = (Done c, w') ->
    in_session_ok w'
| ok_move w n c out w' :
    in_session_ok w ->
    heap w !! root w = Some n -> c ∈ children n ->
    move_to (PyNode c) w = (out, w') ->
    in_session_ok w'
| ok_new_root w st out w' :
    in_session_ok w ->
    move_to_new st w = (out, w') ->
    in_session_ok w'.
End Shape.

(** ** Properties of the node methods *)

(** The child at the head of the list is the node already looked up. *)
Ltac same_node Hj Hn Hn' :=
  injection Hj as <-; rewrite Hn in Hn'; injection Hn' as <-.

Section NodeFacts.
Context {State : Type}.
Variable exploration_weight : R.
Abbreviation ucb_value := (ucb_value exploration_weight).
Implicit Types (h : list (node State)) (n : node State) (l : loc) (N : Z).

Lemma deref_Some h l n : h !! l = Some n -> deref h l = Done n.
Proof. unfold deref. by intros ->. Qed.

Lemma deref_Done h l n : deref h l = Done n -> h !! l = Some n.
Proof. unfold deref. by destruct (h !! l); intros [= ->]. Qed.

Lemma math_log_pos N : (1 <= N)%Z -> math_log N = Done (ln (IZR N)).
Proof.
  intros HN. unfold math_log.
  destruct (Z.ltb_spec 0 N) as [_|Hle]; [done | lia].
Qed.

Lemma ucb1_unvisited n N : visit n = 0%Z -> ucb1 exploration_weight n N = Done Inf.
Proof. unfold ucb1. by intros ->. Qed.

Lemma ucb1_visited n N :
  visit n <> 0%Z -> (1 <= N)%Z ->
  ucb1 exploration_weight n N = Done (Fin (ucb_value n N)).
Proof.
  intros Hv HN. unfold ucb1.
  destruct (Z.eqb_spec (visit n) 0) as [|_]; [done|].
  by rewrite math_log_pos.
Qed.

(** C6: for [N >= 1], [ucb1(N)] is [+inf] exactly when the node is
    unvisited, and otherwise the finite number
    [score/visit + exploration_weight * (log(N)/visit)], with neither a
    square root nor any visit count but the node's own and the caller's
    [N]; the weight defaults to [1.0]. *)
Theorem ucb1_spec n N :
  (1 <= N)%Z ->
  (ucb1 exploration_weight n N = Done Inf <-> visit n = 0%Z) /\
  (visit n <> 0%Z ->
   ucb1 exploration_weight n N =
     Done (Fin (score n / IZR (visit n)
                + exploration_weight * (ln (IZR N) / IZR (visit n))))) /\
  default_exploration_weight = 1%R.
Proof.
  intros HN. split; [split|split].
  - intros Hu. destruct (decide (visit n = 0%Z)) as [|Hv]; [done|].
    by rewrite (ucb1_visited _ _ Hv HN) in Hu.
  - apply ucb1_unvisited.
  - intros Hv. by apply ucb1_visited.
  - done.
Qed.

(** *** [select] *)

(** Once the loop meets an unvisited child it returns it, whatever the
    best child so far. *)
Lemma select_loop_unvisited h N cs i c cn :
  (1 <= N)%Z -> allocated h cs ->
  cs !! i = Some c -> h !! c = Some cn -> visit cn = 0%Z ->
  (forall j c' n', (j < i)%nat -> cs !! j = Some c' -> h !! c' = Some n' ->
                   visit n' <> 0%Z) ->
  forall b ub, select_loop exploration_weight h N cs b ub = Done c.
Proof.
  intros HN. revert i. induction cs as [|c0 cs IH]; intros i Hall Hi Hc Hv Hbefore b ub.
  - done.
  - apply Forall_cons_1 in Hall as [[n0 Hn0] Hall]. simpl.
    rewrite (deref_Some _ _ _ Hn0).
    destruct i as [|i]; simpl in Hi.
    + injection Hi as ->. rewrite Hc in Hn0. injection Hn0 as <-.
      by rewrite Hv.
    + assert (visit n0 <> 0%Z) as Hv0 by (apply (Hbefore 0%nat c0); [lia|done..]).
      destruct (Z.eqb_spec (visit n0) 0) as [|_]; [done|].
      rewrite (ucb1_visited _ _ Hv0 HN).
      assert (forall b ub, select_loop exploration_weight h N cs b ub = Done c) as Hrec.
      { apply (IH i); [done..|].
        intros j c' n' Hj. apply (Hbefore (S j)). lia. }
      destruct (float_gt _ _); apply Hrec.
Qed.

(** With every child visited the loop keeps the best child so far unless
    a later child is strictly better; it ends on the first child of
    greatest value. *)
Lemma select_loop_visited h N cs b xb :
  (1 <= N)%Z ->
  Forall (fun c => exists n, h !! c = Some n /\ visit n <> 0%Z) cs ->
  exists r, select_loop exploration_weight h N cs b (Fin xb) = Done r /\
    ((r = b /\ forall c' n', c' ∈ cs -> h !! c' = Some n' ->
                (ucb_value n' N <= xb)%R) \/
     (exists i n, cs !! i = Some r /\ h !! r = Some n /\
        (xb < ucb_value n N)%R /\
        forall j c' n', cs !! j = Some c' -> h !! c' = Some n' ->
          (ucb_value n' N <= ucb_value n N)%R /\
          ((j < i)%nat -> (ucb_value n' N < ucb_value n N)%R))).
Proof.
  intros HN. revert b xb. induction cs as [|c cs IH]; intros b xb Hall.
  - exists b. split; [done|]. left. split; [done|].
    intros c' n' Hin. by apply elem_of_nil in Hin.
  - apply Forall_cons_1 in Hall as [(n & Hn & Hv) Hall]. simpl.
    rewrite (deref_Some _ _ _ Hn).
    destruct (Z.eqb_spec (visit n) 0) as [|_]; [done|].
    rewrite (ucb1_visited _ _ Hv HN). simpl.
    destruct (decide (ucb_value n N > xb)%R) as [Hgt|Hle].
    + rewrite bool_decide_eq_true_2 by done.
      destruct (IH c (ucb_value n N) Hall)
        as (r & Hr & [[-> Hmax]|(i & nr & Hi & Hnr & Hlt & Hmax)]).
      * exists c. split; [done|]. right. exists 0%nat, n.
        split_and!; try done; try lra.
        intros j c' n' Hj Hn'. split; [|lia]. destruct j as [|j]; simpl in Hj.
        -- same_node Hj Hn Hn'. lra.
        -- apply (Hmax c' n'); [|done]. by eapply list_elem_of_lookup_2.
      * exists r. split; [done|]. right. exists (S i), nr.
        split_and!; try done; try lra.
        intros j c' n' Hj Hn'. destruct j as [|j]; simpl in Hj.
        -- same_node Hj Hn Hn'. lra.
        -- destruct (Hmax j c' n' Hj Hn') as [Hle' Hlt']. split; [done|].
           intros ?. apply Hlt'. lia.
    + rewrite bool_decide_eq_false_2 by done.
      destruct (IH b xb Hall)
        as (r & Hr & [[-> Hmax]|(i & nr & Hi & Hnr & Hlt & Hmax)]).
      * exists b. split; [done|]. left. split; [done|].
        intros c' n' Hin Hn'. apply elem_of_cons in Hin as [->|Hin].
        -- rewrite Hn in Hn'. injection Hn' as <-. lra.
        -- by apply (Hmax c' n').
      * exists r. split; [done|]. right. exists (S i), nr.
        split_and!; try done.
        intros j c' n' Hj Hn'. destruct j as [|j]; simpl in Hj.
        -- same_node Hj Hn Hn'. lra.
        -- destruct (Hmax j c' n' Hj Hn') as [Hle' Hlt']. split; [done|].
           intros ?. apply Hlt'. lia.
Qed.

Lemma first_unvisited h cs :
  allocated h cs ->
  (exists i c cn, cs !! i = Some c /\ h !! c = Some cn /\ visit cn = 0%Z /\
     forall j c' n', (j < i)%nat -> cs !! j = Some c' -> h !! c' = Some n' ->
                     visit n' <> 0%Z) \/
  Forall (fun c => exists n, h !! c = Some n /\ visit n <> 0%Z) cs.
Proof.
  induction cs as [|c cs IH]; intros Hall.
  - right. constructor.
  - apply Forall_cons_1 in Hall as [[n Hn] Hall].
    destruct (decide (visit n = 0%Z)) as [Hv|Hv].
    + left. exists 0%nat, c, n. repeat split; try done. intros j c' n' Hj. lia.
    + destruct (IH Hall) as [(i & c1 & cn & Hi & Hc1 & Hv1 & Hbefore)|Hvis].
      * left. exists (S i), c1, cn. repeat split; try done.
        intros [|j] c' n' Hj Hj' Hn'; simpl in Hj'.
        -- injection Hj' as <-. rewrite Hn in Hn'. by injection Hn' as <-.
        -- apply (Hbefore j c' n'); [lia|done..].
      * right. constructor; [by exists n|done].
Qed.

(** C5 (amended to [N >= 1]): on a node with children, [select(N)] returns
    the first child in list order with [visit == 0] when there is one, and
    otherwise a child of greatest [ucb1(N)] which is strictly greater than
    every child before it in the list. *)
Theorem select_spec h self n N :
  (1 <= N)%Z ->
  h !! self = Some n -> children n <> [] -> allocated h (children n) ->
  exists i c cn,
    children n !! i = Some c /\ h !! c = Some cn /\
    select exploration_weight h self N = Done c /\
    ((visit cn = 0%Z /\
      forall j c' n', (j < i)%nat -> children n !! j = Some c' ->
                      h !! c' = Some n' -> visit n' <> 0%Z) \/
     ((forall c' n', c' ∈ children n -> h !! c' = Some n' -> visit n' <> 0%Z) /\
      exists x, ucb1 exploration_weight cn N = Done (Fin x) /\
        forall j c' n' x', children n !! j = Some c' -> h !! c' = Some n' ->
          ucb1 exploration_weight n' N = Done (Fin x') ->
          (x' <= x)%R /\ ((j < i)%nat -> (x' < x)%R))).
Proof.
  intros HN Hself Hne Hall. unfold select. rewrite (deref_Some _ _ _ Hself).
  destruct (children n) as [|c0 rest] eqn:Hcs; [done|].
  pose proof Hall as Hall0. apply Forall_cons_1 in Hall0 as [[n0 Hn0] _].
  rewrite (deref_Some _ _ _ Hn0).
  destruct (first_unvisited h (c0 :: rest) Hall)
    as [(i & c & cn & Hi & Hc & Hv & Hbefore)|Hvis].
  - exists i, c, cn. repeat split; try done; [|by left].
    assert (exists u0, ucb1 exploration_weight n0 N = Done u0) as [u0 ->].
    { destruct (decide (visit n0 = 0%Z)) as [Hv0|Hv0].
      - exists Inf. by apply ucb1_unvisited.
      - eexists. by apply ucb1_visited. }
    by apply (select_loop_unvisited h N (c0 :: rest) i c cn).
  - pose proof Hvis as Hvis0. apply Forall_cons_1 in Hvis0 as [(n0' & Hn0' & Hv0) _].
    rewrite Hn0 in Hn0'. injection Hn0' as <-.
    rewrite (ucb1_visited _ _ Hv0 HN).
    assert (forall c' n', c' ∈ c0 :: rest -> h !! c' = Some n' -> visit n' <> 0%Z)
      as Hallvis.
    { intros c' n' Hin Hn'. rewrite Forall_forall in Hvis.
      apply list_elem_of_In in Hin.
      destruct (Hvis c' Hin) as (n'' & Hn'' & Hv''). congruence. }
    destruct (select_loop_visited h N (c0 :: rest) c0 (ucb_value n0 N) HN Hvis)
      as (r & Hr & [[-> Hmax]|(i & nr & Hi & Hnr & Hlt & Hmax)]).
    + exists 0%nat, c0, n0. repeat split; try done. right. split; [done|].
      exists (ucb_value n0 N). split; [by apply ucb1_visited|].
      intros j c' n' x' Hj Hn' Hx'.
      assert (c' ∈ c0 :: rest) as Hin by (by eapply list_elem_of_lookup_2).
      rewrite (ucb1_visited n' N) in Hx' by eauto. injection Hx' as <-.
      split; [by apply (Hmax c' n')|lia].
    + assert (visit nr <> 0%Z) as Hvr.
      { apply (Hallvis r); [by eapply list_elem_of_lookup_2|done]. }
      exists i, r, nr. repeat split; try done. right. split; [done|].
      exists (ucb_value nr N). split; [by apply ucb1_visited|].
      intros j c' n' x' Hj Hn' Hx'.
      assert (c' ∈ c0 :: rest) as Hin by (by eapply list_elem_of_lookup_2).
      rewrite (ucb1_visited n' N) in Hx' by eauto. injection Hx' as <-.
      by apply (Hmax j c' n').
Qed.
End NodeFacts.

(** ** Properties of the tree methods *)
Section TreeFacts.
Context {State Env : Type} `{!Domain State Env} `{!Clock Env}.
Variable exploration_weight : R.
Implicit Types (h : list (node State)) (n : node State) (l : loc) (N : Z).
Implicit Types (w : world State Env).

Lemma get_Some w l n : heap w !! l = Some n -> get l w = (Done n, w).
Proof. intros Hl. unfold get. by rewrite (deref_Some _ _ _ Hl). Qed.

Lemma get_None w l : heap w !! l = None -> get l w = (Raise NoSuchObject, w).
Proof. intros Hl. unfold get, deref. by rewrite Hl. Qed.

Lemma update_Some w l n f :
  heap w !! l = Some n ->
  update l f w = (Done tt, set_heap (<[l := f n]> (heap w)) w).
Proof. intros Hl. unfold update, bind. by rewrite (get_Some _ _ _ Hl). Qed.

Lemma update_None w l f :
  heap w !! l = None -> update l f w = (Raise NoSuchObject, w).
Proof. intros Hl. unfold update, bind. by rewrite (get_None _ _ Hl). Qed.

(** *** The argument checks and the two budgets *)

Lemma check_args_rejects (iterations : option Z) (time_limit : option R) :
  (iterations = None -> time_limit = None ->
   check_args iterations time_limit =
     Raise (ValueError "Either iterations or time_limit must be specified.")) /\
  (is_Some iterations -> is_Some time_limit ->
   check_args iterations time_limit =
     Raise (ValueError "Only one of iterations or time_limit can be specified.")) /\
  (forall k, (k < 0)%Z -> iterations = Some k -> time_limit = None ->
   check_args iterations time_limit =
     Raise (ValueError "Number of iterations must be greater than zero.")) /\
  (forall t, (t < 0)%R -> iterations = None -> time_limit = Some t ->
   check_args iterations time_limit =
     Raise (ValueError "Time limit must be greater than zero.")).
Proof.
  repeat split.
  - by intros -> ->.
  - by intros [k ->] [t ->].
  - intros k Hk -> ->. simpl.
    destruct (Z.eqb_spec k 0) as [|_]; [lia|].
    destruct (Z.leb_spec k 0) as [_|]; [done|lia].
  - intros t Ht -> ->. simpl.
    rewrite bool_decide_eq_false_2 by lra.
    by rewrite bool_decide_eq_true_2 by lra.
Qed.

Lemma search_rejected fuel iterations time_limit e w :
  check_args iterations time_limit = Raise e ->
  search exploration_weight fuel iterations time_limit w = (Raise e, w).
Proof. intros He. unfold search, bind, lift. by rewrite He. Qed.

Lemma check_args_time_limit_ok (t : R) : (0 <= t)%R -> check_args None (Some t) = Done tt.
Proof.
  intros Ht. simpl. destruct (decide (t = 0%R)) as [->|Hne].
  - by rewrite bool_decide_eq_true_2.
  - rewrite (bool_decide_eq_false_2 (t <= 0)%R) by lra. by rewrite andb_false_r.
Qed.

(** The loop guard fails on its first evaluation, at [iters = 0]. *)
Lemma timed_loop_0 fuel depth curr start_time t w :
  timed_loop exploration_weight (S fuel) depth curr 0 start_time t w = (Done tt, w).
Proof. reflexivity. Qed.

Lemma best_child_of_root_world w : snd (best_child_of_root w) = w.
Proof.
  unfold best_child_of_root, bind, get_root, get.
  destruct (deref (heap w) (root w)) as [rn|]; [|done].
  by destruct (children rn).
Qed.

(** With a time budget that passes the checks, [search] reads the clock
    once and goes on to the choice of the best child. *)
Lemma search_time_limit_unfold fuel (t : R) w :
  (0 <= t)%R ->
  search exploration_weight (S fuel) None (Some t) w
    = best_child_of_root (set_env (snd (time (env w))) w).
Proof.
  intros Ht. unfold search, bind, lift.
  rewrite check_args_time_limit_ok by done. simpl.
  unfold bind, read_clock. by destruct (time (env w)).
Qed.

(** C1 (the code departs from it): with a time budget the loop of [search]
    runs no cycle at all.  The clock is read once, for [start_time]; the
    guard [iters % 100 != 0 and ...] is false at [iters = 0]; [search] goes
    on to pick the best child in a store no cycle has touched. *)
Theorem search_time_limit_runs_no_cycle fuel (t : R) w :
  (0 < t)%R ->
  search exploration_weight (S fuel) None (Some t) w
    = best_child_of_root (set_env (snd (time (env w))) w) /\
  heap (snd (search exploration_weight (S fuel) None (Some t) w)) = heap w /\
  root (snd (search exploration_weight (S fuel) None (Some t) w)) = root w.
Proof.
  intros Ht.
  assert (0 <= t)%R as Ht' by lra.
  split; [by apply search_time_limit_unfold|].
  rewrite (search_time_limit_unfold _ _ _ Ht'), best_child_of_root_world. done.
Qed.

(** C2 (the code departs from it): a bound of exactly [0] passes the
    argument checks, for [iterations] and for [time_limit] alike; no
    argument error is raised and [search] goes on to pick the best child. *)
Theorem search_accepts_zero_bound fuel w :
  check_args (Some 0%Z) None = Done tt /\
  check_args None (Some 0%R) = Done tt /\
  search exploration_weight fuel (Some 0%Z) None w = best_child_of_root w /\
  search exploration_weight (S fuel) None (Some 0%R) w
    = best_child_of_root (set_env (snd (time (env w))) w).
Proof.
  split_and!.
  - reflexivity.
  - apply check_args_time_limit_ok. lra.
  - reflexivity.
  - apply search_time_limit_unfold. lra.
Qed.

(** *** The choice of the best child *)

Lemma most_visited_spec h cs b nb :
  allocated h cs -> h !! b = Some nb ->
  exists r nr, most_visited h cs b = Done r /\ h !! r = Some nr /\
    ((r = b /\ forall c' n', c' ∈ cs -> h !! c' = Some n' ->
                (visit n' <= visit nb)%Z) \/
     (exists i, cs !! i = Some r /\ (visit nb < visit nr)%Z /\
        forall j c' n', cs !! j = Some c' -> h !! c' = Some n' ->
          (visit n' <= visit nr)%Z /\ ((j < i)%nat -> (visit n' < visit nr)%Z))).
Proof.
  revert b nb. induction cs as [|c cs IH]; intros b nb Hall Hb.
  - exists b, nb. split_and!; try done. left. split; [done|].
    intros c' n' Hin. by apply elem_of_nil in Hin.
  - apply Forall_cons_1 in Hall as [[n Hn] Hall]. simpl.
    rewrite (deref_Some _ _ _ Hn), (deref_Some _ _ _ Hb).
    destruct (Z.gtb_spec (visit n) (visit nb)) as [Hgt|Hle].
    + destruct (IH c n Hall Hn) as (r & nr & Hr & Hnr & [[-> Hmax]|(i & Hi & Hlt & Hmax)]).
      * rewrite Hn in Hnr. injection Hnr as <-.
        exists c, n. split_and!; try done. right. exists 0%nat.
        split_and!; try done; try lia.
        intros j c' n' Hj Hn'. destruct j as [|j]; simpl in Hj.
        -- same_node Hj Hn Hn'. lia.
        -- split; [|lia]. apply (Hmax c' n'); [|done]. by eapply list_elem_of_lookup_2.
      * exists r, nr. split_and!; try done. right. exists (S i).
        split_and!; try done; try lia.
        intros j c' n' Hj Hn'. destruct j as [|j]; simpl in Hj.
        -- same_node Hj Hn Hn'. lia.
        -- destruct (Hmax j c' n' Hj Hn') as [Hle' Hlt']. split; [done|].
           intros ?. apply Hlt'. lia.
    + destruct (IH b nb Hall Hb) as (r & nr & Hr & Hnr & [[-> Hmax]|(i & Hi & Hlt & Hmax)]).
      * rewrite Hb in Hnr. injection Hnr as <-.
        exists b, nb. split_and!; try done. left. split; [done|].
        intros c' n' Hin Hn'. apply elem_of_cons in Hin as [->|Hin].
        -- rewrite Hn in Hn'. injection Hn' as <-. lia.
        -- by apply (Hmax c' n').
      * exists r, nr. split_and!; try done. right. exists (S i).
        split_and!; try done.
        intros j c' n' Hj Hn'. destruct j as [|j]; simpl in Hj.
        -- same_node Hj Hn Hn'. lia.
        -- destruct (Hmax j c' n' Hj Hn') as [Hle' Hlt']. split; [done|].
           intros ?. apply Hlt'. lia.
Qed.

Lemma search_after_budget fuel iterations time_limit w w1 :
  check_args iterations time_limit = Done tt ->
  run_budget exploration_weight fuel iterations time_limit (root w) w = (Done tt, w1) ->
  search exploration_weight fuel iterations time_limit w = best_child_of_root w1.
Proof.
  intros Hargs Hrun. unfold search, bind, lift, get_root.
  by rewrite Hargs, Hrun.
Qed.

(** C3: when the budget completes, [search] returns the child of the root
    with the greatest visit count, the first such child in list order; with
    a childless root it raises the state error instead. *)
Theorem search_returns_most_visited fuel iterations time_limit w w1 rn :
  check_args iterations time_limit = Done tt ->
  run_budget exploration_weight fuel iterations time_limit (root w) w = (Done tt, w1) ->
  heap w1 !! root w1 = Some rn ->
  allocated (heap w1) (children rn) ->
  (children rn = [] ->
   search exploration_weight fuel iterations time_limit w =
     (Raise (ValueError
        "No children found in the root node. Ensure the root could be expanded."),
      w1)) /\
  (children rn <> [] ->
   exists i c cn,
     children rn !! i = Some c /\ heap w1 !! c = Some cn /\
     search exploration_weight fuel iterations time_limit w = (Done c, w1) /\
     forall j c' n', children rn !! j = Some c' -> heap w1 !! c' = Some n' ->
       (visit n' <= visit cn)%Z /\ ((j < i)%nat -> (visit n' < visit cn)%Z)).
Proof.
  intros Hargs Hrun Hroot Hall.
  rewrite (search_after_budget _ _ _ _ _ Hargs Hrun).
  unfold best_child_of_root, bind, get_root. rewrite (get_Some _ _ _ Hroot).
  split.
  - by intros ->.
  - intros Hne. destruct (children rn) as [|c0 rest]; [done|].
    apply Forall_cons_1 in Hall as [[n0 Hn0] Hall].
    destruct (most_visited_spec (heap w1) rest c0 n0 Hall Hn0)
      as (r & nr & Hr & Hnr & [[-> Hmax]|(i & Hi & Hlt & Hmax)]).
    + rewrite Hn0 in Hnr. injection Hnr as <-.
      exists 0%nat, c0, n0. rewrite Hr. split_and!; try done.
      intros j c' n' Hj Hn'. split; [|lia]. destruct j as [|j]; simpl in Hj.
      * same_node Hj Hn0 Hn'. lia.
      * apply (Hmax c' n'); [|done]. by eapply list_elem_of_lookup_2.
    + exists (S i), r, nr. rewrite Hr. split_and!; try done.
      intros j c' n' Hj Hn'. destruct j as [|j]; simpl in Hj.
      * same_node Hj Hn0 Hn'. lia.
      * destruct (Hmax j c' n' Hj Hn') as [Hle' Hlt']. split; [done|].
        intros ?. apply Hlt'. lia.
Qed.

(** *** Re-rooting *)

(** C8: [move_to(n)] on a node reference makes [n] the root and clears its
    parent; the other attributes of [n] and every other node of the store,
    the subtree of [n] among them, stay as they were. *)
Theorem move_to_spec l n w :
  heap w !! l = Some n ->
  exists w' n',
    move_to (PyNode l) w = (Done tt, w') /\
    root w' = l /\ env w' = env w /\
    heap w' !! l = Some n' /\
    parent n' = None /\
    visit n' = visit n /\ score n' = score n /\ children n' = children n /\
    is_terminal n' = is_terminal n /\ minmax_search n' = minmax_search n /\
    state n' = state n /\
    length (heap w') = length (heap w) /\
    forall l', l' <> l -> heap w' !! l' = heap w !! l'.
Proof.
  intros Hl.
  exists (set_heap (<[l := set_parent None n]> (heap w)) (set_root l w)),
         (set_parent None n).
  assert (l < length (heap w))%nat as Hlt by (by eapply lookup_lt_Some).
  split_and!; try done.
  - unfold move_to, bind, get_root. simpl.
    by rewrite (update_Some (set_root l w) l n).
  - simpl. by apply list_lookup_insert_eq.
  - simpl. by rewrite length_insert.
  - intros l' Hne. simpl. by apply list_lookup_insert_ne.
Qed.

(** *** Backpropagation *)

Lemma backpropagate_step depth l r w :
  backpropagate (S depth) l r w =
    match heap w !! l with
    | None => (Raise NoSuchObject, w)
    | Some n =>
      let w1 := set_heap (<[l := bumped r n]> (heap w)) w in
      match parent n with
      | Some p => backpropagate depth p (if minmax_search n then (- r)%R else r) w1
      | None => (Done tt, w1)
      end
    end.
Proof.
  simpl. unfold bind at 1. destruct (heap w !! l) as [n|] eqn:Hl.
  - assert (l < length (heap w))%nat as Hlt by (by eapply lookup_lt_Some).
    rewrite (update_Some _ _ _ _ Hl). unfold bind at 1.
    erewrite update_Some by (simpl; by apply list_lookup_insert_eq).
    simpl. rewrite list_insert_insert_eq. unfold bind at 1.
    erewrite get_Some by (simpl; by apply list_lookup_insert_eq).
    simpl. by destruct (parent n).
  - by rewrite (update_None _ _ _ Hl).
Qed.

Lemma parent_chain_head h l path : parent_chain h l path -> exists path', path = l :: path'.
Proof. destruct 1; eauto. Qed.

Lemma parent_chain_functional h l path1 path2 :
  parent_chain h l path1 -> parent_chain h l path2 -> path1 = path2.
Proof.
  intros H1. revert path2. induction H1 as [l n Hl Hp|l n p path Hl Hp _ IH];
    intros path2 H2; destruct H2 as [l n2 Hl2 Hp2|l n2 p2 path2 Hl2 Hp2 H2];
    rewrite Hl in Hl2; injection Hl2 as <-; try congruence.
  rewrite Hp in Hp2. injection Hp2 as <-. f_equal. by apply IH.
Qed.

Lemma parent_chain_suffix h l path a :
  parent_chain h l path -> a ∈ path ->
  exists suffix, parent_chain h a suffix /\ (length suffix <= length path)%nat.
Proof.
  induction 1 as [l n Hl Hp|l n p path Hl Hp Hchain IH]; intros Ha.
  - apply list_elem_of_singleton in Ha as ->. exists [l]. split; [|done].
    by eapply chain_root.
  - apply elem_of_cons in Ha as [->|Ha].
    + exists (l :: path). split; [|done]. by eapply chain_step.
    + destruct (IH Ha) as (suffix & Hs & Hlen). exists suffix. split; [done|].
      simpl. lia.
Qed.

(** A chain that reaches a parentless node never meets a node twice. *)
Lemma parent_chain_NoDup h l path : parent_chain h l path -> NoDup path.
Proof.
  induction 1 as [l n Hl Hp|l n p path Hl Hp Hchain IH].
  - apply NoDup_singleton.
  - apply NoDup_cons_2; [|done]. intros Hin.
    destruct (parent_chain_suffix _ _ _ _ Hchain Hin) as (suffix & Hs & Hlen).
    assert (suffix = l :: path) as ->
      by (eapply parent_chain_functional; [done|by eapply chain_step]).
    simpl in Hlen. lia.
Qed.

(** Rewriting a node without touching its [parent] keeps every chain. *)
Lemma parent_chain_insert h l n n' a path :
  h !! l = Some n -> parent n' = parent n ->
  parent_chain h a path -> parent_chain (<[l := n']> h) a path.
Proof.
  intros Hl Hp. assert (l < length h)%nat as Hlt by (by eapply lookup_lt_Some).
  induction 1 as [a na Ha Hpa|a na p path Ha Hpa _ IH].
  - destruct (decide (a = l)) as [->|Hne].
    + apply (chain_root _ l n'); [by apply list_lookup_insert_eq|]. congruence.
    + apply (chain_root _ a na); [by rewrite list_lookup_insert_ne|done].
  - destruct (decide (a = l)) as [->|Hne].
    + apply (chain_step _ l n' p); [by apply list_lookup_insert_eq| |done]. congruence.
    + apply (chain_step _ a na p); [by rewrite list_lookup_insert_ne|done..].
Qed.

Lemma rewards_insert h l n n' path r :
  h !! l = Some n -> minmax_search n' = minmax_search n ->
  rewards (<[l := n']> h) path r = rewards h path r.
Proof.
  intros Hl Hm. assert (l < length h)%nat as Hlt by (by eapply lookup_lt_Some).
  revert r. induction path as [|a path IH]; intros r; [done|]. simpl.
  destruct (decide (a = l)) as [->|Hne].
  - rewrite list_lookup_insert_eq by done. rewrite Hl, Hm. by rewrite IH.
  - rewrite list_lookup_insert_ne by done. by rewrite IH.
Qed.

Lemma rewards_head h path r x : rewards h path r !! 0%nat = Some x -> x = r.
Proof. destruct path; [done|]. simpl. by intros [= ->]. Qed.

Lemma backpropagate_chain path :
  forall l r depth w,
    parent_chain (heap w) l path -> (length path <= depth)%nat ->
    exists h',
      backpropagate depth l r w = (Done tt, set_heap h' w) /\
      length h' = length (heap w) /\
      (forall i a x, path !! i = Some a -> rewards (heap w) path r !! i = Some x ->
         exists n, heap w !! a = Some n /\ h' !! a = Some (bumped x n)) /\
      (forall i a a' x x' n,
         path !! i = Some a -> path !! S i = Some a' -> heap w !! a = Some n ->
         rewards (heap w) path r !! i = Some x ->
         rewards (heap w) path r !! S i = Some x' ->
         parent n = Some a' /\ x' = if minmax_search n then (- x)%R else x) /\
      (forall a, a ∉ path -> h' !! a = heap w !! a).
Proof.
  induction path as [|l0 path IH]; intros l r depth w Hchain Hlen.
  { by destruct (parent_chain_head _ _ _ Hchain). }
  destruct (parent_chain_head _ _ _ Hchain) as [path' Heq].
  injection Heq as -> <-.
  pose proof (parent_chain_NoDup _ _ _ Hchain) as Hnd.
  apply NoDup_cons_1_1 in Hnd as Hfresh.
  destruct depth as [|depth]; [simpl in Hlen; lia|].
  inversion Hchain as [? n Hl Hp|? n p ? Hl Hp Hchain']; subst.
  - rewrite backpropagate_step, Hl, Hp. simpl.
    assert (l < length (heap w))%nat as Hlt by (by eapply lookup_lt_Some).
    exists (<[l := bumped r n]> (heap w)). split_and!; try done.
    + by rewrite length_insert.
    + intros [|i] a x Ha Hx; [|done]. simpl in Ha, Hx.
      injection Ha as <-. injection Hx as <-. exists n. split; [done|].
      by apply list_lookup_insert_eq.
    + intros a Ha. apply list_lookup_insert_ne. intros ->. apply Ha. constructor.
  - rewrite backpropagate_step, Hl, Hp. simpl.
    assert (l < length (heap w))%nat as Hlt by (by eapply lookup_lt_Some).
    set (r' := if minmax_search n then (- r)%R else r).
    set (w1 := set_heap (<[l := bumped r n]> (heap w)) w).
    assert (parent_chain (heap w1) p path) as Hchain1
      by (by apply (parent_chain_insert _ _ n)).
    destruct (IH p r' depth w1 Hchain1) as (h' & Hrun & Hlen' & Hpath & Hflip & Hframe).
    { simpl in Hlen. lia. }
    assert (rewards (heap w1) path r' = rewards (heap w) path r') as Hrw
      by (by apply (rewards_insert _ _ n)).
    rewrite Hrw in Hpath, Hflip.
    assert (forall a, a ∈ path -> heap w1 !! a = heap w !! a) as Hsame.
    { intros a Ha. apply list_lookup_insert_ne. by intros ->. }
    exists h'. split_and!.
    + done.
    + rewrite Hlen'. simpl. by rewrite length_insert.
    + intros [|i] a x Ha Hx; simpl in Ha, Hx.
      * injection Ha as <-. injection Hx as <-. exists n. split; [done|].
        rewrite (Hframe l Hfresh). by apply list_lookup_insert_eq.
      * rewrite Hl in Hx. destruct (Hpath i a x Ha Hx) as (na & Hna & Hna').
        exists na. split; [|done]. rewrite <- Hsame; [done|].
        by eapply list_elem_of_lookup_2.
    + intros [|i] a a' x x' na Ha Ha' Hna Hx Hx'; simpl in Ha, Ha', Hx, Hx'.
      * injection Ha as <-. injection Hx as <-. rewrite Hl in Hna, Hx'.
        injection Hna as <-. apply rewards_head in Hx' as ->.
        destruct (parent_chain_head _ _ _ Hchain') as [path' ->].
        simpl in Ha'. by injection Ha' as <-.
      * rewrite Hl in Hx, Hx'. apply (Hflip i a a' x x' na); try done.
        rewrite Hsame; [done|]. by eapply list_elem_of_lookup_2.
    + intros a Ha. apply not_elem_of_cons in Ha as [Hne Ha].
      rewrite (Hframe a Ha). by apply list_lookup_insert_ne.
Qed.

(** C4: [backpropagate(r)] on [l] adds one visit and the reward [r] to [l],
    then hands its parent [-r] when the flag of [l] itself is set and [r]
    otherwise, and so on up to the parentless root: every node of the chain
    is updated exactly once, with the reward [rewards] gives it, and no
    other node changes.  A call depth of the chain's length suffices. *)
Theorem backpropagate_spec depth l (r : R) path w :
  parent_chain (heap w) l path ->
  (length path <= depth)%nat ->
  exists h',
    backpropagate depth l r w = (Done tt, set_heap h' w) /\
    length h' = length (heap w) /\
    NoDup path /\
    path !! 0%nat = Some l /\
    rewards (heap w) path r !! 0%nat = Some r /\
    (forall i a x, path !! i = Some a -> rewards (heap w) path r !! i = Some x ->
       exists n, heap w !! a = Some n /\
         h' !! a = Some (set_score (score n + x) (set_visit (visit n + 1) n))) /\
    (forall i a a' x x' n,
       path !! i = Some a -> path !! S i = Some a' -> heap w !! a = Some n ->
       rewards (heap w) path r !! i = Some x ->
       rewards (heap w) path r !! S i = Some x' ->
       parent n = Some a' /\ x' = if minmax_search n then (- x)%R else x) /\
    (forall a, a ∉ path -> h' !! a = heap w !! a).
Proof.
  intros Hchain Hlen.
  destruct (backpropagate_chain path l r depth w Hchain Hlen)
    as (h' & ? & ? & ? & ? & ?).
  exists h'. split_and!; try done.
  - by eapply parent_chain_NoDup.
  - by destruct (parent_chain_head _ _ _ Hchain) as [path' ->].
  - by destruct (parent_chain_head _ _ _ Hchain) as [path' ->].
Qed.

(** *** Expansion *)

Lemma set_heap_id w : set_heap (heap w) w = w.
Proof. by destruct w. Qed.

Lemma alloc_all_spec sts w :
  alloc_all sts w =
    (Done (seq (length (heap w)) (length sts)),
     set_heap (heap w ++ map new_node sts) w).
Proof.
  revert w. induction sts as [|st sts IH]; intros w; simpl.
  - unfold ret. by rewrite app_nil_r, set_heap_id.
  - unfold bind, alloc. rewrite IH. simpl. unfold ret, set_heap. simpl.
    rewrite length_app. simpl. rewrite Nat.add_1_r.
    by rewrite <- app_assoc.
Qed.

Lemma insert_middle {A} (pre : list A) x y xs :
  <[length pre := y]> (pre ++ x :: xs) = pre ++ y :: xs.
Proof. induction pre as [|a pre IH]; simpl; [done|]. by rewrite IH. Qed.

(** The loop [for child in self.children: child.parent = self] over the
    freshly built children [xs], which sit at the end of the store. *)
Lemma set_parents_spec self (xs : list (node State)) :
  forall pre w,
    heap w = pre ++ xs ->
    for_each (seq (length pre) (length xs))
             (fun child => update child (set_parent (Some self))) w
    = (Done tt, set_heap (pre ++ map (set_parent (Some self)) xs) w).
Proof.
  induction xs as [|x xs IH]; intros pre w Hw; simpl.
  - unfold ret. by rewrite <- Hw, set_heap_id.
  - unfold bind.
    assert (heap w !! length pre = Some x) as Hx
      by (rewrite Hw; apply list_lookup_middle; done).
    rewrite (update_Some _ _ _ _ Hx).
    rewrite Hw, insert_middle.
    specialize (IH (pre ++ [set_parent (Some self) x])
                   (set_heap (pre ++ set_parent (Some self) x :: xs) w)).
    rewrite length_app in IH. simpl in IH. rewrite Nat.add_1_r in IH.
    rewrite IH by (simpl; by rewrite <- app_assoc).
    unfold set_heap. simpl. by rewrite <- app_assoc.
Qed.

Lemma expand_node_spec w self n :
  heap w !! self = Some n ->
  expand_node self w = (Done tt, set_heap (expanded_heap (heap w) self n) w).
Proof.
  intros Hself. assert (self < length (heap w))%nat as Hlt by (by eapply lookup_lt_Some).
  unfold expand_node, expanded_heap. unfold bind at 1. rewrite (get_Some _ _ _ Hself).
  unfold bind at 1. rewrite alloc_all_spec.
  generalize (expand (state n)). intros sts.
  set (cs := seq (length (heap w)) (length sts)).
  set (w1 := set_heap (heap w ++ map new_node sts) w).
  assert (heap w1 !! self = Some n) as Hself1
    by (simpl; by apply lookup_app_l_Some).
  unfold bind at 1. rewrite (update_Some _ _ _ _ Hself1).
  set (w2 := set_heap (<[self := set_children cs n]> (heap w1)) w1).
  assert (heap w2 !! self = Some (set_children cs n)) as Hself2.
  { simpl. apply list_lookup_insert_eq. rewrite length_app. lia. }
  unfold bind at 1. rewrite (get_Some _ _ _ Hself2). simpl.
  subst cs. rewrite length_seq.
  destruct (decide (sts = [])) as [->|Hne].
  - simpl. rewrite (update_Some _ _ _ _ Hself2). simpl.
    by rewrite app_nil_r, list_insert_insert_eq.
  - assert ((length sts =? 0)%nat = false) as -> by (by destruct sts).
    subst w2 w1. simpl. rewrite insert_app_l by done.
    pose proof (set_parents_spec self (map new_node sts)
                  (<[self := set_children (seq (length (heap w)) (length sts)) n]> (heap w))) as Hloop.
    rewrite length_insert, length_map in Hloop.
    erewrite Hloop by done.
    unfold set_heap. simpl. rewrite map_map. by destruct sts.
Qed.

Lemma expanded_heap_self h self n :
  h !! self = Some n ->
  expanded_heap h self n !! self =
    Some (match expand (state n) with
          | [] => set_is_terminal true (set_children [] n)
          | sts => set_children (seq (length h) (length sts)) n
          end).
Proof.
  intros Hself. assert (self < length h)%nat as Hlt by (by eapply lookup_lt_Some).
  unfold expanded_heap. destruct (expand (state n)) as [|st sts].
  - by apply list_lookup_insert_eq.
  - rewrite lookup_app_l by (by rewrite length_insert).
    by apply list_lookup_insert_eq.
Qed.

(** *** One search cycle *)

(** The descent only reads the store, and ends on a childless node. *)
Lemma descend_outcome fuel :
  forall curr w out w',
    descend exploration_weight fuel curr w = (out, w') ->
    w' = w /\
    forall l, out = Done l -> exists n, heap w !! l = Some n /\ children n = [].
Proof.
  induction fuel as [|fuel IH]; intros curr w out w' Hrun; simpl in Hrun.
  - injection Hrun as <- <-. done.
  - unfold bind, get, get_root, select_from in Hrun.
    destruct (deref (heap w) curr) as [n|e] eqn:Hcurr;
      [|by injection Hrun as <- <-].
    destruct (children n) as [|c cs] eqn:Hcs; simpl in Hrun.
    + injection Hrun as <- <-. split; [done|]. intros l [= <-].
      exists n. split; [by apply deref_Done|done].
    + destruct (deref (heap w) (root w)) as [rn|e];
        [|by injection Hrun as <- <-].
      destruct (select exploration_weight (heap w) curr (visit rn)) as [next|e];
        [|by injection Hrun as <- <-].
      by apply (IH next).
Qed.

Lemma search_iter_unfold fuel curr w :
  search_iter exploration_weight fuel curr w =
    match descend exploration_weight fuel curr w with
    | (Done l, w1) =>
      match expand_step l w1 with
      | (Done c, w2) => simulate_and_backpropagate fuel c w2
      | (Raise e, w2) => (Raise e, w2)
      end
    | (Raise e, w1) => (Raise e, w1)
    end.
Proof. reflexivity. Qed.

Lemma expand_step_skip l w n :
  heap w !! l = Some n -> is_terminal n = true \/ visit n = 0%Z ->
  expand_step l w = (Done l, w).
Proof.
  intros Hl Hskip. unfold expand_step, bind. rewrite (get_Some _ _ _ Hl).
  assert (negb (is_terminal n) && negb (visit n =? 0)%Z = false) as ->; [|done].
  destruct Hskip as [->| ->]; [done|]. by rewrite andb_false_r.
Qed.

Lemma expand_step_expand l w n :
  heap w !! l = Some n -> is_terminal n = false -> visit n <> 0%Z ->
  expand_step l w =
    (Done (match expand (state n) with [] => l | _ :: _ => length (heap w) end),
     set_heap (expanded_heap (heap w) l n) w).
Proof.
  intros Hl Hterm Hvisit. unfold expand_step. unfold bind at 1.
  rewrite (get_Some _ _ _ Hl), Hterm.
  destruct (Z.eqb_spec (visit n) 0) as [|_]; [done|]. simpl.
  unfold bind at 1. rewrite (expand_node_spec _ _ _ Hl).
  unfold bind. erewrite get_Some by (simpl; by apply expanded_heap_self).
  by destruct (expand (state n)); simpl; rewrite ?Hterm.
Qed.

Lemma descend_step fuel curr w :
  descend exploration_weight (S fuel) curr w =
    match heap w !! curr with
    | None => (Raise NoSuchObject, w)
    | Some n =>
      if (0 <? length (children n))%nat then
        match heap w !! root w with
        | None => (Raise NoSuchObject, w)
        | Some rn =>
          match select exploration_weight (heap w) curr (visit rn) with
          | Done next => descend exploration_weight fuel next w
          | Raise e => (Raise e, w)
          end
        end
      else (Done curr, w)
    end.
Proof.
  simpl. unfold bind, get, get_root, select_from, deref.
  destruct (heap w !! curr) as [n|]; [|done].
  destruct (0 <? length (children n))%nat; [|done].
  destruct (heap w !! root w) as [rn|]; [|done].
  by destruct (select _ _ _ _).
Qed.

(** C7: when the descent of a cycle has reached the childless node [l]: a
    node that is not terminal and has been visited is expanded, and the
    cycle then simulates its first child, at index 0 of the new children,
    or the node itself when the expansion made it terminal; a node that is
    terminal or unvisited is simulated as it is, without expansion. *)
Theorem search_iter_expansion fuel curr w l w' :
  descend exploration_weight fuel curr w = (Done l, w') ->
  w' = w /\
  exists n, heap w !! l = Some n /\ children n = [] /\
    (is_terminal n = false -> visit n <> 0%Z ->
     let w2 := set_heap (expanded_heap (heap w) l n) w in
     expand_node l w = (Done tt, w2) /\
     exists n2, heap w2 !! l = Some n2 /\
       (is_terminal n2 = false ->
        exists c, children n2 !! 0%nat = Some c /\
          search_iter exploration_weight fuel curr w
            = simulate_and_backpropagate fuel c w2) /\
       (is_terminal n2 = true ->
        search_iter exploration_weight fuel curr w
          = simulate_and_backpropagate fuel l w2)) /\
    (is_terminal n = true \/ visit n = 0%Z ->
     search_iter exploration_weight fuel curr w
       = simulate_and_backpropagate fuel l w).
Proof.
  intros Hdesc. destruct (descend_outcome _ _ _ _ _ Hdesc) as [-> Hleaf].
  destruct (Hleaf l eq_refl) as (n & Hl & Hcs).
  split; [done|]. exists n. split_and!; try done.
  - intros Hterm Hvisit w2. split; [by apply expand_node_spec|].
    pose proof (expanded_heap_self _ _ _ Hl) as Hl2.
    eexists. split; [exact Hl2|].
    rewrite search_iter_unfold, Hdesc, (expand_step_expand _ _ _ Hl Hterm Hvisit).
    fold w2. destruct (expand (state n)) as [|st sts]; simpl.
    + split; [by rewrite ?Hterm|done].
    + split; [|by rewrite Hterm]. intros _. by exists (length (heap w)).
  - intros Hskip.
    by rewrite search_iter_unfold, Hdesc, (expand_step_skip _ _ _ Hl Hskip).
Qed.

(** *** Invariants of the search cycles

    A property [P] of single nodes that the constructor establishes and
    that expansion and a backpropagation step with a reward in [Q] keep,
    holds of every node of every reachable world. *)
Section Invariant.
Variable P : node State -> Prop.
Variable Q : R -> Prop.
Hypothesis P_new : forall st p, P (set_parent p (new_node st)).
Hypothesis P_children : forall n cs, P n -> visit n <> 0%Z -> P (set_children cs n).
Hypothesis P_terminal : forall n, P n -> P (set_is_terminal true n).
Hypothesis P_bump : forall n r, Q r -> P n -> P (bumped r n).
Hypothesis Q_neg : forall r, Q r -> Q (- r)%R.
Hypothesis Q_simulate : forall st e, Q (fst (simulate st e)).

Lemma backpropagate_preserves depth :
  forall l r w out w',
    Q r -> Forall P (heap w) ->
    backpropagate depth l r w = (out, w') -> Forall P (heap w').
Proof.
  induction depth as [|depth IH]; intros l r w out w' Hr Hinv Hrun.
  - by injection Hrun as <- <-.
  - rewrite backpropagate_step in Hrun.
    destruct (heap w !! l) as [n|] eqn:Hl; [|by injection Hrun as <- <-].
    assert (Forall P (<[l := bumped r n]> (heap w))) as Hinv1.
    { apply Forall_insert; [done|]. apply P_bump; [done|].
      by eapply Forall_lookup_1. }
    simpl in Hrun. destruct (parent n) as [p|].
    + refine (IH _ _ _ _ _ _ _ Hrun); [|exact Hinv1].
      destruct (minmax_search n); auto.
    + by injection Hrun as <- <-.
Qed.

Lemma expanded_heap_preserves h self n :
  Forall P h -> h !! self = Some n -> visit n <> 0%Z ->
  Forall P (expanded_heap h self n).
Proof.
  intros Hinv Hself Hvisit. assert (P n) as Hn by (by eapply Forall_lookup_1).
  unfold expanded_heap. destruct (expand (state n)) as [|st sts].
  - apply Forall_insert; [done|]. by apply P_terminal, P_children.
  - apply Forall_app. split.
    + apply Forall_insert; [done|]. by apply P_children.
    + apply Forall_forall. intros x Hx. apply in_map_iff in Hx as (st' & <- & _).
      apply P_new.
Qed.

Lemma simulate_and_backpropagate_preserves fuel c w out w' :
  Forall P (heap w) ->
  simulate_and_backpropagate fuel c w = (out, w') -> Forall P (heap w').
Proof.
  intros Hinv Hrun. unfold simulate_and_backpropagate, run_simulate in Hrun.
  unfold bind at 1 2 in Hrun. unfold get in Hrun.
  destruct (deref (heap w) c) as [n|e]; [|by injection Hrun as <- <-].
  pose proof (Q_simulate (state n) (env w)) as Hq.
  destruct (simulate (state n) (env w)) as [r e']. simpl in Hq.
  unfold bind in Hrun.
  destruct (backpropagate fuel c r (set_env e' w)) as [out1 w1] eqn:Hbp.
  apply backpropagate_preserves in Hbp; [|done..].
  destruct out1; by injection Hrun as <- <-.
Qed.

Lemma search_iter_preserves fuel curr w out w' :
  Forall P (heap w) ->
  search_iter exploration_weight fuel curr w = (out, w') -> Forall P (heap w').
Proof.
  intros Hinv Hrun. rewrite search_iter_unfold in Hrun.
  destruct (descend exploration_weight fuel curr w) as [out1 w1] eqn:Hdesc.
  destruct (descend_outcome _ _ _ _ _ Hdesc) as [-> Hleaf].
  destruct out1 as [l|e]; [|by injection Hrun as <- <-].
  destruct (Hleaf l eq_refl) as (n & Hl & _).
  destruct (is_terminal n) eqn:Hterm.
  { rewrite (expand_step_skip _ _ _ Hl) in Hrun by auto.
    by eapply simulate_and_backpropagate_preserves. }
  destruct (decide (visit n = 0%Z)) as [Hvisit|Hvisit].
  { rewrite (expand_step_skip _ _ _ Hl) in Hrun by auto.
    by eapply simulate_and_backpropagate_preserves. }
  rewrite (expand_step_expand _ _ _ Hl Hterm Hvisit) in Hrun.
  eapply simulate_and_backpropagate_preserves; [|exact Hrun].
  simpl. by apply expanded_heap_preserves.
Qed.

Lemma reachable_invariant w :
  reachable exploration_weight w -> Forall P (heap w).
Proof.
  induction 1 as [st e|w fuel out w' _ IH Hstep].
  - apply Forall_singleton. exact (P_new st None).
  - by eapply search_iter_preserves.
Qed.
End Invariant.

(** C9: when every result of [simulate] lies in [[-1, 1]], every node of a
    world that search cycles lead to has [|score| <= visit]. *)
Theorem score_bounded_by_visit w :
  (forall st e, (-1 <= fst (simulate st e) <= 1)%R) ->
  reachable exploration_weight w ->
  forall l n, heap w !! l = Some n -> (Rabs (score n) <= IZR (visit n))%R.
Proof.
  intros Hsim Hreach l n Hl.
  assert (Forall (fun n => (Rabs (score n) <= IZR (visit n))%R) (heap w)) as Hinv.
  { apply (reachable_invariant _ (fun r => (-1 <= r <= 1)%R)); try done.
    - intros st p. simpl. rewrite Rabs_R0. lra.
    - intros n0 r Hr Hn0. simpl. rewrite plus_IZR.
      pose proof (Rabs_triang (score n0) r) as Htri.
      assert (Rabs r <= 1)%R by (apply Rabs_le; lra). lra.
    - intros r Hr. lra. }
  by apply (Forall_lookup_1 _ _ _ _ Hinv Hl).
Qed.

(** C10: in every world that search cycles lead to from a fresh root, a
    node with children has been visited at least once. *)
Theorem expanded_nodes_are_visited w :
  reachable exploration_weight w ->
  forall l n, heap w !! l = Some n -> children n <> [] -> (1 <= visit n)%Z.
Proof.
  intros Hreach l n Hl Hcs.
  assert (Forall (fun n => (0 <= visit n)%Z /\ (children n <> [] -> (1 <= visit n)%Z))
                 (heap w)) as Hinv.
  { apply (reachable_invariant _ (fun _ => True)); try done.
    - intros n0 cs [Hpos _] Hvisit. simpl. split; [done|]. intros _. lia.
    - intros n0 r _ [Hpos Hch]. simpl. split; [lia|]. intros _. lia. }
  by apply (Forall_lookup_1 _ _ _ _ Hinv Hl).
Qed.
End TreeFacts.

(** ** The engine on a game of tic-tac-toe *)
Example first_cycle :
  search_iter default_exploration_weight 10 0 opening = (Done 0%nat, after_one_cycle) /\
  heap after_one_cycle = [root_once].
Proof. split; reflexivity. Qed.

Example second_cycle :
  search_iter default_exploration_weight 10 0 after_one_cycle = (Done 1%nat, after_two_cycles) /\
  heap after_two_cycles !! 0%nat = Some root_twice /\
  heap after_two_cycles !! 1%nat = Some first_child /\
  length (heap after_two_cycles) = 10%nat.
Proof. split_and!; reflexivity. Qed.

Lemma after_two_cycles_root : heap after_two_cycles !! 0%nat = Some root_twice.
Proof. reflexivity. Defined.

Lemma after_two_cycles_child : heap after_two_cycles !! 1%nat = Some first_child.
Proof. reflexivity. Defined.

Lemma after_two_cycles_length : length (heap after_two_cycles) = 10%nat.
Proof. reflexivity. Defined.

Lemma after_two_cycles_allocated :
  allocated (heap after_two_cycles) (children root_twice).
Proof.
  unfold allocated, root_twice. cbn [children].
  repeat (apply List.Forall_cons;
          [apply lookup_lt_is_Some_2; rewrite after_two_cycles_length; lia|]).
  apply List.Forall_nil.
Defined.

Lemma after_two_cycles_reachable : reachable default_exploration_weight after_two_cycles.
Proof.
  apply (reach_cycle default_exploration_weight after_one_cycle 10 (Done 1%nat)); [|reflexivity].
  apply (reach_cycle default_exploration_weight opening 10 (Done 0%nat)); [|reflexivity].
  apply reach_fresh.
Defined.

Lemma ttt_simulate_bounded (st : TicTacToe.state) (e : TicTacToe.env) :
  (-1 <= fst (simulate st e) <= 1)%R.
Proof.
  simpl. unfold TicTacToe.ttt_simulate.
  destruct (_ && _); [simpl; lra|].
  destruct (TicTacToe.playout _ _ _ _ _) as [[[p|] player] e']; [|simpl; lra].
  destruct (p =? player)%Z; simpl; lra.
Defined.

Lemma after_two_cycles_second : heap after_two_cycles !! 2%nat = Some second_child.
Proof. reflexivity. Qed.

(** In the third cycle the selection passes over the visited first child
    and takes the second, which is simulated without expansion. *)
Example third_cycle_select :
  select default_exploration_weight (heap after_two_cycles) 0%nat 2 = Done 2%nat.
Proof.
  unfold select. rewrite (deref_Some _ _ _ after_two_cycles_root).
  unfold root_twice at 1. cbn [children].
  rewrite (deref_Some _ _ _ after_two_cycles_child).
  rewrite (ucb1_visited _ first_child 2) by (simpl; lia).
  apply (select_loop_unvisited _ _ 2 _ 1%nat 2%nat second_child).
  - lia.
  - exact after_two_cycles_allocated.
  - reflexivity.
  - exact after_two_cycles_second.
  - reflexivity.
  - intros [|j] c' n' Hj Hc' Hn'; [|lia]. simpl in Hc'. injection Hc' as <-.
    rewrite after_two_cycles_child in Hn'. by injection Hn' as <-.
Qed.

Example third_cycle :
  descend default_exploration_weight 10 0%nat after_two_cycles
    = (Done 2%nat, after_two_cycles) /\
  fst (search_iter default_exploration_weight 10 0%nat after_two_cycles)
    = Done 2%nat.
Proof.
  assert (descend default_exploration_weight 10 0%nat after_two_cycles
          = (Done 2%nat, after_two_cycles)) as Hdesc.
  { rewrite descend_step, after_two_cycles_root.
    change (0 <? length (children root_twice))%nat with true. cbv iota.
    change (root after_two_cycles) with 0%nat.
    rewrite after_two_cycles_root.
    change (visit root_twice) with 2%Z. rewrite third_cycle_select.
    rewrite descend_step, after_two_cycles_second. reflexivity. }
  split; [exact Hdesc|].
  rewrite search_iter_unfold, Hdesc.
  rewrite (expand_step_skip _ _ second_child after_two_cycles_second)
    by (right; reflexivity).
  reflexivity.
Qed.

(** A search by iteration count on the opening position: with a bound of
    zero no cycle runs, and the state error of the childless root is what
    the caller gets. *)
Example search_zero_iterations :
  search default_exploration_weight 10 (Some 0%Z) None opening =
    (Raise (ValueError
       "No children found in the root node. Ensure the root could be expanded."),
     opening).
Proof. reflexivity. Qed.

(** The same with a time budget: no cycle runs either. *)
Example search_one_second :
  search default_exploration_weight 10 None (Some 1%R) opening =
    (Raise (ValueError
       "No children found in the root node. Ensure the root could be expanded."),
     set_env (TicTacToe.Env (TicTacToe.tape (env opening)) (0 + 1)) opening).
Proof. rewrite search_time_limit_unfold by lra. reflexivity. Qed.

Lemma search_time_limit_runs_no_cycle_witness :
  (0 < 1)%R /\
  search default_exploration_weight 10 None (Some 1%R) opening
    = best_child_of_root (set_env (snd (time (env opening))) opening) /\
  heap (snd (search default_exploration_weight 10 None (Some 1%R) opening)) = heap opening /\
  root (snd (search default_exploration_weight 10 None (Some 1%R) opening)) = root opening.
Proof.
  assert (0 < 1)%R as Hpos by lra.
  split; [exact Hpos|].
  exact (search_time_limit_runs_no_cycle default_exploration_weight 9 1 opening Hpos).
Defined.

Lemma search_returns_most_visited_witness :
  (children root_twice = [] ->
   search default_exploration_weight 10 (Some 2%Z) None opening =
     (Raise (ValueError
        "No children found in the root node. Ensure the root could be expanded."),
      after_two_cycles)) /\
  (children root_twice <> [] ->
   exists i c cn,
     children root_twice !! i = Some c /\ heap after_two_cycles !! c = Some cn /\
     search default_exploration_weight 10 (Some 2%Z) None opening = (Done c, after_two_cycles) /\
     forall j c' n', children root_twice !! j = Some c' ->
       heap after_two_cycles !! c' = Some n' ->
       (visit n' <= visit cn)%Z /\ ((j < i)%nat -> (visit n' < visit cn)%Z)).
Proof.
  apply (search_returns_most_visited default_exploration_weight 10 (Some 2%Z) None opening
           after_two_cycles root_twice).
  - reflexivity.
  - reflexivity.
  - exact after_two_cycles_root.
  - exact after_two_cycles_allocated.
Defined.

Lemma backpropagate_spec_witness :
  exists h',
    backpropagate 10 1%nat 1%R after_two_cycles
      = (Done tt, set_heap h' after_two_cycles) /\
    length h' = length (heap after_two_cycles) /\
    NoDup [1; 0]%nat /\
    [1; 0]%nat !! 0%nat = Some 1%nat /\
    rewards (heap after_two_cycles) [1; 0]%nat 1%R !! 0%nat = Some 1%R /\
    (forall i a x, [1; 0]%nat !! i = Some a ->
       rewards (heap after_two_cycles) [1; 0]%nat 1%R !! i = Some x ->
       exists n, heap after_two_cycles !! a = Some n /\
         h' !! a = Some (set_score (score n + x) (set_visit (visit n + 1) n))) /\
    (forall i a a' x x' n,
       [1; 0]%nat !! i = Some a -> [1; 0]%nat !! S i = Some a' ->
       heap after_two_cycles !! a = Some n ->
       rewards (heap after_two_cycles) [1; 0]%nat 1%R !! i = Some x ->
       rewards (heap after_two_cycles) [1; 0]%nat 1%R !! S i = Some x' ->
       parent n = Some a' /\ x' = if minmax_search n then (- x)%R else x) /\
    (forall a, a ∉ [1; 0]%nat -> h' !! a = heap after_two_cycles !! a).
Proof.
  apply (backpropagate_spec 10 1%nat 1%R [1; 0]%nat after_two_cycles).
  - apply (chain_step _ 1%nat first_child 0%nat); [reflexivity..|].
    apply (chain_root _ 0%nat root_twice); reflexivity.
  - simpl. lia.
Defined.

Lemma select_spec_witness :
  exists i c cn,
    children root_twice !! i = Some c /\ heap after_two_cycles !! c = Some cn /\
    select default_exploration_weight (heap after_two_cycles) 0%nat 2 = Done c /\
    ((visit cn = 0%Z /\
      forall j c' n', (j < i)%nat -> children root_twice !! j = Some c' ->
                      heap after_two_cycles !! c' = Some n' -> visit n' <> 0%Z) \/
     ((forall c' n', c' ∈ children root_twice ->
         heap after_two_cycles !! c' = Some n' -> visit n' <> 0%Z) /\
      exists x, ucb1 default_exploration_weight cn 2 = Done (Fin x) /\
        forall j c' n' x', children root_twice !! j = Some c' ->
          heap after_two_cycles !! c' = Some n' ->
          ucb1 default_exploration_weight n' 2 = Done (Fin x') ->
          (x' <= x)%R /\ ((j < i)%nat -> (x' < x)%R))).
Proof.
  apply (select_spec default_exploration_weight (heap after_two_cycles) 0%nat root_twice 2).
  - lia.
  - exact after_two_cycles_root.
  - discriminate.
  - exact after_two_cycles_allocated.
Defined.

(** C5, as stated for every [N]: with [N = 0] the root of the game has the
    children [1 .. 9], the first of them visited and the second the first
    unvisited one, and [select(0)] raises the domain error of [math.log]
    where the specification has it return child [2]. *)
Lemma select_raises_at_zero :
  heap after_two_cycles !! 0%nat = Some root_twice /\
  children root_twice = [1; 2; 3; 4; 5; 6; 7; 8; 9]%nat /\
  visit <$> heap after_two_cycles !! 1%nat = Some 1%Z /\
  visit <$> heap after_two_cycles !! 2%nat = Some 0%Z /\
  select default_exploration_weight (heap after_two_cycles) 0%nat 0 = Raise (ValueError "math domain error") /\
  select default_exploration_weight (heap after_two_cycles) 0%nat 0 <> Done 2%nat.
Proof.
  assert (select default_exploration_weight (heap after_two_cycles) 0%nat 0
          = Raise (ValueError "math domain error")) as Hraise.
  { unfold select. rewrite (deref_Some _ _ _ after_two_cycles_root).
    unfold root_twice. cbn [children].
    rewrite (deref_Some _ _ _ after_two_cycles_child). reflexivity. }
  split; [exact after_two_cycles_root|].
  split; [reflexivity|].
  split; [reflexivity|].
  split; [reflexivity|].
  split; [exact Hraise|].
  rewrite Hraise. discriminate.
Qed.

Lemma ucb1_spec_witness :
  (1 <= 2)%Z /\
  (ucb1 default_exploration_weight first_child 2 = Done Inf <-> visit first_child = 0%Z) /\
  (visit first_child <> 0%Z ->
   ucb1 default_exploration_weight first_child 2 =
     Done (Fin (score first_child / IZR (visit first_child)
                + default_exploration_weight * (ln (IZR 2) / IZR (visit first_child))))) /\
  default_exploration_weight = 1%R.
Proof.
  assert (1 <= 2)%Z as H12 by lia.
  split; [exact H12|].
  exact (ucb1_spec default_exploration_weight first_child 2 H12).
Defined.

Lemma search_iter_expansion_witness :
  after_one_cycle = after_one_cycle /\
  exists n, heap after_one_cycle !! 0%nat = Some n /\ children n = [] /\
    (is_terminal n = false -> visit n <> 0%Z ->
     let w2 := set_heap (expanded_heap (heap after_one_cycle) 0%nat n)
                        after_one_cycle in
     expand_node 0%nat after_one_cycle = (Done tt, w2) /\
     exists n2, heap w2 !! 0%nat = Some n2 /\
       (is_terminal n2 = false ->
        exists c, children n2 !! 0%nat = Some c /\
          search_iter default_exploration_weight 10 0%nat after_one_cycle
            = simulate_and_backpropagate 10 c w2) /\
       (is_terminal n2 = true ->
        search_iter default_exploration_weight 10 0%nat after_one_cycle
          = simulate_and_backpropagate 10 0%nat w2)) /\
    (is_terminal n = true \/ visit n = 0%Z ->
     search_iter default_exploration_weight 10 0%nat after_one_cycle
       = simulate_and_backpropagate 10 0%nat after_one_cycle).
Proof.
  apply (search_iter_expansion default_exploration_weight 10 0%nat after_one_cycle 0%nat after_one_cycle).
  reflexivity.
Defined.

Lemma move_to_spec_witness :
  exists w' n',
    move_to (PyNode 1%nat) after_two_cycles = (Done tt, w') /\
    root w' = 1%nat /\ env w' = env after_two_cycles /\
    heap w' !! 1%nat = Some n' /\
    parent n' = None /\
    visit n' = visit first_child /\ score n' = score first_child /\
    children n' = children first_child /\
    is_terminal n' = is_terminal first_child /\
    minmax_search n' = minmax_search first_child /\
    state n' = state first_child /\
    length (heap w') = length (heap after_two_cycles) /\
    forall l', l' <> 1%nat -> heap w' !! l' = heap after_two_cycles !! l'.
Proof.
  apply (move_to_spec 1%nat first_child after_two_cycles).
  exact after_two_cycles_child.
Defined.

Lemma score_bounded_by_visit_witness :
  (Rabs (score root_twice) <= IZR (visit root_twice))%R.
Proof.
  apply (score_bounded_by_visit default_exploration_weight after_two_cycles ttt_simulate_bounded
           after_two_cycles_reachable 0%nat root_twice).
  exact after_two_cycles_root.
Defined.

Lemma expanded_nodes_are_visited_witness :
  (1 <= visit root_twice)%Z.
Proof.
  apply (expanded_nodes_are_visited default_exploration_weight after_two_cycles
           after_two_cycles_reachable 0%nat root_twice).
  - exact after_two_cycles_root.
  - discriminate.
Defined.

(** ** Further properties of the engine *)
Section EngineFacts.
Context {State Env : Type} `{!Domain State Env} `{!Clock Env}.
Variable exploration_weight : R.
Implicit Types (h : list (node State)) (n : node State) (l : loc) (N : Z).
Implicit Types (w : world State Env).

(** *** [expand_node] *)

(** X1: [expand_node] on a node never fails.  The node's children become
    one newly built node per successor state, at the locations after the end
    of the old store and in the order of [expand]; each has the node as its
    parent and no visit, score or children of its own; whatever children the
    node had are dropped from its list.  The node turns terminal exactly
    when there is no successor; its statistics, its parent and every other
    node of the old store stay as they were. *)
Theorem expand_node_links w self n :
  heap w !! self = Some n ->
  exists w' n',
    expand_node self w = (Done tt, w') /\
    root w' = root w /\ env w' = env w /\
    length (heap w') = (length (heap w) + length (expand (state n)))%nat /\
    heap w' !! self = Some n' /\
    children n' = seq (length (heap w)) (length (expand (state n))) /\
    (expand (state n) = [] -> is_terminal n' = true) /\
    (expand (state n) <> [] -> is_terminal n' = is_terminal n) /\
    visit n' = visit n /\ score n' = score n /\ parent n' = parent n /\
    minmax_search n' = minmax_search n /\ state n' = state n /\
    (forall i st, expand (state n) !! i = Some st ->
       heap w' !! (length (heap w) + i)%nat =
         Some (Node 0 0 [] (init_terminal st) (Some self) (init_minmax st) st)) /\
    (forall l, l <> self -> (l < length (heap w))%nat ->
       heap w' !! l = heap w !! l).
Proof.
  intros Hself. assert (self < length (heap w))%nat as Hlt by (by eapply lookup_lt_Some).
  exists (set_heap (expanded_heap (heap w) self n) w).
  pose proof (expanded_heap_self _ _ _ Hself) as Hself'.
  eexists. split; [by apply expand_node_spec|].
  split; [done|]. split; [done|]. simpl.
  split.
  { unfold expanded_heap. destruct (expand (state n)) as [|st sts].
    - rewrite length_insert. simpl. lia.
    - by rewrite length_app, length_insert, length_map. }
  split; [exact Hself'|].
  split; [by destruct (expand (state n))|].
  split; [by intros ->|].
  split; [by destruct (expand (state n))|].
  split; [by destruct (expand (state n))|].
  split; [by destruct (expand (state n))|].
  split; [by destruct (expand (state n))|].
  split; [by destruct (expand (state n))|].
  split; [by destruct (expand (state n))|].
  split.
  - intros i st Hi. unfold expanded_heap.
    destruct (expand (state n)) as [|st0 sts] eqn:Hsts; [done|].
    rewrite lookup_app_r by (rewrite length_insert; lia).
    rewrite length_insert.
    replace (length (heap w) + i - length (heap w))%nat with i by lia.
    rewrite list_lookup_fmap, Hi. done.
  - intros l Hne Hl. unfold expanded_heap.
    destruct (expand (state n)) as [|st0 sts].
    + by apply list_lookup_insert_ne.
    + rewrite lookup_app_l by (by rewrite length_insert).
      by apply list_lookup_insert_ne.
Qed.

(** *** [move_to] on what is not a node *)

(** X2: [move_to] raises the [TypeError] for [None] as for any other value
    that is not a node, and leaves the tree as it is; the [ValueError] of
    its second test is never raised, since [None] fails the first. *)
Theorem move_to_errors w :
  move_to PyNone w =
    (Raise (TypeError "node must be an instance of MonteCarloTreeNode."), w) /\
  move_to PyOther w =
    (Raise (TypeError "node must be an instance of MonteCarloTreeNode."), w) /\
  forall v msg, fst (move_to v w) <> Raise (ValueError msg).
Proof.
  split; [done|]. split; [done|].
  intros [| l |] msg; try done.
  unfold move_to, bind, get_root, update, bind, get, deref. simpl.
  by destruct (heap w !! l).
Qed.

(** *** The route of [draw] *)

Lemma last_cons_default {A} (steps : list A) (a d : A) :
  List.last (a :: steps) d = List.last steps a.
Proof.
  revert a d. induction steps as [|b steps IH]; intros a d; [done|].
  change (List.last (a :: b :: steps) d) with (List.last (b :: steps) d).
  by rewrite !IH.
Qed.

(** X3: the loop of [draw] that collects [select_route] leaves the tree as
    it is, and walks the path the next search cycle descends: it ends on
    the node the descent of [search_iter] ends on, and fails where that
    descent fails. *)
Theorem select_route_descend fuel :
  forall curr route w out w',
    select_route exploration_weight fuel curr route w = (out, w') ->
    w' = w /\
    (forall rt, out = Done rt ->
       exists steps, rt = route ++ steps /\
         descend exploration_weight fuel curr w = (Done (List.last steps curr), w)) /\
    (forall e, out = Raise e ->
       descend exploration_weight fuel curr w = (Raise e, w)).
Proof.
  induction fuel as [|fuel IH]; intros curr route w out w' Hrun.
  - simpl in Hrun. injection Hrun as <- <-. split_and!; [done|by intros ? [=]|by intros ? [= <-]].
  - rewrite descend_step. simpl in Hrun.
    unfold bind, get, get_root, select_from, deref in Hrun.
    destruct (heap w !! curr) as [n|];
      [|injection Hrun as <- <-; split_and!; [done|by intros ? [=]|by intros ? [= <-]]].
    destruct (0 <? length (children n))%nat.
    + destruct (heap w !! root w) as [rn|];
        [|injection Hrun as <- <-; split_and!; [done|by intros ? [=]|by intros ? [= <-]]].
      destruct (select exploration_weight (heap w) curr (visit rn)) as [next|e];
        [|injection Hrun as <- <-; split_and!; [done|by intros ? [=]|by intros ? [= <-]]].
      destruct (IH _ _ _ _ _ Hrun) as (-> & Hdone & Hraise).
      split_and!; [done| |done].
      intros rt Hrt. destruct (Hdone rt Hrt) as (steps & -> & Hdesc).
      exists (next :: steps). split; [by rewrite <- app_assoc|].
      rewrite Hdesc. by rewrite last_cons_default.
    + injection Hrun as <- <-. split_and!; [done| |by intros ? [=]].
      intros rt [= <-]. exists []. by rewrite app_nil_r.
Qed.
End EngineFacts.

(** ** What every search cycle keeps *)
Section CycleFacts.
Context {State Env : Type} `{!Domain State Env} `{!Clock Env}.
Variable exploration_weight : R.
Implicit Types (h : list (node State)) (n : node State) (l r : loc).
Implicit Types (w : world State Env).

Lemma descend_fuel fuel curr w l w' :
  descend exploration_weight fuel curr w = (Done l, w') -> exists fuel', fuel = S fuel'.
Proof. destruct fuel; [done|eauto]. Qed.

Lemma expanded_heap_length h l n :
  length (expanded_heap h l n) = (length h + length (expand (state n)))%nat.
Proof.
  unfold expanded_heap. destruct (expand (state n)) as [|st sts].
  - rewrite length_insert. simpl. lia.
  - by rewrite length_app, length_insert, length_map.
Qed.

Lemma expanded_heap_old h self n l :
  l <> self -> (l < length h)%nat -> expanded_heap h self n !! l = h !! l.
Proof.
  intros Hne Hl. unfold expanded_heap. destruct (expand (state n)) as [|st sts].
  - by apply list_lookup_insert_ne.
  - rewrite lookup_app_l by (by rewrite length_insert).
    by apply list_lookup_insert_ne.
Qed.

Lemma expanded_heap_new h self n i st :
  expand (state n) !! i = Some st ->
  expanded_heap h self n !! (length h + i)%nat
    = Some (set_parent (Some self) (new_node st)).
Proof.
  intros Hi. unfold expanded_heap.
  destruct (expand (state n)) as [|st0 sts] eqn:Hsts; [done|].
  rewrite lookup_app_r by (rewrite length_insert; lia).
  rewrite length_insert.
  replace (length h + i - length h)%nat with i by lia.
  by rewrite list_lookup_fmap, Hi.
Qed.

(** A property [J] of the store that a backpropagation step keeps, that the
    expansion of a visited leaf without successors keeps, and that holds
    again once the first child of an expanded leaf has had its first
    backpropagation step. *)
Section Keeps.
Variable J : list (node State) -> Prop.
Hypothesis J_bump : forall h l n x,
  J h -> h !! l = Some n -> J (<[l := bumped x n]> h).
Hypothesis J_leaf : forall h l n,
  J h -> h !! l = Some n -> children n = [] -> is_terminal n = false ->
  visit n <> 0%Z -> expand (state n) = [] -> J (expanded_heap h l n).
Hypothesis J_grow : forall h l n st sts x,
  J h -> h !! l = Some n -> children n = [] -> is_terminal n = false ->
  visit n <> 0%Z -> expand (state n) = st :: sts ->
  J (<[length h := bumped x (set_parent (Some l) (new_node st))]>
       (expanded_heap h l n)).

Lemma backpropagate_keeps depth :
  forall l x w out w',
    J (heap w) -> backpropagate depth l x w = (out, w') ->
    J (heap w') /\ root w' = root w /\ env w' = env w.
Proof.
  induction depth as [|depth IH]; intros l x w out w' Hinv Hrun.
  - by injection Hrun as <- <-.
  - rewrite backpropagate_step in Hrun.
    destruct (heap w !! l) as [n|] eqn:Hl; [|by injection Hrun as <- <-].
    simpl in Hrun. destruct (parent n) as [p|].
    + apply IH in Hrun; [done|]. simpl. by apply J_bump.
    + injection Hrun as <- <-. split; [|done]. simpl. by apply J_bump.
Qed.

Lemma simulate_and_backpropagate_keeps fuel c w out w' :
  J (heap w) -> simulate_and_backpropagate fuel c w = (out, w') ->
  J (heap w') /\ root w' = root w.
Proof.
  intros Hinv Hrun. unfold simulate_and_backpropagate, run_simulate in Hrun.
  unfold bind at 1 2 in Hrun. unfold get in Hrun.
  destruct (deref (heap w) c) as [n|e]; [|by injection Hrun as <- <-].
  destruct (simulate (state n) (env w)) as [x e'].
  unfold bind in Hrun.
  destruct (backpropagate fuel c x (set_env e' w)) as [out1 w1] eqn:Hbp.
  apply backpropagate_keeps in Hbp as (? & ? & ?); [|done].
  destruct out1; by injection Hrun as <- <-.
Qed.

Lemma search_iter_keeps fuel curr w out w' :
  J (heap w) ->
  search_iter exploration_weight fuel curr w = (out, w') ->
  J (heap w') /\ root w' = root w.
Proof.
  intros Hinv Hrun. rewrite search_iter_unfold in Hrun.
  destruct (descend exploration_weight fuel curr w) as [out1 w1] eqn:Hdesc.
  destruct (descend_outcome _ _ _ _ _ _ Hdesc) as [-> Hleaf].
  destruct out1 as [l|e]; [|by injection Hrun as <- <-].
  destruct (descend_fuel _ _ _ _ _ Hdesc) as [fuel' ->].
  destruct (Hleaf l eq_refl) as (n & Hl & Hcs).
  assert (l < length (heap w))%nat as Hlt by (by eapply lookup_lt_Some).
  destruct (is_terminal n) eqn:Hterm.
  { rewrite (expand_step_skip _ _ _ Hl) in Hrun by auto.
    by eapply simulate_and_backpropagate_keeps. }
  destruct (decide (visit n = 0%Z)) as [Hvisit|Hvisit].
  { rewrite (expand_step_skip _ _ _ Hl) in Hrun by auto.
    by eapply simulate_and_backpropagate_keeps. }
  rewrite (expand_step_expand _ _ _ Hl Hterm Hvisit) in Hrun.
  destruct (expand (state n)) as [|st sts] eqn:Hsts.
  { apply simulate_and_backpropagate_keeps in Hrun; [done|].
    simpl. by apply J_leaf. }
  set (w2 := set_heap (expanded_heap (heap w) l n) w) in Hrun.
  assert (heap w2 !! length (heap w) = Some (set_parent (Some l) (new_node st)))
    as Hc.
  { pose proof (expanded_heap_new (heap w) l n 0 st) as Hnew.
    rewrite Nat.add_0_r in Hnew. apply Hnew. by rewrite Hsts. }
  unfold simulate_and_backpropagate, run_simulate in Hrun.
  unfold bind at 1 2 in Hrun. rewrite (get_Some _ _ _ Hc) in Hrun.
  destruct (simulate _ _) as [x e']. unfold bind in Hrun.
  rewrite backpropagate_step in Hrun.
  change (heap (set_env e' w2)) with (heap w2) in Hrun. rewrite Hc in Hrun.
  simpl in Hrun.
  destruct (backpropagate fuel' l _ _) as [out1 w3] eqn:Hbp.
  apply backpropagate_keeps in Hbp as (? & ? & ?).
  - destruct out1; by injection Hrun as <- <-.
  - simpl. by apply (J_grow _ _ _ _ sts).
Qed.
End Keeps.

(** *** A cycle only adds to the tree *)

Lemma node_grows_refl n : node_grows n n.
Proof. unfold node_grows. split_and!; [lia|done..]. Qed.

Lemma node_grows_trans n1 n2 n3 :
  node_grows n1 n2 -> node_grows n2 n3 -> node_grows n1 n3.
Proof.
  intros (Hv1 & Hc1 & Ht1 & Hp1 & Hm1 & Hs1) (Hv2 & Hc2 & Ht2 & Hp2 & Hm2 & Hs2).
  unfold node_grows. split_and!; try congruence; [lia| |auto].
  intros Hne. rewrite Hc2; [auto|]. by rewrite Hc1.
Qed.

Lemma evolves_refl h : evolves h h.
Proof. split; [done|]. intros l n Hl. exists n. split; [done|apply node_grows_refl]. Qed.

Lemma evolves_insert h0 h l n n' :
  evolves h0 h -> h !! l = Some n -> node_grows n n' ->
  evolves h0 (<[l := n']> h).
Proof.
  intros [Hlen Hev] Hl Hgrow. split; [by rewrite length_insert|].
  intros a na Ha. destruct (Hev a na Ha) as (na' & Ha' & Hg).
  destruct (decide (a = l)) as [->|Hne].
  - exists n'. split; [apply list_lookup_insert_eq; by eapply lookup_lt_Some|].
    rewrite Hl in Ha'. injection Ha' as <-. by eapply node_grows_trans.
  - exists na'. split; [by rewrite list_lookup_insert_ne|done].
Qed.

Lemma evolves_expanded h0 h l n :
  evolves h0 h -> h !! l = Some n -> children n = [] -> is_terminal n = false ->
  evolves h0 (expanded_heap h l n).
Proof.
  intros [Hlen Hev] Hl Hcs Hterm. split; [rewrite expanded_heap_length; lia|].
  intros a na Ha. destruct (Hev a na Ha) as (na' & Ha' & Hg).
  assert (a < length h)%nat as Hlt by (by eapply lookup_lt_Some).
  destruct (decide (a = l)) as [->|Hne].
  - rewrite Hl in Ha'. injection Ha' as <-.
    eexists. split; [by apply expanded_heap_self|].
    eapply node_grows_trans; [exact Hg|].
    unfold node_grows. rewrite Hcs, Hterm.
    by destruct (expand (state n)); simpl; split_and!; try done; try lia.
  - exists na'. split; [by rewrite expanded_heap_old|done].
Qed.

Lemma bumped_grows x n : node_grows n (bumped x n).
Proof. unfold node_grows. simpl. split_and!; [lia|done..]. Qed.

Lemma evolves_trans h1 h2 h3 : evolves h1 h2 -> evolves h2 h3 -> evolves h1 h3.
Proof.
  intros [Hlen1 Hev1] [Hlen2 Hev2]. split; [lia|].
  intros l n Hl. destruct (Hev1 l n Hl) as (n2 & Hl2 & Hg1).
  destruct (Hev2 l n2 Hl2) as (n3 & Hl3 & Hg2). exists n3.
  split; [done|]. by eapply node_grows_trans.
Qed.

Lemma search_iter_evolves fuel curr w out w' :
  search_iter exploration_weight fuel curr w = (out, w') ->
  evolves (heap w) (heap w') /\ root w' = root w.
Proof.
  intros Hrun.
  apply (search_iter_keeps (evolves (heap w))) with (5 := Hrun).
  - intros h l n x Hev Hl. eapply evolves_insert; [done..|]. apply bumped_grows.
  - intros h l n Hev Hl Hcs Hterm _ _. by apply evolves_expanded.
  - intros h l n st sts x Hev Hl Hcs Hterm _ Hsts.
    eapply evolves_insert; [by apply evolves_expanded| |apply bumped_grows].
    pose proof (expanded_heap_new h l n 0 st) as Hnew.
    rewrite Nat.add_0_r in Hnew. apply Hnew. by rewrite Hsts.
  - apply evolves_refl.
Qed.

(** X4: whatever its outcome, a search cycle leaves the root of the tree
    where it is and only adds to the store: no node is removed, no visit
    count decreases, a children list that is not empty is never replaced,
    a terminal node stays terminal, and no node changes its parent, its
    flag or its domain state. *)
Theorem search_iter_monotone fuel curr w :
  let w' := snd (search_iter exploration_weight fuel curr w) in
  root w' = root w /\
  (length (heap w) <= length (heap w'))%nat /\
  forall l n, heap w !! l = Some n ->
    exists n', heap w' !! l = Some n' /\
      (visit n <= visit n')%Z /\
      (children n <> [] -> children n' = children n) /\
      (is_terminal n = true -> is_terminal n' = true) /\
      parent n' = parent n /\ minmax_search n' = minmax_search n /\
      state n' = state n.
Proof.
  intros w'.
  destruct (search_iter exploration_weight fuel curr w) as [out w1] eqn:Hrun.
  subst w'. simpl.
  by destruct (search_iter_evolves _ _ _ _ _ Hrun) as [[Hlen Hev] Hroot].
Qed.

(** *** The tree keeps its shape *)

Lemma in_tree_insert h r l n n' x :
  h !! l = Some n -> children n' = children n ->
  in_tree (<[l := n']> h) r x <-> in_tree h r x.
Proof.
  intros Hl Hcs. assert (l < length h)%nat as Hlt by (by eapply lookup_lt_Some).
  split; induction 1 as [|p np c _ IH Hp Hc]; try apply in_tree_root.
  - destruct (decide (p = l)) as [->|Hne].
    + rewrite list_lookup_insert_eq in Hp by done. injection Hp as <-.
      apply (in_tree_child _ _ l n); [done..|]. by rewrite <- Hcs.
    + rewrite list_lookup_insert_ne in Hp by done.
      by apply (in_tree_child _ _ p np).
  - destruct (decide (p = l)) as [->|Hne].
    + rewrite Hl in Hp. injection Hp as <-.
      apply (in_tree_child _ _ l n'); [done| |by rewrite Hcs].
      by apply list_lookup_insert_eq.
    + apply (in_tree_child _ _ p np); [done| |done].
      by rewrite list_lookup_insert_ne.
Qed.

(** Rewriting a node without touching its links keeps the shape. *)
Lemma tree_shape_insert h r l n n' :
  tree_shape h r -> h !! l = Some n ->
  children n' = children n -> parent n' = parent n ->
  tree_shape (<[l := n']> h) r.
Proof.
  intros [Hroot Hchild] Hl Hcs Hp.
  assert (l < length h)%nat as Hlt by (by eapply lookup_lt_Some).
  assert (forall a na, h !! a = Some na ->
    exists na', <[l := n']> h !! a = Some na' /\
      children na' = children na /\ parent na' = parent na) as Hsame.
  { intros a na Ha. destruct (decide (a = l)) as [->|Hne].
    - exists n'. rewrite Hl in Ha. injection Ha as <-.
      split; [by apply list_lookup_insert_eq|done].
    - exists na. split; [by rewrite list_lookup_insert_ne|done]. }
  split.
  - destruct Hroot as (nr & Hr & Hpr).
    destruct (Hsame r nr Hr) as (nr' & Hr' & _ & Hpr'). exists nr'.
    split; [done|congruence].
  - intros p np c Hin Hp' Hc.
    apply (in_tree_insert _ _ _ _ _ _ Hl Hcs) in Hin.
    assert (exists np0, h !! p = Some np0 /\ children np0 = children np)
      as (np0 & Hp0 & Hcs0).
    { destruct (decide (p = l)) as [->|Hne].
      - rewrite list_lookup_insert_eq in Hp' by done. injection Hp' as <-.
        by exists n.
      - rewrite list_lookup_insert_ne in Hp' by done. by exists np. }
    rewrite <- Hcs0 in Hc.
    destruct (Hchild p np0 c Hin Hp0 Hc) as (Hlt' & nc & Hnc & Hpc).
    split; [done|]. destruct (Hsame c nc Hnc) as (nc' & Hnc' & _ & Hpc').
    exists nc'. split; [done|congruence].
Qed.

Lemma in_tree_allocated h r l :
  tree_shape h r -> in_tree h r l -> is_Some (h !! l).
Proof.
  intros [Hroot Hchild]. destruct 1 as [|p np c Hin Hp Hc].
  - destruct Hroot as (nr & Hr & _). by exists nr.
  - destruct (Hchild p np c Hin Hp Hc) as (_ & nc & Hnc & _). by exists nc.
Qed.

Lemma expanded_heap_fresh h self n l nl :
  (length h <= l)%nat -> expanded_heap h self n !! l = Some nl ->
  children nl = [] /\ visit nl = 0%Z /\ parent nl = Some self.
Proof.
  intros Hl Hnl. unfold expanded_heap in Hnl.
  destruct (expand (state n)) as [|st sts].
  - apply lookup_lt_Some in Hnl. rewrite length_insert in Hnl. lia.
  - rewrite lookup_app_r in Hnl by (rewrite length_insert; lia).
    rewrite list_lookup_fmap in Hnl.
    destruct (_ !! _) as [st'|]; [|done]. by injection Hnl as <-.
Qed.

Lemma in_tree_expanded h r l n x :
  tree_shape h r -> h !! l = Some n -> children n = [] ->
  in_tree (expanded_heap h l n) r x ->
  in_tree h r x \/ (length h <= x)%nat.
Proof.
  intros Hshape Hl Hcs. induction 1 as [|p np c _ IH Hp Hc].
  - left. apply in_tree_root.
  - destruct IH as [Hin|Hnew].
    + destruct (in_tree_allocated _ _ _ Hshape Hin) as [np0 Hp0].
      assert (p < length h)%nat as Hlt by (by eapply lookup_lt_Some).
      destruct (decide (p = l)) as [->|Hne].
      * rewrite (expanded_heap_self _ _ _ Hl) in Hp. injection Hp as <-.
        right. destruct (expand (state n)) as [|st sts].
        -- by apply elem_of_nil in Hc.
        -- change (c ∈ seq (length h) (length (st :: sts))) in Hc.
           apply elem_of_seq in Hc. lia.
      * rewrite expanded_heap_old in Hp by done. left.
        by apply (in_tree_child _ _ p np).
    + destruct (expanded_heap_fresh _ _ _ _ _ Hnew Hp) as (Hnil & _).
      rewrite Hnil in Hc. by apply elem_of_nil in Hc.
Qed.

Lemma tree_shape_expanded h r l n :
  tree_shape h r -> h !! l = Some n -> children n = [] ->
  tree_shape (expanded_heap h l n) r.
Proof.
  intros Hshape Hl Hcs. pose proof Hshape as [Hroot Hchild].
  assert (l < length h)%nat as Hlt by (by eapply lookup_lt_Some).
  assert (forall a na, h !! a = Some na ->
    exists na', expanded_heap h l n !! a = Some na' /\ parent na' = parent na)
    as Hsame.
  { intros a na Ha. destruct (decide (a = l)) as [->|Hne].
    - rewrite Hl in Ha. injection Ha as <-. eexists.
      split; [by apply expanded_heap_self|]. by destruct (expand (state n)).
    - exists na. split; [|done]. rewrite expanded_heap_old; [done..|].
      by eapply lookup_lt_Some. }
  split.
  - destruct Hroot as (nr & Hr & Hpr).
    destruct (Hsame r nr Hr) as (nr' & Hr' & Hpr'). exists nr'.
    split; [done|congruence].
  - intros p np c Hin Hp Hc.
    destruct (in_tree_expanded _ _ _ _ _ Hshape Hl Hcs Hin) as [Hold|Hnew].
    + destruct (in_tree_allocated _ _ _ Hshape Hold) as [np0 Hp0].
      assert (p < length h)%nat as Hltp by (by eapply lookup_lt_Some).
      destruct (decide (p = l)) as [->|Hne].
      * rewrite (expanded_heap_self _ _ _ Hl) in Hp. injection Hp as <-.
        destruct (expand (state n)) as [|st sts] eqn:Hsts.
        { by apply elem_of_nil in Hc. }
        change (c ∈ seq (length h) (length (st :: sts))) in Hc.
        apply elem_of_seq in Hc as [Hge Hlt'].
        split; [lia|].
        destruct (lookup_lt_is_Some_2 (st :: sts) (c - length h)) as [stc Hstc];
          [simpl in *; lia|].
        rewrite <- Hsts in Hstc.
        apply (expanded_heap_new h l n) in Hstc.
        replace (length h + (c - length h))%nat with c in Hstc by lia.
        eexists. split; [exact Hstc|done].
      * rewrite expanded_heap_old in Hp by done.
        destruct (Hchild p np c Hold Hp Hc) as (Hlt' & nc & Hnc & Hpc).
        split; [done|]. destruct (Hsame c nc Hnc) as (nc' & Hnc' & Hpc').
        exists nc'. split; [done|congruence].
    + destruct (expanded_heap_fresh _ _ _ _ _ Hnew Hp) as (Hnil & _).
      rewrite Hnil in Hc. by apply elem_of_nil in Hc.
Qed.

Lemma visits_sound_insert h l n n' :
  visits_sound h -> h !! l = Some n ->
  children n' = children n -> (visit n <= visit n')%Z ->
  visits_sound (<[l := n']> h).
Proof.
  intros Hvs Hl Hcs Hv. assert (l < length h)%nat as Hlt by (by eapply lookup_lt_Some).
  assert (forall c nc, h !! c = Some nc -> (1 <= visit nc)%Z ->
    exists nc', <[l := n']> h !! c = Some nc' /\ (1 <= visit nc')%Z) as Hchild.
  { intros c nc Hc Hvc. destruct (decide (c = l)) as [->|Hne].
    - exists n'. split; [by apply list_lookup_insert_eq|].
      rewrite Hl in Hc. injection Hc as <-. lia.
    - exists nc. split; [by rewrite list_lookup_insert_ne|done]. }
  intros a na Ha. destruct (decide (a = l)) as [->|Hne].
  - rewrite list_lookup_insert_eq in Ha by done. injection Ha as <-.
    destruct (Hvs l n Hl) as [Hpos Hexp]. split; [lia|].
    intros c cs Hc. rewrite Hcs in Hc.
    destruct (Hexp c cs Hc) as (Hv1 & nc & Hnc & Hvc). split; [lia|].
    by apply (Hchild c nc).
  - rewrite list_lookup_insert_ne in Ha by done.
    destruct (Hvs a na Ha) as [Hpos Hexp]. split; [done|].
    intros c cs Hc. destruct (Hexp c cs Hc) as (Hv1 & nc & Hnc & Hvc).
    split; [done|]. by apply (Hchild c nc).
Qed.

Lemma visits_sound_grow h l n st sts x :
  visits_sound h -> h !! l = Some n -> visit n <> 0%Z ->
  expand (state n) = st :: sts ->
  visits_sound (<[length h := bumped x (set_parent (Some l) (new_node st))]>
                  (expanded_heap h l n)).
Proof.
  intros Hvs Hl Hvisit Hsts.
  assert (l < length h)%nat as Hlt by (by eapply lookup_lt_Some).
  set (h' := expanded_heap h l n).
  assert (length h < length h')%nat as Hlen.
  { subst h'. rewrite expanded_heap_length, Hsts. simpl. lia. }
  assert (forall c nc, h !! c = Some nc -> (1 <= visit nc)%Z ->
    exists nc', <[length h := bumped x (set_parent (Some l) (new_node st))]> h' !! c
                = Some nc' /\ (1 <= visit nc')%Z) as Hchild.
  { intros c nc Hc Hvc.
    assert (c < length h)%nat as Hltc by (by eapply lookup_lt_Some).
    rewrite list_lookup_insert_ne by lia.
    destruct (decide (c = l)) as [->|Hne].
    - subst h'. rewrite (expanded_heap_self _ _ _ Hl), Hsts.
      eexists. split; [done|]. simpl. rewrite Hl in Hc. by injection Hc as <-.
    - subst h'. rewrite expanded_heap_old by done. by exists nc. }
  intros a na Ha. destruct (decide (a = length h)) as [->|Hne].
  { rewrite list_lookup_insert_eq in Ha by done. injection Ha as <-.
    simpl. split; [lia|done]. }
  rewrite list_lookup_insert_ne in Ha by done.
  destruct (decide (length h <= a)%nat) as [Hnew|Hold].
  { destruct (expanded_heap_fresh _ _ _ _ _ Hnew Ha) as (Hnil & Hv0 & _).
    rewrite Hnil, Hv0. split; [lia|done]. }
  destruct (decide (a = l)) as [->|Hnel].
  - subst h'. rewrite (expanded_heap_self _ _ _ Hl), Hsts in Ha.
    injection Ha as <-. destruct (Hvs l n Hl) as [Hpos _]. simpl.
    split; [done|]. intros c cs [= <- _]. split; [lia|].
    eexists. split; [by apply list_lookup_insert_eq|]. simpl. lia.
  - subst h'. rewrite expanded_heap_old in Ha; [|done|lia].
    destruct (Hvs a na Ha) as [Hpos Hexp]. split; [done|].
    intros c cs Hc. destruct (Hexp c cs Hc) as (Hv1 & nc & Hnc & Hvc).
    split; [done|]. by apply (Hchild c nc).
Qed.

Lemma sound_bump h r l n x :
  sound h r -> h !! l = Some n -> sound (<[l := bumped x n]> h) r.
Proof.
  intros [Hshape Hvs] Hl. split.
  - by apply (tree_shape_insert _ _ _ n).
  - apply (visits_sound_insert _ _ n); [done..|simpl; lia].
Qed.

Lemma sound_leaf h r l n :
  sound h r -> h !! l = Some n -> children n = [] -> expand (state n) = [] ->
  sound (expanded_heap h l n) r.
Proof.
  intros [Hshape Hvs] Hl Hcs Hsts. split; [by apply tree_shape_expanded|].
  unfold expanded_heap. rewrite Hsts.
  by apply (visits_sound_insert _ _ n).
Qed.

Lemma sound_grow h r l n st sts x :
  sound h r -> h !! l = Some n -> children n = [] -> visit n <> 0%Z ->
  expand (state n) = st :: sts ->
  sound (<[length h := bumped x (set_parent (Some l) (new_node st))]>
           (expanded_heap h l n)) r.
Proof.
  intros [Hshape Hvs] Hl Hcs Hvisit Hsts. split; [|by eapply visits_sound_grow].
  apply (tree_shape_insert _ _ _ (set_parent (Some l) (new_node st)));
    [by apply tree_shape_expanded| |done..].
  pose proof (expanded_heap_new h l n 0 st) as Hnew.
  rewrite Nat.add_0_r in Hnew. apply Hnew. by rewrite Hsts.
Qed.

Lemma search_iter_sound fuel curr w out w' r :
  sound (heap w) r ->
  search_iter exploration_weight fuel curr w = (out, w') ->
  sound (heap w') r /\ root w' = root w.
Proof.
  intros Hsound Hrun.
  apply (search_iter_keeps (fun h => sound h r)) with (5 := Hrun); [| | |done].
  - intros h l n x. apply sound_bump.
  - intros h l n Hs Hl Hcs _ _ Hsts. by apply sound_leaf.
  - intros h l n st sts x Hs Hl Hcs _ Hvisit Hsts. by eapply sound_grow.
Qed.

Lemma in_tree_trans h r a b : in_tree h r a -> in_tree h a b -> in_tree h r b.
Proof.
  intros Ha. induction 1 as [|p np c _ IH Hp Hc]; [done|].
  by apply (in_tree_child _ _ p np).
Qed.

Lemma in_tree_ge h r a b :
  tree_shape h r -> in_tree h r a -> in_tree h a b -> (a <= b)%nat.
Proof.
  intros [_ Hchild] Ha. induction 1 as [|p np c Hin IH Hp Hc]; [done|].
  destruct (Hchild p np c (in_tree_trans _ _ _ _ Ha Hin) Hp Hc) as [Hlt _]. lia.
Qed.

(** [move_to] on a child of the root keeps the shape, under the new root. *)
Lemma sound_move h r n c :
  sound h r -> h !! r = Some n -> c ∈ children n ->
  exists nc, h !! c = Some nc /\ sound (<[c := set_parent None nc]> h) c.
Proof.
  intros [Hshape Hvs] Hr Hc. pose proof Hshape as [_ Hchild].
  destruct (Hchild r n c (in_tree_root _ _) Hr Hc) as (Hlt & nc & Hnc & Hpc).
  exists nc. split; [done|].
  assert (c < length h)%nat as Hltc by (by eapply lookup_lt_Some).
  assert (in_tree h r c) as Hinc
    by (apply (in_tree_child _ _ r n); [apply in_tree_root|done..]).
  split; [|apply (visits_sound_insert _ _ nc); [done..|simpl; lia]].
  split.
  - exists (set_parent None nc). split; [by apply list_lookup_insert_eq|done].
  - intros p np c' Hin Hp Hc'.
    apply (in_tree_insert _ _ _ nc) in Hin; [|done..].
    pose proof (in_tree_ge _ _ _ _ Hshape Hinc Hin) as Hge.
    assert (exists np0, h !! p = Some np0 /\ children np0 = children np)
      as (np0 & Hp0 & Hcs0).
    { destruct (decide (p = c)) as [->|Hne].
      - rewrite list_lookup_insert_eq in Hp by done. injection Hp as <-.
        by exists nc.
      - rewrite list_lookup_insert_ne in Hp by done. by exists np. }
    rewrite <- Hcs0 in Hc'.
    destruct (Hchild p np0 c' (in_tree_trans _ _ _ _ Hinc Hin) Hp0 Hc')
      as (Hlt' & nc' & Hnc' & Hpc').
    split; [done|]. exists nc'. split; [|done].
    rewrite list_lookup_insert_ne by lia. done.
Qed.

(** A node built outside the tree is a tree of its own. *)
Lemma sound_new_root h r st :
  sound h r ->
  sound (<[length h := set_parent None (new_node st)]> (h ++ [new_node st]))
        (length h).
Proof.
  intros [_ Hvs].
  assert (<[length h := set_parent None (new_node st)]> (h ++ [new_node st])
          = h ++ [new_node st]) as ->.
  { apply list_insert_id. by apply list_lookup_middle. }
  split.
  - split.
    + exists (new_node st). split; [by apply list_lookup_middle|done].
    + assert (forall p, in_tree (h ++ [new_node st]) (length h) p -> p = length h)
        as Honly.
      { induction 1 as [|p np c _ IH Hp Hc]; [done|]. subst p.
        rewrite list_lookup_middle in Hp by done. injection Hp as <-.
        by apply elem_of_nil in Hc. }
      intros p np c Hin Hp Hc. apply Honly in Hin as ->.
      rewrite list_lookup_middle in Hp by done. injection Hp as <-.
      by apply elem_of_nil in Hc.
  - intros a na Ha. apply lookup_app_Some in Ha as [Ha|[Hge Ha]].
    + destruct (Hvs a na Ha) as [Hpos Hexp]. split; [done|].
      intros c cs Hc. destruct (Hexp c cs Hc) as (Hv1 & nc & Hnc & Hvc).
      split; [done|]. exists nc. split; [by apply lookup_app_l_Some|done].
    + apply list_lookup_singleton_Some in Ha as [_ <-]. simpl. split; [lia|done].
Qed.

Lemma move_to_node_run w c nc :
  heap w !! c = Some nc ->
  move_to (PyNode c) w
    = (Done tt, set_heap (<[c := set_parent None nc]> (heap w)) (set_root c w)).
Proof.
  intros Hc. unfold move_to, bind, get_root. simpl.
  by rewrite (update_Some (set_root c w) c nc).
Qed.

Lemma move_to_new_run w st :
  move_to_new st w
    = (Done tt,
       World (<[length (heap w) := set_parent None (new_node st)]>
                (heap w ++ [new_node st]))
             (length (heap w)) (env w)).
Proof.
  unfold move_to_new, bind, alloc.
  erewrite move_to_node_run by (simpl; by apply list_lookup_middle).
  done.
Qed.

Lemma in_session_sound w :
  in_session exploration_weight w -> sound (heap w) (root w).
Proof.
  induction 1 as [st e|w fuel out w' _ IH Hrun|w n c out w' _ IH Hr Hc Hrun
                  |w st out w' _ IH Hrun].
  - split.
    + split.
      * exists (new_node st). done.
      * intros p np c Hin Hp Hc.
        destruct p; [|done]. injection Hp as <-. by apply elem_of_nil in Hc.
    + intros [|a] na Ha; [|done]. injection Ha as <-. simpl. split; [lia|done].
  - destruct (search_iter_sound _ _ _ _ _ _ IH Hrun) as [Hsound ->]. done.
  - destruct (sound_move _ _ _ _ IH Hr Hc) as (nc & Hnc & Hsound).
    rewrite (move_to_node_run _ _ _ Hnc) in Hrun. by injection Hrun as <- <-.
  - rewrite move_to_new_run in Hrun. injection Hrun as <- <-. simpl.
    by apply (sound_new_root _ (root w)).
Qed.

(** X5: at every point of a session (search cycles, whatever their outcome,
    and re-rootings on a child of the root or on a newly built node) the
    nodes under the root form a tree: the root has no parent; every child of
    a node of the tree is an existing object, built after that node, whose
    parent is that node.  No visit count is negative, and a node with
    children has been visited, as has its first child. *)
Theorem session_sound w :
  in_session exploration_weight w ->
  (exists n, heap w !! root w = Some n /\ parent n = None) /\
  (forall p n c, in_tree (heap w) (root w) p -> heap w !! p = Some n ->
     c ∈ children n ->
     (p < c)%nat /\ exists nc, heap w !! c = Some nc /\ parent nc = Some p) /\
  (forall l n, heap w !! l = Some n ->
     (0 <= visit n)%Z /\
     forall c cs, children n = c :: cs ->
       (1 <= visit n)%Z /\ exists nc, heap w !! c = Some nc /\ (1 <= visit nc)%Z).
Proof.
  intros Hs. by destruct (in_session_sound w Hs) as [[Hroot Hchild] Hvs].
Qed.

(** *** A cycle runs to its end *)

Lemma sound_allocated h r l n :
  sound h r -> in_tree h r l -> h !! l = Some n -> allocated h (children n).
Proof.
  intros [[_ Hchild] _] Hin Hl. apply Forall_forall. intros c Hc.
  apply list_elem_of_In in Hc.
  destruct (Hchild l n c Hin Hl Hc) as (_ & nc & Hnc & _). by exists nc.
Qed.

Lemma select_child h self n N :
  (1 <= N)%Z -> h !! self = Some n -> children n <> [] ->
  allocated h (children n) ->
  exists c, select exploration_weight h self N = Done c /\ c ∈ children n.
Proof.
  intros HN Hself Hne Hall. unfold select. rewrite (deref_Some _ _ _ Hself).
  destruct (children n) as [|c0 rest] eqn:Hcs; [done|].
  pose proof Hall as Hall0. apply Forall_cons_1 in Hall0 as [[n0 Hn0] _].
  rewrite (deref_Some _ _ _ Hn0).
  destruct (first_unvisited h (c0 :: rest) Hall)
    as [(i & c & cn & Hi & Hc & Hv & Hbefore)|Hvis].
  - exists c. split; [|by eapply list_elem_of_lookup_2].
    assert (exists u0, ucb1 exploration_weight n0 N = Done u0) as [u0 ->].
    { destruct (decide (visit n0 = 0%Z)) as [Hv0|Hv0].
      - exists Inf. by apply ucb1_unvisited.
      - eexists. by apply ucb1_visited. }
    by apply (select_loop_unvisited _ h N (c0 :: rest) i c cn).
  - pose proof Hvis as Hvis0. apply Forall_cons_1 in Hvis0 as [(n0' & Hn0' & Hv0) _].
    rewrite Hn0 in Hn0'. injection Hn0' as <-.
    rewrite (ucb1_visited _ _ _ Hv0 HN).
    destruct (select_loop_visited exploration_weight h N (c0 :: rest) c0
                (ucb_value exploration_weight n0 N) HN Hvis)
      as (c & Hr & [[-> _]|(i & nr & Hi & _)]).
    + exists c0. split; [done|]. apply elem_of_cons. by left.
    + exists c. split; [done|]. by eapply list_elem_of_lookup_2.
Qed.

Lemma descend_total w rn :
  sound (heap w) (root w) ->
  heap w !! root w = Some rn -> (1 <= visit rn)%Z ->
  forall fuel curr,
    in_tree (heap w) (root w) curr ->
    (length (heap w) - curr < fuel)%nat ->
    exists l n, descend exploration_weight fuel curr w = (Done l, w) /\
      in_tree (heap w) (root w) l /\ heap w !! l = Some n /\ children n = [].
Proof.
  intros Hsound Hroot Hvisit. induction fuel as [|fuel IH]; intros curr Hin Hfuel.
  { lia. }
  destruct (in_tree_allocated _ _ _ (proj1 Hsound) Hin) as [n Hcurr].
  rewrite descend_step, Hcurr.
  destruct (children n) as [|c0 cs] eqn:Hcs.
  { exists curr, n. done. }
  change (0 <? length (c0 :: cs))%nat with true. cbv iota. rewrite Hroot.
  destruct (select_child (heap w) curr n (visit rn)) as (c & -> & Hc);
    [done|done|by rewrite Hcs|by eapply sound_allocated|].
  pose proof (proj1 Hsound) as [_ Hchild].
  destruct (Hchild curr n c Hin Hcurr Hc) as (Hlt & nc & Hnc & _).
  apply lookup_lt_Some in Hnc.
  apply IH; [by apply (in_tree_child _ _ curr n)|lia].
Qed.

Lemma descend_from_root w fuel :
  sound (heap w) (root w) ->
  (length (heap w) - root w < fuel)%nat ->
  exists l n, descend exploration_weight fuel (root w) w = (Done l, w) /\
    in_tree (heap w) (root w) l /\ heap w !! l = Some n /\ children n = [].
Proof.
  intros Hsound Hfuel.
  destruct (proj1 Hsound) as [(rn & Hroot & _) _].
  destruct (children rn) as [|c cs] eqn:Hcs.
  - destruct fuel as [|fuel]; [lia|]. exists (root w), rn.
    rewrite descend_step, Hroot, Hcs. split_and!; try done. apply in_tree_root.
  - destruct (proj2 Hsound _ _ Hroot) as [_ Hexp].
    destruct (Hexp c cs Hcs) as [Hv _].
    by apply (descend_total w rn); [..|apply in_tree_root|].
Qed.

Lemma in_tree_chain h r l :
  tree_shape h r -> in_tree h r l ->
  exists path, parent_chain h l path /\ (length path <= S l)%nat /\ r ∈ path.
Proof.
  intros [Hroot Hchild]. induction 1 as [|p np c Hin IH Hp Hc].
  - destruct Hroot as (nr & Hr & Hpr). exists [r].
    split_and!; [by apply (chain_root _ _ nr)|simpl; lia|by apply list_elem_of_singleton].
  - destruct IH as (path & Hchain & Hlen & Hr).
    destruct (Hchild p np c Hin Hp Hc) as (Hlt & nc & Hnc & Hpc).
    exists (c :: path). split_and!.
    + by apply (chain_step _ _ nc p).
    + simpl. lia.
    + apply elem_of_cons. by right.
Qed.

Lemma rewards_length h path x : length (rewards h path x) = length path.
Proof. revert x. induction path as [|a path IH]; intros x; simpl; [done|]. by rewrite IH. Qed.

Lemma in_tree_expanded_old h r l n x :
  tree_shape h r -> h !! l = Some n -> children n = [] ->
  in_tree h r x -> in_tree (expanded_heap h l n) r x.
Proof.
  intros Hshape Hl Hcs. induction 1 as [|p np c Hin IH Hp Hc]; [apply in_tree_root|].
  assert (p < length h)%nat as Hlt by (by eapply lookup_lt_Some).
  destruct (decide (p = l)) as [->|Hne].
  - rewrite Hl in Hp. injection Hp as <-. rewrite Hcs in Hc.
    by apply elem_of_nil in Hc.
  - apply (in_tree_child _ _ p np); [done| |done]. by rewrite expanded_heap_old.
Qed.

(** Simulation and backpropagation from a node of the tree reach the root. *)
Lemma simulate_and_backpropagate_total fuel c w nc :
  tree_shape (heap w) (root w) -> in_tree (heap w) (root w) c ->
  heap w !! c = Some nc -> (c < fuel)%nat ->
  exists w' rn rn',
    simulate_and_backpropagate fuel c w = (Done c, w') /\
    root w' = root w /\ length (heap w') = length (heap w) /\
    heap w !! root w = Some rn /\ heap w' !! root w = Some rn' /\
    visit rn' = (visit rn + 1)%Z.
Proof.
  intros Hshape Hin Hc Hfuel.
  destruct (in_tree_chain _ _ _ Hshape Hin) as (path & Hchain & Hlen & Hr).
  unfold simulate_and_backpropagate, run_simulate.
  unfold bind at 1 2. rewrite (get_Some _ _ _ Hc).
  destruct (simulate (state nc) (env w)) as [x e']. unfold bind.
  destruct (backpropagate_chain path c x fuel (set_env e' w))
    as (h' & -> & Hlen' & Hpath & _ & _); [done|lia|].
  apply list_elem_of_lookup_1 in Hr as [i Hi].
  destruct (lookup_lt_is_Some_2 (rewards (heap w) path x) i) as [xi Hxi].
  { rewrite rewards_length. by eapply lookup_lt_Some. }
  destruct (Hpath i (root w) xi Hi Hxi) as (rn & Hrn & Hrn').
  exists (set_heap h' (set_env e' w)), rn, (bumped xi rn). done.
Qed.

Lemma search_iter_total w fuel :
  sound (heap w) (root w) -> (length (heap w) < fuel)%nat ->
  exists c w' rn rn',
    search_iter exploration_weight fuel (root w) w = (Done c, w') /\
    root w' = root w /\
    heap w !! root w = Some rn /\ heap w' !! root w' = Some rn' /\
    visit rn' = (visit rn + 1)%Z.
Proof.
  intros Hsound Hfuel. pose proof (proj1 Hsound) as Hshape.
  destruct (descend_from_root w fuel Hsound) as (l & n & Hdesc & Hin & Hl & Hcs);
    [lia|].
  assert (l < length (heap w))%nat as Hlt by (by eapply lookup_lt_Some).
  rewrite search_iter_unfold, Hdesc.
  assert (is_terminal n = true \/ visit n = 0%Z \/
          (is_terminal n = false /\ visit n <> 0%Z)) as [Hskip|[Hskip|[Hterm Hvisit]]].
  { destruct (is_terminal n); [by left|]. right.
    destruct (decide (visit n = 0%Z)); [by left|by right]. }
  1,2: rewrite (expand_step_skip _ _ _ Hl) by auto;
       destruct (simulate_and_backpropagate_total fuel l w n)
         as (w' & rn & rn' & -> & Hroot & _ & Hrn & Hrn' & Hv); [done|done|done|lia|];
       exists l, w', rn, rn'; by rewrite Hroot.
  rewrite (expand_step_expand _ _ _ Hl Hterm Hvisit).
  set (w2 := set_heap (expanded_heap (heap w) l n) w).
  assert (tree_shape (heap w2) (root w2)) as Hshape2
    by (by apply tree_shape_expanded).
  assert (in_tree (heap w2) (root w2) l) as Hin2
    by (by apply in_tree_expanded_old).
  pose proof (expanded_heap_self _ _ _ Hl) as Hl2.
  destruct (proj1 Hsound) as [(rn & Hrn & _) _].
  assert (exists rn2, heap w2 !! root w = Some rn2 /\ visit rn2 = visit rn)
    as (rn2 & Hrn2 & Hv2).
  { destruct (decide (root w = l)) as [Heq|Hne].
    - rewrite Heq. eexists. split; [exact Hl2|].
      rewrite Heq, Hl in Hrn. injection Hrn as <-.
      by destruct (expand (state n)).
    - exists rn. split; [|done]. simpl. rewrite expanded_heap_old; [done..|].
      by eapply lookup_lt_Some. }
  destruct (expand (state n)) as [|st sts] eqn:Hsts.
  - destruct (simulate_and_backpropagate_total fuel l w2 _ Hshape2 Hin2 Hl2)
      as (w' & rn0 & rn' & -> & Hroot & _ & Hrn0 & Hrn' & Hv); [lia|].
    exists l, w', rn, rn'. rewrite Hroot. split_and!; try done.
    change (root w2) with (root w) in Hrn0. rewrite Hrn2 in Hrn0.
    injection Hrn0 as <-. lia.
  - assert (heap w2 !! length (heap w)
            = Some (set_parent (Some l) (new_node st))) as Hc.
    { pose proof (expanded_heap_new (heap w) l n 0 st) as Hnew.
      rewrite Nat.add_0_r in Hnew. apply Hnew. by rewrite Hsts. }
    assert (in_tree (heap w2) (root w2) (length (heap w))) as Hinc.
    { eapply in_tree_child; [exact Hin2|exact Hl2|]. simpl.
      apply elem_of_cons. by left. }
    destruct (simulate_and_backpropagate_total fuel (length (heap w)) w2 _
                Hshape2 Hinc Hc)
      as (w' & rn0 & rn' & -> & Hroot & _ & Hrn0 & Hrn' & Hv).
    + lia.
    + exists (length (heap w)), w', rn, rn'. rewrite Hroot. split_and!; try done.
      change (root w2) with (root w) in Hrn0. rewrite Hrn2 in Hrn0.
      injection Hrn0 as <-. lia.
Qed.

(** X6: at every point of a session a search cycle from the root runs to
    its end once the fuel exceeds the number of nodes built so far: the
    descent ends, no selection fails on [math.log], expansion and
    backpropagation find every node they follow, and the root has one visit
    more than before. *)
Theorem session_cycle_total w fuel :
  in_session exploration_weight w -> (length (heap w) < fuel)%nat ->
  exists c w' rn rn',
    search_iter exploration_weight fuel (root w) w = (Done c, w') /\
    root w' = root w /\
    heap w !! root w = Some rn /\ heap w' !! root w' = Some rn' /\
    visit rn' = (visit rn + 1)%Z.
Proof. intros Hs. apply search_iter_total. by apply in_session_sound. Qed.

(** *** More fuel changes nothing *)

Lemma descend_more_fuel fuel :
  forall fuel' curr w l w',
    descend exploration_weight fuel curr w = (Done l, w') -> (fuel <= fuel')%nat ->
    descend exploration_weight fuel' curr w = (Done l, w').
Proof.
  induction fuel as [|fuel IH]; intros fuel' curr w l w' Hrun Hle; [done|].
  destruct fuel' as [|fuel']; [lia|].
  rewrite descend_step in Hrun. rewrite descend_step.
  destruct (heap w !! curr) as [n|]; [|done].
  destruct (0 <? length (children n))%nat; [|done].
  destruct (heap w !! root w) as [rn|]; [|done].
  destruct (select _ _ _ _) as [next|]; [|done].
  apply IH; [done|lia].
Qed.

Lemma backpropagate_more_depth depth :
  forall depth' l x w w',
    backpropagate depth l x w = (Done tt, w') -> (depth <= depth')%nat ->
    backpropagate depth' l x w = (Done tt, w').
Proof.
  induction depth as [|depth IH]; intros depth' l x w w' Hrun Hle; [done|].
  destruct depth' as [|depth']; [lia|].
  rewrite backpropagate_step in Hrun. rewrite backpropagate_step.
  destruct (heap w !! l) as [n|]; [|done]. simpl in *.
  destruct (parent n) as [p|]; [|done].
  apply IH; [done|lia].
Qed.

Lemma search_iter_more_fuel fuel fuel' curr w c w' :
  search_iter exploration_weight fuel curr w = (Done c, w') -> (fuel <= fuel')%nat ->
  search_iter exploration_weight fuel' curr w = (Done c, w').
Proof.
  intros Hrun Hle. rewrite search_iter_unfold in Hrun. rewrite search_iter_unfold.
  destruct (descend exploration_weight fuel curr w) as [[l|e] w1] eqn:Hdesc; [|done].
  rewrite (descend_more_fuel _ _ _ _ _ _ Hdesc Hle).
  destruct (expand_step l w1) as [[c2|e] w2]; [|done].
  unfold simulate_and_backpropagate, run_simulate in *.
  unfold bind at 1 2 in Hrun. unfold bind at 1 2.
  destruct (get c2 w2) as [[n2|e] w3]; [|done].
  destruct (simulate (state n2) (env w3)) as [x e']. unfold bind in *.
  destruct (backpropagate fuel c2 x (set_env e' w3)) as [[[]|e] w4] eqn:Hbp; [|done].
  by rewrite (backpropagate_more_depth _ _ _ _ _ _ Hbp Hle).
Qed.

(** *** A budget of iterations *)

Lemma for_range_total k :
  forall w, in_session exploration_weight w ->
    exists fuel0 w' rn rn',
      (forall fuel, (fuel0 <= fuel)%nat ->
         for_range k (search_iter exploration_weight fuel (root w)) w = (Done tt, w')) /\
      in_session exploration_weight w' /\ root w' = root w /\
      evolves (heap w) (heap w') /\
      heap w !! root w = Some rn /\ heap w' !! root w = Some rn' /\
      visit rn' = (visit rn + Z.of_nat k)%Z.
Proof.
  induction k as [|k IH]; intros w Hs.
  - destruct (in_session_sound w Hs) as [[(rn & Hrn & _) _] _].
    exists 0%nat, w, rn, rn. split_and!; try done; [apply evolves_refl|lia].
  - destruct (search_iter_total w (S (length (heap w))) (in_session_sound w Hs))
      as (c & w1 & rn & rn1 & Hrun & Hroot1 & Hrn & Hrn1 & Hv1); [lia|].
    assert (in_session exploration_weight w1) as Hs1 by (by eapply session_cycle).
    destruct (IH w1 Hs1) as (fuel0 & w' & rn1' & rn' & Hruns & Hs' & Hroot' & Hev
                             & Hrn1' & Hrn' & Hv').
    rewrite Hroot1 in *. rewrite Hrn1 in Hrn1'. injection Hrn1' as <-.
    exists (Nat.max fuel0 (S (length (heap w)))), w', rn, rn'.
    split_and!; try done.
    + intros fuel Hfuel. simpl. unfold bind.
      rewrite (search_iter_more_fuel _ fuel _ _ _ _ Hrun) by lia.
      apply Hruns. lia.
    + eapply evolves_trans; [|exact Hev].
      by destruct (search_iter_evolves _ _ _ _ _ Hrun).
    + lia.
Qed.

Lemma check_args_iterations_ok (k : nat) : check_args (Some (Z.of_nat k)) None = Done tt.
Proof.
  simpl. destruct (Z.eqb_spec (Z.of_nat k) 0) as [|?]; [done|].
  destruct (Z.leb_spec (Z.of_nat k) 0) as [|?]; [lia|done].
Qed.

Lemma best_child_of_root_sound w rn :
  sound (heap w) (root w) -> heap w !! root w = Some rn ->
  (children rn = [] /\
   best_child_of_root w =
     (Raise (ValueError
        "No children found in the root node. Ensure the root could be expanded."),
      w)) \/
  (exists c nc, best_child_of_root w = (Done c, w) /\
     c ∈ children rn /\ heap w !! c = Some nc /\ (1 <= visit nc)%Z).
Proof.
  intros Hsound Hroot. unfold best_child_of_root, bind, get_root.
  rewrite (get_Some _ _ _ Hroot).
  destruct (children rn) as [|c0 rest] eqn:Hcs; [by left|]. right.
  pose proof (sound_allocated _ _ _ _ Hsound (in_tree_root _ _) Hroot) as Hall.
  rewrite Hcs in Hall. apply Forall_cons_1 in Hall as [_ Hall].
  destruct (proj2 Hsound _ _ Hroot) as [_ Hexp].
  destruct (Hexp c0 rest Hcs) as (_ & n0 & Hn0 & Hv0).
  destruct (most_visited_spec (heap w) rest c0 n0 Hall Hn0)
    as (c & nc & -> & Hnc & [[-> _]|(i & Hi & Hlt & _)]).
  - exists c0, n0. split_and!; try done. apply elem_of_cons. by left.
  - exists c, nc. split_and!; try done; [|lia].
    apply elem_of_cons. right. by eapply list_elem_of_lookup_2.
Qed.

(** X7: at every point of a session, [search(iterations=k)] runs its [k]
    cycles to the end, once the fuel is large enough, and has one of two
    outcomes: the state error when the root is still childless, or a child
    of the root that has been visited.  The root has [k] visits more than
    before, and the world reached is again a point of the session. *)
Theorem search_iterations_total w (k : nat) :
  in_session exploration_weight w ->
  exists fuel0 out w' rn rn',
    (forall fuel, (fuel0 <= fuel)%nat ->
       search exploration_weight fuel (Some (Z.of_nat k)) None w = (out, w')) /\
    in_session exploration_weight w' /\ root w' = root w /\
    heap w !! root w = Some rn /\ heap w' !! root w' = Some rn' /\
    visit rn' = (visit rn + Z.of_nat k)%Z /\
    ((children rn' = [] /\
      out = Raise (ValueError
        "No children found in the root node. Ensure the root could be expanded."))
     \/
     (exists c nc, out = Done c /\ c ∈ children rn' /\
        heap w' !! c = Some nc /\ (1 <= visit nc)%Z)).
Proof.
  intros Hs.
  destruct (for_range_total k w Hs)
    as (fuel0 & w' & rn & rn' & Hruns & Hs' & Hroot & _ & Hrn & Hrn' & Hv).
  rewrite <- Hroot in Hrn'.
  assert (forall fuel, (fuel0 <= fuel)%nat ->
    search exploration_weight fuel (Some (Z.of_nat k)) None w
    = best_child_of_root w') as Hsearch.
  { intros fuel Hfuel. apply search_after_budget; [apply check_args_iterations_ok|].
    simpl. rewrite Nat2Z.id. by apply Hruns. }
  destruct (best_child_of_root_sound w' rn' (in_session_sound w' Hs') Hrn')
    as [[Hcs Hbest]|(c & nc & Hbest & Hc & Hnc & Hvc)].
  - eexists fuel0, _, w', rn, rn'. split_and!; try done.
    + intros fuel Hfuel. rewrite (Hsearch fuel Hfuel). exact Hbest.
    + by left.
  - exists fuel0, (Done c), w', rn, rn'. split_and!; try done.
    + intros fuel Hfuel. by rewrite (Hsearch fuel Hfuel).
    + right. by exists c, nc.
Qed.

(** *** Cycles on a childless root *)

(** A cycle on a childless root that is terminal or unvisited simulates
    the root and records one visit; nothing else changes. *)
Lemma root_leaf_cycle w rn fuel :
  heap w !! root w = Some rn -> children rn = [] -> parent rn = None ->
  is_terminal rn = true \/ visit rn = 0%Z ->
  search_iter exploration_weight (S fuel) (root w) w =
    (Done (root w),
     set_heap (<[root w := bumped (fst (simulate (state rn) (env w))) rn]> (heap w))
              (set_env (snd (simulate (state rn) (env w))) w)).
Proof.
  intros Hroot Hcs Hp Hskip.
  rewrite search_iter_unfold, descend_step, Hroot, Hcs. simpl.
  rewrite (expand_step_skip _ _ _ Hroot Hskip).
  unfold simulate_and_backpropagate, run_simulate.
  unfold bind at 1 2. rewrite (get_Some _ _ _ Hroot).
  destruct (simulate (state rn) (env w)) as [x e']. unfold bind.
  rewrite backpropagate_step.
  change (heap (set_env e' w)) with (heap w). rewrite Hroot, Hp. done.
Qed.

(** X8: [search(iterations=1)] on a freshly built root simulates the root
    once and does not expand it: the root is left with one visit, the
    simulated reward as its score and no children, and [search] raises the
    state error. *)
Theorem search_once_on_fresh_root fuel (st : State) (e : Env) :
  search exploration_weight (S fuel) (Some 1%Z) None (fresh_world st e) =
    (Raise (ValueError
       "No children found in the root node. Ensure the root could be expanded."),
     World [Node 1 (0 + fst (simulate st e)) [] (init_terminal st) None
                 (init_minmax st) st]
           0%nat (snd (simulate st e))).
Proof.
  erewrite search_after_budget; [|done|].
  2:{ change (run_budget exploration_weight (S fuel) (Some 1%Z) None
                (root (fresh_world st e)) (fresh_world st e))
        with (bind (search_iter exploration_weight (S fuel)
                      (root (fresh_world st e)))
                   (fun _ => ret tt) (fresh_world st e)).
      unfold bind.
      rewrite (root_leaf_cycle (fresh_world st e) (new_node st) fuel);
        [|done|done|done|by right].
      reflexivity. }
  reflexivity.
Qed.

Lemma terminal_root_cycles k :
  forall fuel n (e : Env),
    is_terminal n = true -> children n = [] -> parent n = None ->
    exists n' e',
      for_range k (search_iter exploration_weight (S fuel) 0%nat) (World [n] 0%nat e)
        = (Done tt, World [n'] 0%nat e') /\
      visit n' = (visit n + Z.of_nat k)%Z /\
      is_terminal n' = true /\ children n' = [] /\ parent n' = None /\
      state n' = state n.
Proof.
  induction k as [|k IH]; intros fuel n e Hterm Hcs Hp.
  - exists n, e. split_and!; try done. lia.
  - simpl. unfold bind.
    pose proof (root_leaf_cycle (World [n] 0%nat e) n fuel) as Hcycle.
    change (root (World [n] 0%nat e)) with 0%nat in Hcycle.
    rewrite Hcycle; [|done|done|done|by left]. simpl.
    destruct (IH fuel (bumped (fst (simulate (state n) e)) n)
                (snd (simulate (state n) e))) as (n' & e' & Hrun & Hv & ? & ? & ? & ?);
      [done..|].
    exists n', e'. split_and!; try done. simpl in Hv. lia.
Qed.

(** X9: on a root that its constructor made terminal, [search] raises the
    state error whatever the number of iterations; each cycle simulates the
    root, so the root collects one visit per iteration and never gets a
    child. *)
Theorem search_on_terminal_root fuel (k : nat) (st : State) (e : Env) :
  init_terminal st = true ->
  exists n' e',
    search exploration_weight (S fuel) (Some (Z.of_nat k)) None (fresh_world st e) =
      (Raise (ValueError
         "No children found in the root node. Ensure the root could be expanded."),
       World [n'] 0%nat e') /\
    visit n' = Z.of_nat k /\ is_terminal n' = true /\ children n' = [].
Proof.
  intros Hterm.
  destruct (terminal_root_cycles k fuel (new_node st) e)
    as (n' & e' & Hrun & Hv & Hterm' & Hcs & _); [by simpl|done|done|].
  exists n', e'. split_and!; try done.
  erewrite search_after_budget;
    [|apply check_args_iterations_ok|simpl; rewrite Nat2Z.id; exact Hrun].
  unfold best_child_of_root, bind, get_root, get. simpl. by rewrite Hcs.
Qed.

(** *** The root gets its children within two cycles *)

Lemma for_range_app a b (body : M State Env loc) w :
  for_range (a + b) body w =
    match for_range a body w with
    | (Done _, w1) => for_range b body w1
    | (Raise e, w1) => (Raise e, w1)
    end.
Proof.
  revert w. induction a as [|a IH]; intros w; [done|].
  simpl. unfold bind. destruct (body w) as [[c|e] w1]; [|done]. apply IH.
Qed.

Lemma root_expand_cycle w rn fuel :
  sound (heap w) (root w) ->
  heap w !! root w = Some rn -> children rn = [] ->
  is_terminal rn = false -> visit rn <> 0%Z -> expand (state rn) <> [] ->
  (length (heap w) < fuel)%nat ->
  exists c w' rn',
    search_iter exploration_weight fuel (root w) w = (Done c, w') /\
    root w' = root w /\ heap w' !! root w = Some rn' /\ children rn' <> [].
Proof.
  intros Hsound Hroot Hcs Hterm Hvisit Hexp Hfuel.
  destruct (search_iter_total w fuel Hsound Hfuel)
    as (c & w' & _ & _ & Hrun & Hroot' & _).
  exists c, w'. pose proof Hrun as Hrun'.
  destruct fuel as [|fuel]; [lia|].
  rewrite search_iter_unfold, descend_step, Hroot, Hcs in Hrun'. simpl in Hrun'.
  rewrite (expand_step_expand _ _ _ Hroot Hterm Hvisit) in Hrun'.
  apply (simulate_and_backpropagate_keeps
           (evolves (expanded_heap (heap w) (root w) rn))) in Hrun'
    as [[_ Hev] _].
  - destruct (Hev (root w) _ (expanded_heap_self _ _ _ Hroot))
      as (rn' & Hrn' & _ & Hkeep & _).
    exists rn'. split_and!; try done.
    destruct (expand (state rn)) as [|st sts]; [done|].
    rewrite Hkeep; done.
  - intros h l n x Hev' Hl. eapply evolves_insert; [done..|]. apply bumped_grows.
  - apply evolves_refl.
Qed.

Lemma root_gets_children w rn :
  in_session exploration_weight w ->
  heap w !! root w = Some rn ->
  is_terminal rn = false -> expand (state rn) <> [] ->
  exists j fuel0 w' rn',
    (j <= 2)%nat /\
    (forall fuel, (fuel0 <= fuel)%nat ->
       for_range j (search_iter exploration_weight fuel (root w)) w = (Done tt, w')) /\
    in_session exploration_weight w' /\ root w' = root w /\
    evolves (heap w) (heap w') /\
    heap w' !! root w = Some rn' /\ children rn' <> [].
Proof.
  intros Hs Hroot Hterm Hexp.
  pose proof (in_session_sound w Hs) as Hsound.
  destruct (children rn) as [|c0 cs] eqn:Hcs.
  2:{ exists 0%nat, 0%nat, w, rn.
      split_and!; try done; [lia|apply evolves_refl|by rewrite Hcs]. }
  assert (forall w rn, in_session exploration_weight w ->
    heap w !! root w = Some rn -> children rn = [] ->
    is_terminal rn = false -> visit rn <> 0%Z -> expand (state rn) <> [] ->
    exists w' rn',
      (forall fuel, (S (length (heap w)) <= fuel)%nat ->
         for_range 1 (search_iter exploration_weight fuel (root w)) w = (Done tt, w')) /\
      in_session exploration_weight w' /\ root w' = root w /\
      evolves (heap w) (heap w') /\
      heap w' !! root w = Some rn' /\ children rn' <> []) as Hone.
  { clear. intros w rn Hs Hroot Hcs Hterm Hvisit Hexp.
    destruct (root_expand_cycle w rn (S (length (heap w))))
      as (c & w' & rn' & Hrun & Hroot' & Hrn' & Hcs'); [by apply in_session_sound|done..|lia|].
    exists w', rn'. split_and!; try done.
    - intros fuel Hfuel. simpl. unfold bind.
      by rewrite (search_iter_more_fuel _ fuel _ _ _ _ Hrun) by lia.
    - by eapply session_cycle.
    - by destruct (search_iter_evolves _ _ _ _ _ Hrun). }
  destruct (decide (visit rn = 0%Z)) as [Hv0|Hv].
  - destruct Hsound as [[(rn0 & Hrn0 & Hp) _] _].
    rewrite Hroot in Hrn0. injection Hrn0 as <-.
    pose proof (root_leaf_cycle w rn (length (heap w)) Hroot Hcs Hp (or_intror Hv0))
      as Hrun1.
    set (w1 := set_heap _ _) in Hrun1.
    assert (in_session exploration_weight w1) as Hs1 by (by eapply session_cycle).
    assert (heap w1 !! root w1
            = Some (bumped (fst (simulate (state rn) (env w))) rn)) as Hroot1.
    { simpl. apply list_lookup_insert_eq. by eapply lookup_lt_Some. }
    destruct (Hone w1 _ Hs1 Hroot1)
      as (w' & rn' & Hrun2 & Hs' & Hroot' & Hev & Hrn' & Hcs');
      [done|done|simpl; lia|done|].
    exists 2%nat, (S (length (heap w))), w', rn'. split_and!; try done.
    + intros fuel Hfuel. rewrite (for_range_app 1 1). simpl. unfold bind at 1.
      rewrite (search_iter_more_fuel _ fuel _ _ _ _ Hrun1) by lia.
      apply (Hrun2 fuel). subst w1. simpl. rewrite length_insert. lia.
    + eapply evolves_trans; [|exact Hev].
      by destruct (search_iter_evolves _ _ _ _ _ Hrun1).
  - destruct (Hone w rn Hs Hroot Hcs Hterm Hv Hexp)
      as (w' & rn' & Hrun & Hs' & Hroot' & Hev & Hrn' & Hcs').
    exists 1%nat, (S (length (heap w))), w', rn'. split_and!; try done. lia.
Qed.

(** X10: at every point of a session where the root is not terminal and
    its state has successors, [search] with two iterations or more returns a
    child of the root, once the fuel is large enough; that child has been
    visited, and the world reached is again a point of the session, with
    the same root. *)
Theorem search_returns_child w rn (k : nat) :
  in_session exploration_weight w ->
  heap w !! root w = Some rn ->
  is_terminal rn = false -> expand (state rn) <> [] -> (2 <= k)%nat ->
  exists fuel0 c w' rn' nc,
    (forall fuel, (fuel0 <= fuel)%nat ->
       search exploration_weight fuel (Some (Z.of_nat k)) None w = (Done c, w')) /\
    in_session exploration_weight w' /\ root w' = root w /\
    heap w' !! root w' = Some rn' /\ c ∈ children rn' /\
    heap w' !! c = Some nc /\ (1 <= visit nc)%Z /\ state rn' = state rn.
Proof.
  intros Hs Hroot Hterm Hexp Hk.
  destruct (root_gets_children w rn Hs Hroot Hterm Hexp)
    as (j & fuel1 & w1 & rn1 & Hj & Hrun1 & Hs1 & Hroot1 & Hev1 & Hrn1 & Hcs1).
  destruct (for_range_total (k - j) w1 Hs1)
    as (fuel2 & w' & rn1' & rn' & Hrun2 & Hs' & Hroot' & Hev2 & Hrn1' & Hrn' & _).
  rewrite Hroot1 in Hroot', Hrn1', Hrn', Hrun2.
  rewrite Hrn1 in Hrn1'. injection Hrn1' as <-.
  destruct (proj2 Hev1 _ _ Hroot) as (rn1' & Hrn1' & _ & _ & _ & _ & _ & Hst1).
  rewrite Hrn1 in Hrn1'. injection Hrn1' as <-.
  destruct (proj2 Hev2 _ _ Hrn1) as (rn'' & Hrn'' & _ & Hkeep & _ & _ & _ & Hst2).
  rewrite Hrn' in Hrn''. injection Hrn'' as <-.
  assert (forall fuel, (Nat.max fuel1 fuel2 <= fuel)%nat ->
    search exploration_weight fuel (Some (Z.of_nat k)) None w
    = best_child_of_root w') as Hsearch.
  { intros fuel Hfuel. apply search_after_budget; [apply check_args_iterations_ok|].
    simpl. rewrite Nat2Z.id. replace k with (j + (k - j))%nat at 1 by lia.
    rewrite for_range_app, Hrun1 by lia. apply Hrun2. lia. }
  assert (heap w' !! root w' = Some rn') as Hrn'2 by (by rewrite Hroot').
  destruct (best_child_of_root_sound w' rn' (in_session_sound w' Hs') Hrn'2)
    as [[Hcs Hbest]|(c & nc & Hbest & Hc & Hnc & Hvc)].
  { rewrite Hkeep in Hcs; done. }
  exists (Nat.max fuel1 fuel2), c, w', rn', nc. split_and!; try done.
  - intros fuel Hfuel. by rewrite (Hsearch fuel Hfuel).
  - congruence.
Qed.

(** *** A game between two engine players *)

Section Play.
Variable Inv : State -> Prop.
Variable measure : State -> nat.
Hypothesis Inv_step : forall st st',
  Inv st -> st' ∈ expand st -> Inv st' /\ (measure st' < measure st)%nat.
Hypothesis Inv_live : forall st,
  Inv st -> init_terminal st = false -> expand st <> [].

Lemma flag_sound_new st p : Inv st -> flag_sound Inv (set_parent p (new_node st)).
Proof.
  intros Hst. unfold flag_sound. simpl. split_and!; [done|done|]. by left.
Qed.

(** Rewriting a node without touching its state, its children or its flag
    keeps the links and the flags. *)
Lemma game_ok_insert h l n n' :
  game_ok Inv h -> h !! l = Some n ->
  state n' = state n -> children n' = children n -> flag_sound Inv n' ->
  game_ok Inv (<[l := n']> h).
Proof.
  intros [Hflags Hlinks] Hl Hst Hcs Hflag.
  assert (l < length h)%nat as Hlt by (by eapply lookup_lt_Some).
  split; [by apply Forall_insert|].
  assert (forall a na, h !! a = Some na ->
    exists na', <[l := n']> h !! a = Some na' /\ state na' = state na) as Hfwd.
  { intros a na Ha. destruct (decide (a = l)) as [->|Hne].
    - exists n'. rewrite Hl in Ha. injection Ha as <-.
      split; [by apply list_lookup_insert_eq|done].
    - exists na. split; [by rewrite list_lookup_insert_ne|done]. }
  intros p np c Hp Hc.
  assert (exists np0, h !! p = Some np0 /\ state np = state np0 /\
            children np = children np0) as (np0 & Hp0 & Hstp & Hcsp).
  { destruct (decide (p = l)) as [->|Hne].
    - rewrite list_lookup_insert_eq in Hp by done. injection Hp as <-. by exists n.
    - rewrite list_lookup_insert_ne in Hp by done. by exists np. }
  rewrite Hcsp in Hc. destruct (Hlinks p np0 c Hp0 Hc) as (nc & Hnc & Hin).
  destruct (Hfwd c nc Hnc) as (nc' & Hnc' & Hstc). exists nc'.
  split; [done|]. by rewrite Hstc, Hstp.
Qed.

Lemma game_ok_bump h l n x :
  game_ok Inv h -> h !! l = Some n -> game_ok Inv (<[l := bumped x n]> h).
Proof.
  intros Hok Hl. apply (game_ok_insert _ _ n); [done..|].
  destruct Hok as [Hflags _]. exact (Forall_lookup_1 _ _ _ _ Hflags Hl).
Qed.

Lemma game_ok_expanded h l n :
  game_ok Inv h -> h !! l = Some n -> children n = [] -> is_terminal n = false ->
  game_ok Inv (expanded_heap h l n).
Proof.
  intros [Hflags Hlinks] Hl Hcs Hterm.
  assert (l < length h)%nat as Hlt by (by eapply lookup_lt_Some).
  pose proof (Forall_lookup_1 _ _ _ _ Hflags Hl) as (Hinv & Hf1 & Hf2).
  assert (forall a na, h !! a = Some na ->
    exists na', expanded_heap h l n !! a = Some na' /\ state na' = state na)
    as Hfwd.
  { intros a na Ha. destruct (decide (a = l)) as [->|Hne].
    - rewrite Hl in Ha. injection Ha as <-. eexists.
      split; [by apply expanded_heap_self|]. by destruct (expand (state n)).
    - exists na. split; [|done]. rewrite expanded_heap_old; [done..|].
      by eapply lookup_lt_Some. }
  split.
  - apply Forall_lookup. intros a na' Ha.
    destruct (decide (a < length h)%nat) as [Hlta|Hge].
    + destruct (decide (a = l)) as [->|Hne].
      * rewrite (expanded_heap_self _ _ _ Hl) in Ha. injection Ha as <-.
        unfold flag_sound.
        destruct (expand (state n)) as [|st0 sts] eqn:Hsts; simpl.
        -- split_and!; [done|done|]. intros _. by right.
        -- split_and!; [exact Hinv|exact Hf1|]. intros Ht. congruence.
      * rewrite expanded_heap_old in Ha by done.
        exact (Forall_lookup_1 _ _ _ _ Hflags Ha).
    + assert (a - length h < length (expand (state n)))%nat as Hi.
      { apply lookup_lt_Some in Ha. rewrite expanded_heap_length in Ha. lia. }
      destruct (lookup_lt_is_Some_2 _ _ Hi) as [st Hst].
      pose proof (expanded_heap_new h l n _ st Hst) as Hnew.
      replace (length h + (a - length h))%nat with a in Hnew by lia.
      rewrite Hnew in Ha. injection Ha as <-.
      apply flag_sound_new. apply (Inv_step (state n)); [done|].
      by eapply list_elem_of_lookup_2.
  - intros p np c Hp Hc.
    destruct (decide (p < length h)%nat) as [Hltp|Hge].
    + destruct (decide (p = l)) as [->|Hnep].
      * rewrite (expanded_heap_self _ _ _ Hl) in Hp. injection Hp as <-.
        destruct (expand (state n)) as [|st0 sts] eqn:Hsts.
        { by apply elem_of_nil in Hc. }
        change (c ∈ seq (length h) (length (st0 :: sts))) in Hc.
        apply elem_of_seq in Hc as [Hge Hltc].
        destruct (lookup_lt_is_Some_2 (st0 :: sts) (c - length h)) as [stc Hstc];
          [lia|].
        pose proof (expanded_heap_new h l n (c - length h) stc) as Hnew.
        rewrite Hsts in Hnew. specialize (Hnew Hstc).
        replace (length h + (c - length h))%nat with c in Hnew by lia.
        eexists. split; [exact Hnew|]. simpl. rewrite Hsts.
        by eapply list_elem_of_lookup_2.
      * rewrite expanded_heap_old in Hp by done.
        destruct (Hlinks p np c Hp Hc) as (nc & Hnc & Hin).
        destruct (Hfwd c nc Hnc) as (nc' & Hnc' & Hstc). exists nc'.
        split; [done|]. by rewrite Hstc.
    + destruct (expanded_heap_fresh h l n p np) as (Hnil & _); [lia|done|].
      rewrite Hnil in Hc. by apply elem_of_nil in Hc.
Qed.

Lemma search_iter_game_ok fuel curr w out w' :
  game_ok Inv (heap w) ->
  search_iter exploration_weight fuel curr w = (out, w') ->
  game_ok Inv (heap w').
Proof.
  intros Hok Hrun.
  apply (search_iter_keeps (game_ok Inv)) with (5 := Hrun); [| | |done].
  - intros h l n x. apply game_ok_bump.
  - intros h l n Hs Hl Hcs Hterm _ _. by apply game_ok_expanded.
  - intros h l n st sts x Hs Hl Hcs Hterm _ Hsts.
    apply (game_ok_bump _ _ (set_parent (Some l) (new_node st)));
      [by apply game_ok_expanded|].
    pose proof (expanded_heap_new h l n 0 st) as Hnew.
    rewrite Nat.add_0_r in Hnew. apply Hnew. by rewrite Hsts.
Qed.

Lemma for_range_game_ok fuel curr k :
  forall w out w',
    game_ok Inv (heap w) ->
    for_range k (search_iter exploration_weight fuel curr) w = (out, w') ->
    game_ok Inv (heap w').
Proof.
  induction k as [|k IH]; intros w out w' Hok Hrun.
  - by injection Hrun as <- <-.
  - simpl in Hrun. unfold bind in Hrun.
    destruct (search_iter exploration_weight fuel curr w) as [[c|e] w1] eqn:Hcyc.
    + eapply IH; [|exact Hrun]. by eapply search_iter_game_ok.
    + injection Hrun as <- <-. by eapply search_iter_game_ok.
Qed.

Lemma search_iterations_game_ok fuel (k : nat) w out w' :
  game_ok Inv (heap w) ->
  search exploration_weight fuel (Some (Z.of_nat k)) None w = (out, w') ->
  game_ok Inv (heap w').
Proof.
  intros Hok Hrun. unfold search in Hrun. unfold bind at 1 in Hrun.
  unfold lift in Hrun. rewrite check_args_iterations_ok in Hrun.
  unfold bind at 1 in Hrun. unfold get_root in Hrun. unfold bind at 1 in Hrun.
  change (run_budget exploration_weight fuel (Some (Z.of_nat k)) None (root w))
    with (for_range (Z.to_nat (Z.of_nat k))
            (search_iter exploration_weight fuel (root w))) in Hrun.
  destruct (for_range _ _ w) as [[[]|e] w1] eqn:Hloop.
  - apply for_range_game_ok in Hloop; [|done].
    pose proof (best_child_of_root_world w1) as Hw. rewrite Hrun in Hw.
    simpl in Hw. by subst w'.
  - injection Hrun as <- <-. by eapply for_range_game_ok.
Qed.

Lemma play_step turns fuel iterations current_node w :
  play exploration_weight (S turns) fuel iterations current_node w =
    match heap w !! current_node with
    | None => (Raise NoSuchObject, w)
    | Some n =>
      if negb (is_terminal n) then
        match search exploration_weight fuel (Some iterations) None w with
        | (Done c, w1) =>
          match move_to (PyNode c) w1 with
          | (Done _, w2) => play exploration_weight turns fuel iterations c w2
          | (Raise e, w2) => (Raise e, w2)
          end
        | (Raise e, w1) => (Raise e, w1)
        end
      else (Done current_node, w)
    end.
Proof.
  simpl. unfold bind at 1. unfold get, deref.
  destruct (heap w !! current_node) as [n|]; [|done].
  destruct (negb (is_terminal n)); [|done].
  unfold ai_turn, ai_move, bind.
  destruct (search _ _ _ _ w) as [[c|e] w1]; [|done].
  by destruct (move_to (PyNode c) w1) as [[[]|e] w2].
Qed.

Lemma play_total (k : nat) (m : nat) :
  (2 <= k)%nat ->
  forall w rn,
    in_session exploration_weight w -> game_ok Inv (heap w) ->
    heap w !! root w = Some rn -> (measure (state rn) <= m)%nat ->
    exists fuel0 l w' n,
      (forall fuel turns, (fuel0 <= fuel)%nat -> (m < turns)%nat ->
         play exploration_weight turns fuel (Z.of_nat k) (root w) w = (Done l, w')) /\
      in_session exploration_weight w' /\ game_ok Inv (heap w') /\
      root w' = l /\ heap w' !! l = Some n /\ is_terminal n = true.
Proof.
  intros Hk. induction m as [|m IH]; intros w rn Hs Hok Hroot Hm.
  all: destruct (is_terminal rn) eqn:Hterm.
  1,3: exists 0%nat, (root w), w, rn; split_and!; try done;
       intros fuel [|turns] _ Hturns; [lia|]; by rewrite play_step, Hroot, Hterm.
  all: pose proof (Forall_lookup_1 _ _ _ _ (proj1 Hok) Hroot) as (Hinv & Hf1 & _).
  all: pose proof (Inv_live _ Hinv (Hf1 Hterm)) as Hexp.
  all: destruct (search_returns_child w rn k Hs Hroot Hterm Hexp Hk)
         as (fuel1 & c & w1 & rn1 & nc & Hsearch & Hs1 & Hroot1 & Hrn1 & Hc & Hnc
             & _ & Hst).
  all: assert (game_ok Inv (heap w1)) as Hok1
         by (eapply search_iterations_game_ok; [exact Hok|by apply (Hsearch fuel1)]).
  all: destruct (proj2 Hok1 _ _ _ Hrn1 Hc) as (nc' & Hnc' & Hsucc).
  all: rewrite Hnc in Hnc'; injection Hnc' as <-.
  all: rewrite Hst in Hsucc.
  all: destruct (Inv_step _ _ Hinv Hsucc) as [Hinvc Hless].
  { lia. }
  set (w2 := set_heap (<[c := set_parent None nc]> (heap w1)) (set_root c w1)).
  assert (c < length (heap w1))%nat as Hltc by (by eapply lookup_lt_Some).
  assert (in_session exploration_weight w2) as Hs2.
  { eapply session_move; [exact Hs1|exact Hrn1|exact Hc|]. by apply move_to_node_run. }
  assert (game_ok Inv (heap w2)) as Hok2.
  { apply (game_ok_insert _ _ nc); [done..|].
    exact (Forall_lookup_1 _ _ _ _ (proj1 Hok1) Hnc). }
  assert (heap w2 !! root w2 = Some (set_parent None nc)) as Hroot2
    by (by apply list_lookup_insert_eq).
  destruct (IH w2 _ Hs2 Hok2 Hroot2)
    as (fuel2 & l & w' & n & Hplay & Hs' & Hok' & Hr' & Hl' & Ht');
    [simpl; lia|].
  exists (Nat.max fuel1 fuel2), l, w', n. split_and!; try done.
  intros fuel [|turns] Hfuel Hturns; [lia|].
  rewrite play_step, Hroot, Hterm. simpl.
  rewrite (Hsearch fuel) by lia. rewrite (move_to_node_run _ _ _ Hnc).
  apply (Hplay fuel turns); lia.
Qed.

Lemma game_ok_fresh (st : State) (e : Env) :
  Inv st -> game_ok Inv (heap (fresh_world st e)).
Proof.
  intros Hinv. split.
  - apply Forall_singleton. exact (flag_sound_new st None Hinv).
  - intros [|p] np c Hp Hc; [|done]. injection Hp as <-.
    by apply elem_of_nil in Hc.
Qed.

(** X11: a game the engine plays against itself, with two iterations or
    more per move, comes to an end.  For a domain whose states keep a
    property [Inv] along [expand], lose some of a natural-number measure
    with every move, and have a successor whenever their constructor does
    not make them terminal: from a fresh root, once the fuel is large
    enough and [turns] exceeds the measure of the first state, [play]
    returns the node the game ended on, which is the root of the tree and is
    terminal; no [search] and no [move_to] on the way raises. *)
Theorem play_terminates (k : nat) (st : State) (e : Env) :
  (2 <= k)%nat -> Inv st ->
  exists fuel0 l w' n,
    (forall fuel turns, (fuel0 <= fuel)%nat -> (measure st < turns)%nat ->
       play exploration_weight turns fuel (Z.of_nat k) 0%nat (fresh_world st e)
         = (Done l, w')) /\
    root w' = l /\ heap w' !! l = Some n /\ is_terminal n = true /\
    Inv (state n) /\
    (init_terminal (state n) = true \/ expand (state n) = []).
Proof.
  intros Hk Hinv.
  destruct (play_total k (measure st) Hk (fresh_world st e) (new_node st))
    as (fuel0 & l & w' & n & Hplay & _ & Hok' & Hroot & Hl & Hterm).
  - apply session_fresh.
  - by apply game_ok_fresh.
  - done.
  - done.
  - exists fuel0, l, w', n. split_and!; try done.
    all: pose proof (Forall_lookup_1 _ _ _ _ (proj1 Hok') Hl) as (? & _ & Hf2); auto.
Qed.
End Play.
End CycleFacts.

(** ** Properties of the tic-tac-toe subclass *)
Section TicTacToeFacts.
Import TicTacToe.

Lemma three_true (a b c : option Z) :
  three a b c = true <-> exists p, a = Some p /\ b = Some p /\ c = Some p.
Proof.
  unfold three, cell_eqb. split.
  - intros H. apply andb_prop in H as [H Hc]. apply andb_prop in H as [Ha Hb].
    apply bool_decide_eq_true in Ha, Hb. apply negb_true_iff in Hc.
    apply bool_decide_eq_false in Hc. subst. destruct c as [p|]; [|done]. by exists p.
  - intros (p & -> & -> & ->).
    rewrite !bool_decide_eq_true_2 by done. by rewrite bool_decide_eq_false_2.
Qed.

Lemma cell_Some (b : board) (i j : nat) (p : Z) :
  cell b i j = Some p <-> b !! (i * 3 + j)%nat = Some (Some p).
Proof.
  unfold cell. destruct (b !! (i * 3 + j)%nat) as [[q|]|]; simpl; split; congruence.
Qed.

Lemma three_holds (b : board) (i1 j1 i2 j2 i3 j3 : nat) :
  three (cell b i1 j1) (cell b i2 j2) (cell b i3 j3) = true <->
  exists p, cell b i1 j1 = Some p /\
    holds b p ((i1 * 3 + j1)%nat, (i2 * 3 + j2)%nat, (i3 * 3 + j3)%nat).
Proof.
  rewrite three_true. unfold holds. simpl. split.
  - intros (p & H1 & H2 & H3). exists p. by rewrite <- !cell_Some.
  - intros (p & H1 & H1' & H2 & H3). exists p. by rewrite !cell_Some.
Qed.

(** X12: [check_winner] returns a player exactly when that player holds a
    full row, column or diagonal, and [None] exactly when nobody holds
    one. *)
Theorem check_winner_spec (b : board) :
  (forall p, check_winner b = Some p -> exists ln, ln ∈ lines /\ holds b p ln) /\
  (check_winner b = None <-> forall p ln, ln ∈ lines -> ~ holds b p ln).
Proof.
  assert (forall p ln, ln ∈ lines -> holds b p ln ->
    three (cell b 0 0) (cell b 0 1) (cell b 0 2) = true \/
    three (cell b 1 0) (cell b 1 1) (cell b 1 2) = true \/
    three (cell b 2 0) (cell b 2 1) (cell b 2 2) = true \/
    three (cell b 0 0) (cell b 1 0) (cell b 2 0) = true \/
    three (cell b 0 1) (cell b 1 1) (cell b 2 1) = true \/
    three (cell b 0 2) (cell b 1 2) (cell b 2 2) = true \/
    three (cell b 0 0) (cell b 1 1) (cell b 2 2) = true \/
    three (cell b 0 2) (cell b 1 1) (cell b 2 0) = true) as Hany.
  { intros p ln Hln (H1 & H2 & H3). unfold lines in Hln.
    repeat (apply elem_of_cons in Hln as [->|Hln]);
      [..|by apply elem_of_nil in Hln];
      simpl in H1, H2, H3;
      [left|right;left|do 2 right;left|do 3 right;left|do 4 right;left
      |do 5 right;left|do 6 right;left|do 7 right];
      apply three_true; exists p; unfold cell; simpl; by rewrite H1, H2, H3. }
  assert (forall i1 j1 i2 j2 i3 j3 p,
    three (cell b i1 j1) (cell b i2 j2) (cell b i3 j3) = true ->
    cell b i1 j1 = Some p ->
    holds b p ((i1 * 3 + j1)%nat, (i2 * 3 + j2)%nat, (i3 * 3 + j3)%nat)) as Hline.
  { intros i1 j1 i2 j2 i3 j3 p H3 Hp. apply three_holds in H3 as (q & Hq & Hh).
    rewrite Hp in Hq. by injection Hq as <-. }
  assert (forall i1 j1 i2 j2 i3 j3,
    three (cell b i1 j1) (cell b i2 j2) (cell b i3 j3) = true ->
    cell b i1 j1 <> None) as Hsome.
  { intros i1 j1 i2 j2 i3 j3 H3. apply three_holds in H3 as (q & -> & _). done. }
  unfold check_winner.
  destruct (three (cell b 0 0) (cell b 0 1) (cell b 0 2)) eqn:R0.
  { split; [intros p Hp; exists (0, 1, 2)%nat; split;
             [unfold lines; repeat constructor|exact (Hline _ _ _ _ _ _ _ R0 Hp)]|].
    split; [intros Hn; by apply Hsome in R0|].
    intros Hno. apply three_holds in R0 as (q & _ & Hh).
    exfalso. apply (Hno q (0, 1, 2)%nat); [unfold lines; repeat constructor|exact Hh]. }
  destruct (three (cell b 1 0) (cell b 1 1) (cell b 1 2)) eqn:R1.
  { split; [intros p Hp; exists (3, 4, 5)%nat; split;
             [unfold lines; repeat constructor|exact (Hline _ _ _ _ _ _ _ R1 Hp)]|].
    split; [intros Hn; by apply Hsome in R1|].
    intros Hno. apply three_holds in R1 as (q & _ & Hh).
    exfalso. apply (Hno q (3, 4, 5)%nat); [unfold lines; repeat constructor|exact Hh]. }
  destruct (three (cell b 2 0) (cell b 2 1) (cell b 2 2)) eqn:R2.
  { split; [intros p Hp; exists (6, 7, 8)%nat; split;
             [unfold lines; repeat constructor|exact (Hline _ _ _ _ _ _ _ R2 Hp)]|].
    split; [intros Hn; by apply Hsome in R2|].
    intros Hno. apply three_holds in R2 as (q & _ & Hh).
    exfalso. apply (Hno q (6, 7, 8)%nat); [unfold lines; repeat constructor|exact Hh]. }
  destruct (three (cell b 0 0) (cell b 1 0) (cell b 2 0)) eqn:C0.
  { split; [intros p Hp; exists (0, 3, 6)%nat; split;
             [unfold lines; repeat constructor|exact (Hline _ _ _ _ _ _ _ C0 Hp)]|].
    split; [intros Hn; by apply Hsome in C0|].
    intros Hno. apply three_holds in C0 as (q & _ & Hh).
    exfalso. apply (Hno q (0, 3, 6)%nat); [unfold lines; repeat constructor|exact Hh]. }
  destruct (three (cell b 0 1) (cell b 1 1) (cell b 2 1)) eqn:C1.
  { split; [intros p Hp; exists (1, 4, 7)%nat; split;
             [unfold lines; repeat constructor|exact (Hline _ _ _ _ _ _ _ C1 Hp)]|].
    split; [intros Hn; by apply Hsome in C1|].
    intros Hno. apply three_holds in C1 as (q & _ & Hh).
    exfalso. apply (Hno q (1, 4, 7)%nat); [unfold lines; repeat constructor|exact Hh]. }
  destruct (three (cell b 0 2) (cell b 1 2) (cell b 2 2)) eqn:C2.
  { split; [intros p Hp; exists (2, 5, 8)%nat; split;
             [unfold lines; repeat constructor|exact (Hline _ _ _ _ _ _ _ C2 Hp)]|].
    split; [intros Hn; by apply Hsome in C2|].
    intros Hno. apply three_holds in C2 as (q & _ & Hh).
    exfalso. apply (Hno q (2, 5, 8)%nat); [unfold lines; repeat constructor|exact Hh]. }
  destruct (three (cell b 0 0) (cell b 1 1) (cell b 2 2)) eqn:D0.
  { split; [intros p Hp; exists (0, 4, 8)%nat; split;
             [unfold lines; repeat constructor|exact (Hline _ _ _ _ _ _ _ D0 Hp)]|].
    split; [intros Hn; by apply Hsome in D0|].
    intros Hno. apply three_holds in D0 as (q & _ & Hh).
    exfalso. apply (Hno q (0, 4, 8)%nat); [unfold lines; repeat constructor|exact Hh]. }
  destruct (three (cell b 0 2) (cell b 1 1) (cell b 2 0)) eqn:D1.
  { split; [intros p Hp; exists (2, 4, 6)%nat; split;
             [unfold lines; repeat constructor|exact (Hline _ _ _ _ _ _ _ D1 Hp)]|].
    split; [intros Hn; by apply Hsome in D1|].
    intros Hno. apply three_holds in D1 as (q & _ & Hh).
    exfalso. apply (Hno q (2, 4, 6)%nat); [unfold lines; repeat constructor|exact Hh]. }
  split; [done|]. split; [|done]. intros _ p ln Hln Hh.
  destruct (Hany p ln Hln Hh) as [H|[H|[H|[H|[H|[H|[H|H]]]]]]]; congruence.
Qed.

Lemma empty_positions_spec (b : board) (k : nat) :
  k ∈ empty_positions b <-> (k < 9)%nat /\ b !! k = Some None.
Proof.
  unfold empty_positions. rewrite list_elem_of_filter, elem_of_seq.
  split; intros [? ?]; split; (done || lia).
Qed.

Lemma filter_same {A} (P Q : A -> Prop)
    `{!forall x, Decision (P x)} `{!forall x, Decision (Q x)} (l : list A) :
  (forall j, j ∈ l -> (Q j <-> P j)) -> filter Q l = filter P l.
Proof.
  induction l as [|a l IH]; intros Hpq; [done|].
  rewrite !filter_cons.
  rewrite IH by (intros j Hj; apply Hpq; by right).
  assert (Q a <-> P a) as Ha by (apply Hpq; by left).
  destruct (decide (Q a)), (decide (P a)); tauto.
Qed.

Lemma filter_remove {A} (P Q : A -> Prop)
    `{!forall x, Decision (P x)} `{!forall x, Decision (Q x)} (l : list A) (k : A) :
  NoDup l -> k ∈ l -> P k -> ~ Q k -> (forall j, j <> k -> (Q j <-> P j)) ->
  S (length (filter Q l)) = length (filter P l).
Proof.
  induction l as [|a l IH]; intros Hnd Hk HP HQ Hpq.
  { by apply elem_of_nil in Hk. }
  pose proof (NoDup_cons_1_1 _ _ Hnd) as Ha.
  pose proof (NoDup_cons_1_2 _ _ Hnd) as Hnd'.
  apply elem_of_cons in Hk as [->|Hk].
  - rewrite (filter_cons_True P) by done. rewrite (filter_cons_False Q) by done.
    simpl. f_equal. f_equal. apply filter_same.
    intros j Hj. apply Hpq. intros ->. done.
  - assert (a <> k) as Hak by (intros ->; done).
    rewrite !filter_cons. specialize (IH Hnd' Hk HP HQ Hpq).
    specialize (Hpq a Hak).
    destruct (decide (Q a)), (decide (P a)); simpl; try tauto.
    by f_equal.
Qed.

(** Filling an empty cell leaves exactly one empty cell fewer. *)
Lemma empty_positions_insert (b : board) (k : nat) (p : Z) :
  k ∈ empty_positions b ->
  S (length (empty_positions (<[k := Some p]> b))) = length (empty_positions b).
Proof.
  intros Hk. pose proof Hk as [Hk9 Hbk]%empty_positions_spec.
  unfold empty_positions.
  apply (filter_remove _ _ _ k).
  - apply NoDup_seq.
  - apply elem_of_seq. lia.
  - done.
  - cbn beta. unfold board in *.
    rewrite list_lookup_insert_eq by (by eapply lookup_lt_Some).
    by intros [=].
  - intros j Hj. cbn beta. unfold board in *. by rewrite list_lookup_insert_ne.
Qed.

Lemma has_empty_positions (b : board) :
  length b = 9%nat -> has_empty b = true -> empty_positions b <> [].
Proof.
  intros Hlen Hhas. unfold has_empty in Hhas.
  apply existsb_exists in Hhas as (c & Hc & Hnone).
  apply bool_decide_eq_true in Hnone. subst c.
  apply list_elem_of_In in Hc. apply list_elem_of_lookup_1 in Hc as [k Hk].
  assert (k ∈ empty_positions b) as Hin.
  { apply empty_positions_spec. split; [|done].
    apply lookup_lt_Some in Hk. lia. }
  intros Heq. rewrite Heq in Hin. by apply elem_of_nil in Hin.
Qed.

Lemma no_empty_positions (b : board) :
  has_empty b = false -> empty_positions b = [].
Proof.
  intros Hhas. destruct (empty_positions b) as [|k ks] eqn:Hks; [done|].
  assert (k ∈ empty_positions b) as [_ Hk]%empty_positions_spec
    by (rewrite Hks; by left).
  assert (has_empty b = true) as Hyes; [|congruence].
  apply existsb_exists. exists None. split.
  - apply list_elem_of_In. by eapply list_elem_of_lookup_2.
  - by apply bool_decide_eq_true.
Qed.

(** X13: every state [expand] returns is the position after one move: the
    player to move has taken one cell that was empty, every other cell is
    as before, the other player is to move, and one empty cell fewer is
    left; and there is one such state for every empty cell. *)
Theorem ttt_expand_moves (s : state) :
  length (ttt_expand s) = empties s /\
  forall s', s' ∈ ttt_expand s ->
    exists k, (k < 9)%nat /\ cells s !! k = Some None /\
      cells s' = <[k := Some (current_player s)]> (cells s) /\
      current_player s' = (1 - current_player s)%Z /\
      length (cells s') = length (cells s) /\
      S (empties s') = empties s.
Proof.
  unfold ttt_expand, empties. split; [by rewrite length_map|].
  intros s' Hs'. apply list_elem_of_fmap in Hs' as (k & -> & Hk).
  pose proof Hk as [Hk9 Hbk]%empty_positions_spec.
  exists k. simpl. split_and!; [done|done|done|done|apply length_insert|].
  by apply empty_positions_insert.
Qed.

Lemma ttt_step (st st' : state) :
  board_ok st -> st' ∈ expand st -> board_ok st' /\ (empties st' < empties st)%nat.
Proof.
  intros Hok Hst'. destruct (ttt_expand_moves st) as [_ Hmoves].
  destruct (Hmoves st' Hst') as (k & _ & _ & _ & _ & Hlen & Hless).
  unfold board_ok in *. split; [congruence|lia].
Qed.

Lemma ttt_live (st : state) :
  board_ok st -> init_terminal st = false -> expand st <> [].
Proof.
  intros Hok Hterm. simpl in *. unfold ttt_terminal in Hterm.
  apply orb_false_iff in Hterm as [_ Hhas]. apply negb_false_iff in Hhas.
  pose proof (has_empty_positions _ Hok Hhas) as Hne.
  unfold ttt_expand. destruct (empty_positions (cells st)); [done|]. done.
Qed.

Lemma randint_lt (n : nat) (e : env) : (0 < n)%nat -> (fst (randint n e) < n)%nat.
Proof.
  intros Hn. unfold randint. destruct (tape e) as [|d ds]; simpl; [done|].
  apply Nat.mod_upper_bound. lia.
Qed.

Lemma playout_fuel (fuel m : nat) (b : board) (player : Z) (winner : option Z) (e : env) :
  (length (empty_positions b) < fuel)%nat -> (length (empty_positions b) < m)%nat ->
  playout fuel b player winner e = playout m b player winner e.
Proof.
  revert m b player winner e.
  induction fuel as [|fuel IH]; intros m b player winner e Hf Hm; [lia|].
  destruct m as [|m]; [lia|]. simpl.
  destruct (length (empty_positions b) =? 0)%nat eqn:Hz; [done|].
  apply Nat.eqb_neq in Hz.
  pose proof (randint_lt (length (empty_positions b)) e ltac:(lia)) as Hr.
  destruct (randint (length (empty_positions b)) e) as [r e']. simpl in Hr.
  destruct (lookup_lt_is_Some_2 _ _ Hr) as [k Hk]. rewrite Hk. simpl.
  destruct (negb _); [done|].
  assert (k ∈ empty_positions b) as Hin by (by eapply list_elem_of_lookup_2).
  pose proof (empty_positions_insert b k player Hin).
  apply IH; lia.
Qed.

Lemma empty_positions_length (b : board) : (length (empty_positions b) <= 9)%nat.
Proof.
  unfold empty_positions.
  etrans; [apply length_filter|]. by rewrite length_seq.
Qed.

(** X14: the random play of [simulate] ends: whatever the board and the
    draws, its [while True] loop is left within nine passes, so the result
    does not depend on the number of passes allowed beyond ten. *)
Theorem playout_terminates (fuel : nat) (b : board) (player : Z)
    (winner : option Z) (e : env) :
  (10 <= fuel)%nat ->
  playout fuel b player winner e = playout 10 b player winner e.
Proof.
  intros Hfuel. pose proof (empty_positions_length b).
  apply playout_fuel; lia.
Qed.

Lemma holds_insert (b : board) (p q : Z) (k : nat) (ln : nat * nat * nat) :
  b !! k = Some None -> holds b p ln -> holds (<[k := Some q]> b) p ln.
Proof.
  intros Hk (H1 & H2 & H3). unfold holds, board in *.
  rewrite !list_lookup_insert_ne; [done|intros ->; congruence..].
Qed.

(** X15: on a position that is already won, [simulate] does not stop at
    the winner. With the board full it returns 1 if the winner is the
    player to move and -1 otherwise, drawing nothing. With a cell free it
    first places one more stone for the player to move, on a random free
    cell, and then compares the winner of that board with the other
    player. *)
Theorem ttt_simulate_won (s : state) (e : env) (p : Z) :
  check_winner (cells s) = Some p ->
  (has_empty (cells s) = false ->
     ttt_simulate s e = ((if (p =? current_player s)%Z then 1 else -1)%R, e)) /\
  (has_empty (cells s) = true -> board_ok s ->
     exists k q,
       empty_positions (cells s)
         !! fst (randint (length (empty_positions (cells s))) e) = Some k /\
       check_winner (<[k := Some (current_player s)]> (cells s)) = Some q /\
       ttt_simulate s e =
         ((if (q =? 1 - current_player s)%Z then 1 else -1)%R,
          snd (randint (length (empty_positions (cells s))) e))).
Proof.
  intros Hwin. unfold ttt_simulate. rewrite Hwin.
  rewrite bool_decide_eq_false_2 by done. cbn [andb]. split.
  - intros Hfull. simpl. rewrite (no_empty_positions _ Hfull). simpl.
    by destruct (p =? current_player s)%Z.
  - intros Hhas Hok. pose proof (has_empty_positions _ Hok Hhas) as Hne.
    assert (0 < length (empty_positions (cells s)))%nat as Hpos.
    { destruct (empty_positions (cells s)); [done|simpl; lia]. }
    pose proof (randint_lt _ e Hpos) as Hr.
    destruct (lookup_lt_is_Some_2 _ _ Hr) as [k Hk].
    assert (k ∈ empty_positions (cells s)) as [_ Hbk]%empty_positions_spec
      by (by eapply list_elem_of_lookup_2).
    destruct (check_winner_spec (cells s)) as [Hsome _].
    destruct (Hsome p Hwin) as (ln & Hln & Hholds).
    pose proof (holds_insert _ _ (current_player s) _ _ Hbk Hholds) as Hholds'.
    destruct (check_winner (<[k := Some (current_player s)]> (cells s)))
      as [q|] eqn:Hq.
    2:{ destruct (check_winner_spec (<[k := Some (current_player s)]> (cells s)))
          as [_ [Hnone _]]. exfalso. by apply (Hnone Hq p ln). }
    exists k, q. split_and!; [done|done|].
    change (playout 10) with (playout (S 9)). cbn [playout].
    destruct (length (empty_positions (cells s)) =? 0)%nat eqn:Hz.
    { apply Nat.eqb_eq in Hz. lia. }
    destruct (randint (length (empty_positions (cells s))) e) as [r e'] eqn:Hrand.
    simpl in Hk |- *. rewrite Hk. simpl. rewrite Hq.
    rewrite bool_decide_eq_false_2 by done. simpl.
    by destruct (q =? 1 - current_player s)%Z.
Qed.


(** A stone that completes a line on a board without one belongs to the
    completed line. *)
Lemma check_winner_insert (b : board) (k : nat) (player q : Z) :
  check_winner b = None -> b !! k = Some None ->
  check_winner (<[k := Some player]> b) = Some q -> q = player.
Proof.
  intros Hnone Hk Hq.
  destruct (check_winner_spec b) as [_ [Hno _]]. specialize (Hno Hnone).
  destruct (check_winner_spec (<[k := Some player]> b)) as [Hsome _].
  destruct (Hsome q Hq) as (ln & Hln & H1 & H2 & H3).
  assert (k < length b)%nat as Hlt by (by eapply lookup_lt_Some).
  unfold board in *.
  destruct (decide (k = ln.1.1)) as [->|N1].
  { rewrite list_lookup_insert_eq in H1 by done. congruence. }
  destruct (decide (k = ln.1.2)) as [->|N2].
  { rewrite list_lookup_insert_eq in H2 by done. congruence. }
  destruct (decide (k = ln.2)) as [->|N3].
  { rewrite list_lookup_insert_eq in H3 by done. congruence. }
  rewrite list_lookup_insert_ne in H1, H2, H3 by done.
  exfalso. by apply (Hno q ln).
Qed.

Lemma playout_no_winner (fuel : nat) (b : board) (player : Z) (e : env) :
  check_winner b = None ->
  (playout fuel b player None e).1.1 = None \/
  (playout fuel b player None e).1.1 = Some (1 - (playout fuel b player None e).1.2)%Z.
Proof.
  revert b player e. induction fuel as [|fuel IH]; intros b player e Hnone.
  { by left. }
  simpl. destruct (length (empty_positions b) =? 0)%nat eqn:Hz; [by left|].
  apply Nat.eqb_neq in Hz.
  pose proof (randint_lt (length (empty_positions b)) e ltac:(lia)) as Hr.
  destruct (randint (length (empty_positions b)) e) as [r e']. simpl in Hr.
  destruct (lookup_lt_is_Some_2 _ _ Hr) as [k Hk]. rewrite Hk. simpl.
  assert (k ∈ empty_positions b) as [_ Hbk]%empty_positions_spec
    by (by eapply list_elem_of_lookup_2).
  destruct (check_winner (<[k := Some player]> b)) as [q|] eqn:Hq.
  - rewrite bool_decide_eq_false_2 by done. simpl. right.
    rewrite (check_winner_insert _ _ _ _ Hnone Hbk Hq). f_equal. lia.
  - rewrite bool_decide_eq_true_2 by done. simpl. by apply IH.
Qed.

(** X16: from a position nobody has won, the random play never rewards a
    win: [simulate] returns 0 or -1, whoever completes a line.  The stone
    that ends the play is placed before the player to move is switched, so
    the winner is never the [current_player] the result is compared
    with. *)
Theorem ttt_simulate_never_positive (s : state) (e : env) :
  check_winner (cells s) = None ->
  fst (ttt_simulate s e) = 0%R \/ fst (ttt_simulate s e) = (-1)%R.
Proof.
  intros Hnone.
  pose proof (playout_no_winner 10 (cells s) (current_player s) e Hnone) as Hout.
  unfold ttt_simulate. rewrite Hnone.
  rewrite bool_decide_eq_true_2 by done.
  destruct (has_empty (cells s)); cbn [andb negb]; [|by left].
  destruct (playout 10 (cells s) (current_player s) None e) as [[[q|] pl] e'];
    cbn [fst snd] in *; [|by left].
  destruct Hout as [Hout|Hout]; [done|]. injection Hout as ->.
  destruct (1 - pl =? pl)%Z eqn:Heq; [apply Z.eqb_eq in Heq; lia|]. by right.
Qed.
End TicTacToeFacts.

(** X17: a game of tic-tac-toe played by the search against itself ends.
    From the empty board, with any budget of at least two cycles per move,
    any exploration weight and any random draws, [play] returns once it is
    given ten turns and enough fuel; no search and no move raises; the node
    it returns is the root of the tree, is marked terminal, and its board
    has a winner or no empty cell. *)
Theorem ttt_play_terminates (exploration_weight : R) (k : nat) (e : TicTacToe.env) :
  (2 <= k)%nat ->
  exists fuel0 l w' n,
    (forall fuel turns, (fuel0 <= fuel)%nat -> (10 <= turns)%nat ->
       play exploration_weight turns fuel (Z.of_nat k) 0%nat (fresh_world TicTacToe.start e)
         = (Done l, w')) /\
    root w' = l /\ heap w' !! l = Some n /\ is_terminal n = true /\
    length (TicTacToe.cells (state n)) = 9%nat /\
    (TicTacToe.check_winner (TicTacToe.cells (state n)) <> None \/
     TicTacToe.has_empty (TicTacToe.cells (state n)) = false).
Proof.
  intros Hk.
  destruct (play_total exploration_weight board_ok empties ttt_step ttt_live
              k 9 Hk (fresh_world TicTacToe.start e) (new_node TicTacToe.start))
    as (fuel0 & l & w' & n & Hplay & _ & Hgame & Hroot & Hl & Hterm).
  { apply session_fresh. }
  { by apply game_ok_fresh. }
  { done. }
  { done. }
  pose proof (Forall_lookup_1 _ _ _ _ (proj1 Hgame) Hl) as (Hok & _ & Hover).
  specialize (Hover Hterm).
  exists fuel0, l, w', n. split_and!; [|done|done|done|done|].
  - intros fuel turns Hfuel Hturns. apply Hplay; [done|lia].
  - simpl in Hover. destruct Hover as [Hover|Hover].
    + unfold TicTacToe.ttt_terminal in Hover. apply orb_true_iff in Hover as [Hw|Hfull].
      * left. apply negb_true_iff in Hw. by apply bool_decide_eq_false in Hw.
      * right. by apply negb_true_iff in Hfull.
    + right. destruct (TicTacToe.has_empty (TicTacToe.cells (state n))) eqn:Hhas; [|done].
      exfalso. apply (has_empty_positions _ Hok) in Hhas.
      unfold TicTacToe.ttt_expand in Hover.
      by destruct (TicTacToe.empty_positions (TicTacToe.cells (state n))).
Qed.

(** ** The properties above on the game in progress *)
Section RouteFacts.
Context {State Env : Type} `{!Domain State Env}.
Variable exploration_weight : R.

Lemma select_route_step fuel curr route (w : world State Env) :
  select_route exploration_weight (S fuel) curr route w =
    match heap w !! curr with
    | None => (Raise NoSuchObject, w)
    | Some n =>
      if (0 <? length (children n))%nat then
        match heap w !! root w with
        | None => (Raise NoSuchObject, w)
        | Some rn =>
          match select exploration_weight (heap w) curr (visit rn) with
          | Done next =>
              select_route exploration_weight fuel next (route ++ [next]) w
          | Raise e => (Raise e, w)
          end
        end
      else (Done route, w)
    end.
Proof.
  simpl. unfold bind, get, get_root, select_from, deref.
  destruct (heap w !! curr) as [n|]; [|done].
  destruct (0 <? length (children n))%nat; [|done].
  destruct (heap w !! root w) as [rn|]; [|done].
  by destruct (select _ _ _ _).
Qed.
End RouteFacts.

Lemma after_two_cycles_in_session :
  in_session default_exploration_weight after_two_cycles.
Proof.
  apply (session_cycle default_exploration_weight after_one_cycle 10 (Done 1%nat));
    [|reflexivity].
  apply (session_cycle default_exploration_weight opening 10 (Done 0%nat));
    [|reflexivity].
  apply session_fresh.
Qed.

Lemma after_two_cycles_route :
  select_route default_exploration_weight 10 0%nat [] after_two_cycles
    = (Done [2%nat], after_two_cycles).
Proof.
  rewrite select_route_step, after_two_cycles_root.
  change (0 <? length (children root_twice))%nat with true. cbv iota.
  change (root after_two_cycles) with 0%nat.
  rewrite after_two_cycles_root.
  change (visit root_twice) with 2%Z. rewrite third_cycle_select.
  rewrite select_route_step, after_two_cycles_second. reflexivity.
Qed.

Lemma expand_node_links_witness :
  heap after_one_cycle !! 0%nat = Some root_once /\
  exists w', expand_node 0%nat after_one_cycle = (Done tt, w') /\
    length (heap w') = 10%nat.
Proof.
  split; [reflexivity|].
  destruct (expand_node_links after_one_cycle 0%nat root_once eq_refl)
    as (w' & n' & Hrun & _ & _ & Hlen & _).
  exists w'. split; [exact Hrun|exact Hlen].
Defined.

Lemma select_route_descend_witness :
  exists steps, [2%nat] = [] ++ steps /\
    descend default_exploration_weight 10 0%nat after_two_cycles
      = (Done (List.last steps 0%nat), after_two_cycles).
Proof.
  destruct (select_route_descend default_exploration_weight 10 0%nat []
              after_two_cycles (Done [2%nat]) after_two_cycles
              after_two_cycles_route) as (_ & Hdone & _).
  exact (Hdone [2%nat] eq_refl).
Defined.

Lemma session_sound_witness :
  exists n, heap after_two_cycles !! root after_two_cycles = Some n /\
    parent n = None.
Proof.
  exact (proj1 (session_sound default_exploration_weight after_two_cycles
                  after_two_cycles_in_session)).
Defined.

Lemma session_cycle_total_witness :
  exists c w' rn rn',
    search_iter default_exploration_weight 11 (root after_two_cycles)
      after_two_cycles = (Done c, w') /\
    root w' = root after_two_cycles /\
    heap after_two_cycles !! root after_two_cycles = Some rn /\
    heap w' !! root w' = Some rn' /\ visit rn' = (visit rn + 1)%Z.
Proof.
  apply (session_cycle_total default_exploration_weight after_two_cycles 11).
  - exact after_two_cycles_in_session.
  - rewrite after_two_cycles_length. lia.
Defined.

Lemma search_iterations_total_witness :
  exists fuel0 out w',
    (forall fuel, (fuel0 <= fuel)%nat ->
       search default_exploration_weight fuel (Some (Z.of_nat 3)) None
         after_two_cycles = (out, w')) /\
    root w' = root after_two_cycles.
Proof.
  destruct (search_iterations_total default_exploration_weight after_two_cycles 3
              after_two_cycles_in_session)
    as (fuel0 & out & w' & rn & rn' & Hrun & _ & Hroot & _).
  exists fuel0, out, w'. split; [exact Hrun|exact Hroot].
Defined.

Lemma search_on_terminal_root_witness :
  exists n' e',
    search default_exploration_weight (S 10) (Some (Z.of_nat 5)) None
      (fresh_world won_position (env opening)) =
    (Raise (ValueError
       "No children found in the root node. Ensure the root could be expanded."),
     World [n'] 0%nat e') /\
    visit n' = Z.of_nat 5 /\ is_terminal n' = true /\ children n' = [].
Proof.
  apply (search_on_terminal_root default_exploration_weight 10 5 won_position
           (env opening)).
  reflexivity.
Defined.

Lemma search_returns_child_witness :
  exists fuel0 c w',
    (forall fuel, (fuel0 <= fuel)%nat ->
       search default_exploration_weight fuel (Some (Z.of_nat 2)) None opening
         = (Done c, w')) /\
    root w' = root opening.
Proof.
  destruct (search_returns_child default_exploration_weight opening
              (new_node TicTacToe.start) 2)
    as (fuel0 & c & w' & rn' & nc & Hrun & _ & Hroot & _).
  - apply session_fresh.
  - reflexivity.
  - reflexivity.
  - discriminate.
  - lia.
  - exists fuel0, c, w'. split; [exact Hrun|exact Hroot].
Defined.

Lemma play_terminates_witness :
  exists fuel0 l w',
    forall fuel turns, (fuel0 <= fuel)%nat -> (9 < turns)%nat ->
      play default_exploration_weight turns fuel (Z.of_nat 2) 0%nat opening
        = (Done l, w').
Proof.
  destruct (play_terminates default_exploration_weight board_ok empties
              ttt_step ttt_live 2 TicTacToe.start (env opening))
    as (fuel0 & l & w' & n & Hplay & _).
  - lia.
  - reflexivity.
  - exists fuel0, l, w'. exact Hplay.
Defined.

Lemma playout_terminates_witness :
  (10 <= 12)%nat /\
  TicTacToe.playout 12 TicTacToe.empty_board 0 None (env opening)
    = TicTacToe.playout 10 TicTacToe.empty_board 0 None (env opening).
Proof.
  split; [lia|]. apply playout_terminates. lia.
Defined.

Lemma ttt_simulate_won_witness :
  exists k q,
    TicTacToe.empty_positions (TicTacToe.cells won_position)
      !! fst (TicTacToe.randint
                (length (TicTacToe.empty_positions (TicTacToe.cells won_position)))
                (env opening)) = Some k /\
    TicTacToe.check_winner
      (<[k := Some (TicTacToe.current_player won_position)]>
         (TicTacToe.cells won_position)) = Some q /\
    TicTacToe.ttt_simulate won_position (env opening) =
      ((if (q =? 1 - TicTacToe.current_player won_position)%Z then 1 else -1)%R,
       snd (TicTacToe.randint
              (length (TicTacToe.empty_positions (TicTacToe.cells won_position)))
              (env opening))).
Proof.
  apply (proj2 (ttt_simulate_won won_position (env opening) 0 eq_refl));
    reflexivity.
Defined.

Lemma ttt_play_terminates_witness :
  exists fuel0 l w' n,
    (forall fuel turns, (fuel0 <= fuel)%nat -> (10 <= turns)%nat ->
       play default_exploration_weight turns fuel (Z.of_nat 2) 0%nat
         (fresh_world TicTacToe.start (env opening)) = (Done l, w')) /\
    root w' = l /\ heap w' !! l = Some n /\ is_terminal n = true /\
    length (TicTacToe.cells (state n)) = 9%nat /\
    (TicTacToe.check_winner (TicTacToe.cells (state n)) <> None \/
     TicTacToe.has_empty (TicTacToe.cells (state n)) = false).
Proof.
  apply (ttt_play_terminates default_exploration_weight 2 (env opening)). lia.
Defined.

Lemma ttt_simulate_never_positive_witness :
  fst (TicTacToe.ttt_simulate TicTacToe.start (env opening)) = 0%R \/
  fst (TicTacToe.ttt_simulate TicTacToe.start (env opening)) = (-1)%R.
Proof.
  apply ttt_simulate_never_positive. reflexivity.
Defined.

(** ** Every visit is accounted for *)
Section Conservation.
Context {State Env : Type} `{!Domain State Env} `{!Clock Env}.
Variable exploration_weight : R.
Implicit Types (h : list (node State)) (n : node State) (l r : loc).
Implicit Types (w : world State Env).

Lemma visits_of_same h h' (cs : list loc) :
  (forall c, c ∈ cs -> visit_at h' c = visit_at h c) ->
  visits_of h' cs = visits_of h cs.
Proof.
  induction cs as [|c cs IH]; intros Hsame; [done|]. simpl.
  rewrite Hsame by (by left). rewrite IH; [done|].
  intros c' Hc'. apply Hsame. by right.
Qed.

Lemma visits_of_one_more h h' (cs : list loc) (q : loc) :
  NoDup cs -> q ∈ cs ->
  visit_at h' q = (visit_at h q + 1)%Z ->
  (forall c, c ∈ cs -> c <> q -> visit_at h' c = visit_at h c) ->
  visits_of h' cs = (visits_of h cs + 1)%Z.
Proof.
  induction cs as [|c cs IH]; intros Hnd Hq Hone Hsame.
  { by apply elem_of_nil in Hq. }
  pose proof (NoDup_cons_1_1 _ _ Hnd) as Hc.
  pose proof (NoDup_cons_1_2 _ _ Hnd) as Hnd'.
  simpl. apply elem_of_cons in Hq as [->|Hq].
  - rewrite Hone. rewrite (visits_of_same h h' cs); [lia|].
    intros c' Hc'. apply Hsame; [by right|]. intros ->. done.
  - rewrite IH; [|done|done|done|].
    + rewrite Hsame; [lia|by left|]. intros ->. done.
    + intros c' Hc' Hne. apply Hsame; [by right|done].
Qed.

Lemma visit_at_insert_ne h l n' c :
  c <> l -> visit_at (<[l := n']> h) c = visit_at h c.
Proof. intros Hne. unfold visit_at. by rewrite list_lookup_insert_ne. Qed.

Lemma visit_at_insert_same h l n n' c :
  h !! l = Some n -> visit n' = visit n ->
  visit_at (<[l := n']> h) c = visit_at h c.
Proof.
  intros Hl Hv. destruct (decide (c = l)) as [->|Hne].
  - unfold visit_at.
    rewrite list_lookup_insert_eq by (by eapply lookup_lt_Some). by rewrite Hl.
  - by apply visit_at_insert_ne.
Qed.

Lemma visit_at_bumped h l n x :
  h !! l = Some n ->
  visit_at (<[l := bumped x n]> h) l = (visit_at h l + 1)%Z.
Proof.
  intros Hl. unfold visit_at.
  rewrite list_lookup_insert_eq by (by eapply lookup_lt_Some). by rewrite Hl.
Qed.

(** A node of the tree with a parent is a child of that parent, which is in
    the tree; one without is the root. *)
Lemma in_tree_parent h r q nq :
  tree_shape h r -> in_tree h r q -> h !! q = Some nq ->
  match parent nq with
  | Some p => exists np, in_tree h r p /\ h !! p = Some np /\ q ∈ children np
  | None => q = r
  end.
Proof.
  intros Hshape Hq Hnq. destruct Hq as [|p np q Hp Hnp Hc].
  - destruct (shape_root _ _ Hshape) as (n & Hr & Hpar).
    rewrite Hnq in Hr. injection Hr as <-. by rewrite Hpar.
  - destruct (shape_child _ _ Hshape p np q Hp Hnp Hc) as (_ & nc & Hnc & Hpar).
    rewrite Hnq in Hnc. injection Hnc as <-. rewrite Hpar. by exists np.
Qed.

(** [accounted] reads the store only through the visits of the children. *)
Lemma accounted_same h h' n n' :
  children n' = children n -> visit n' = visit n -> is_terminal n' = is_terminal n ->
  (forall c, c ∈ children n -> visit_at h' c = visit_at h c) ->
  accounted h n -> accounted h' n'.
Proof.
  intros Hcs Hv Ht Hsame (Hnd & Hsum & Hleaf). unfold accounted.
  rewrite Hcs, Hv, Ht. split_and!; [done| |done].
  intros Hne. rewrite (visits_of_same h h') by done. auto.
Qed.

Lemma pending_bumped h h' n x :
  (forall c, c ∈ children n -> visit_at h' c = visit_at h c) ->
  pending h n -> accounted h' (bumped x n).
Proof.
  intros Hsame (Hnd & Hsum & Hleaf). unfold accounted. cbn [bumped children
    visit is_terminal set_score set_visit].
  split_and!; [done| |].
  - intros Hne. rewrite (visits_of_same h h') by done. rewrite Hsum by done. lia.
  - intros Hcs Ht. specialize (Hleaf Hcs Ht). lia.
Qed.

(** One step of [backpropagate]: the node bumped is accounted for, and its
    parent, if any, is the node a visit is owed to. *)
Lemma conserved_but_step h r l n x :
  tree_shape h r -> in_tree h r l -> h !! l = Some n ->
  conserved_but h r l ->
  match parent n with
  | Some p => in_tree (<[l := bumped x n]> h) r p /\
              conserved_but (<[l := bumped x n]> h) r p
  | None => conserved (<[l := bumped x n]> h) r
  end.
Proof.
  intros Hshape Hl Hn Hbut.
  assert (forall a, in_tree (<[l := bumped x n]> h) r a <-> in_tree h r a) as Htree.
  { intros a. by apply (in_tree_insert h r l n). }
  assert (forall a na, in_tree h r a -> h !! a = Some na -> l ∈ children na ->
            parent n = Some a) as Hpar.
  { intros a na Ha Hna Hin.
    destruct (shape_child _ _ Hshape a na l Ha Hna Hin) as (_ & nl & Hnl & Hp).
    rewrite Hn in Hnl. by injection Hnl as <-. }
  assert (l ∉ children n) as Hself.
  { intros Hin.
    destruct (shape_child _ _ Hshape l n l Hl Hn Hin) as (Hlt & _). lia. }
  assert (accounted (<[l := bumped x n]> h) (bumped x n)) as Hown.
  { specialize (Hbut l n Hl Hn). rewrite decide_True in Hbut by done.
    apply (pending_bumped h); [|done].
    intros c Hc. apply visit_at_insert_ne. intros ->. done. }
  assert (forall a na, in_tree h r a -> h !! a = Some na -> a <> l ->
            parent n <> Some a -> accounted (<[l := bumped x n]> h) na) as Hother.
  { intros a na Ha Hna Hal Hnp. specialize (Hbut a na Ha Hna).
    rewrite decide_False in Hbut by done.
    apply (accounted_same h _ na); [done|done|done| |done].
    intros c Hc. apply visit_at_insert_ne. intros ->.
    apply Hnp. by apply (Hpar a na). }
  pose proof (in_tree_parent h r l n Hshape Hl Hn) as Hup.
  destruct (parent n) as [p|] eqn:Hp.
  - destruct Hup as (np & Hpt & Hnp & Hin).
    assert (p <> l) as Hpl.
    { destruct (shape_child _ _ Hshape p np l Hpt Hnp Hin) as (Hlt & _). lia. }
    split; [by apply Htree|].
    intros a na Ha Hna. apply Htree in Ha.
    destruct (decide (a = p)) as [->|Hap].
    + rewrite list_lookup_insert_ne in Hna by done.
      rewrite Hnp in Hna. injection Hna as <-.
      specialize (Hbut p np Hpt Hnp). rewrite decide_False in Hbut by done.
      destruct Hbut as (Hnd & Hsum & Hleaf). split_and!; [done| |].
      * intros Hne.
        rewrite (visits_of_one_more h _ (children np) l); [rewrite Hsum by done; lia
          |done|done|by apply visit_at_bumped|].
        intros c _ Hc. by apply visit_at_insert_ne.
      * intros Hcs. rewrite Hcs in Hin. by apply elem_of_nil in Hin.
    + destruct (decide (a = l)) as [->|Hal].
      * rewrite list_lookup_insert_eq in Hna by (by eapply lookup_lt_Some).
        by injection Hna as <-.
      * rewrite list_lookup_insert_ne in Hna by done.
        apply (Hother a na); [done|done|done|]. intros [= ->]. done.
  - subst l. intros a na Ha Hna. apply Htree in Ha.
    destruct (decide (a = r)) as [->|Har].
    + rewrite list_lookup_insert_eq in Hna by (by eapply lookup_lt_Some).
      by injection Hna as <-.
    + rewrite list_lookup_insert_ne in Hna by done.
      by apply (Hother a na).
Qed.

Lemma backpropagate_conserved depth :
  forall l x w w' r,
    tree_shape (heap w) r -> in_tree (heap w) r l ->
    conserved_but (heap w) r l ->
    backpropagate depth l x w = (Done tt, w') ->
    conserved (heap w') r.
Proof.
  induction depth as [|depth IH]; intros l x w w' r Hshape Hl Hbut Hrun; [done|].
  rewrite backpropagate_step in Hrun.
  destruct (heap w !! l) as [n|] eqn:Hn; [|done].
  pose proof (conserved_but_step _ _ _ _ x Hshape Hl Hn Hbut) as Hstep.
  cbn zeta in Hrun. destruct (parent n) as [p|] eqn:Hp.
  - destruct Hstep as [Hpt Hbut'].
    apply (IH _ _ _ _ r) in Hrun; [done| |done|done].
    simpl. by apply (tree_shape_insert _ _ _ n).
  - by injection Hrun as <-.
Qed.

Lemma simulate_and_backpropagate_conserved fuel c w c' w' r :
  tree_shape (heap w) r -> in_tree (heap w) r c ->
  conserved_but (heap w) r c ->
  simulate_and_backpropagate fuel c w = (Done c', w') ->
  conserved (heap w') r.
Proof.
  intros Hshape Hc Hbut Hrun. unfold simulate_and_backpropagate, run_simulate in Hrun.
  unfold bind at 1 2 in Hrun. unfold get in Hrun.
  destruct (deref (heap w) c) as [n|e]; [|done].
  destruct (simulate (state n) (env w)) as [x e'].
  unfold bind in Hrun.
  destruct (backpropagate fuel c x (set_env e' w)) as [[[]|e] w1] eqn:Hbp; [|done].
  injection Hrun as _ <-.
  by apply (backpropagate_conserved _ _ _ _ _ r) in Hbp.
Qed.

Lemma visits_of_zero h (cs : list loc) :
  (forall c, c ∈ cs -> visit_at h c = 0%Z) -> visits_of h cs = 0%Z.
Proof.
  induction cs as [|c cs IH]; intros Hz; [done|]. simpl.
  rewrite Hz by (by left). rewrite IH; [done|]. intros c' Hc'. apply Hz. by right.
Qed.

Lemma visit_at_expanded_old h l n c :
  h !! l = Some n -> (c < length h)%nat ->
  visit_at (expanded_heap h l n) c = visit_at h c.
Proof.
  intros Hl Hc. unfold visit_at. destruct (decide (c = l)) as [->|Hne].
  - rewrite (expanded_heap_self _ _ _ Hl), Hl. by destruct (expand (state n)).
  - by rewrite expanded_heap_old.
Qed.

Lemma visit_at_expanded_new h l n c :
  (length h <= c)%nat -> visit_at (expanded_heap h l n) c = 0%Z.
Proof.
  intros Hc. unfold visit_at.
  destruct (expanded_heap h l n !! c) as [nc|] eqn:Hnc; [|done].
  by destruct (expanded_heap_fresh _ _ _ _ _ Hc Hnc) as (_ & -> & _).
Qed.

(** The node a descent from the root ends on is in the tree. *)
Lemma descend_in_tree w fuel l w' :
  sound (heap w) (root w) ->
  descend exploration_weight fuel (root w) w = (Done l, w') ->
  in_tree (heap w) (root w) l.
Proof.
  intros Hsound Hdesc.
  destruct (descend_from_root exploration_weight w (fuel + S (length (heap w))) Hsound)
    as (l0 & n0 & Hbig & Hl0 & _); [lia|].
  rewrite (descend_more_fuel _ _ _ _ _ _ _ Hdesc) in Hbig by lia.
  by injection Hbig as ->.
Qed.

(** After the expansion step of a cycle, the node the cycle goes on with is
    the only one a visit is owed to. *)
Lemma expand_step_conserved_but w l n c w1 :
  sound (heap w) (root w) -> conserved (heap w) (root w) ->
  in_tree (heap w) (root w) l -> heap w !! l = Some n -> children n = [] ->
  expand_step l w = (Done c, w1) ->
  root w1 = root w /\ tree_shape (heap w1) (root w) /\
  in_tree (heap w1) (root w) c /\ conserved_but (heap w1) (root w) c.
Proof.
  intros [Hshape Hvisits] Hcons Hl Hn Hcs Hrun.
  pose proof (Hcons l n Hl Hn) as (_ & _ & Hleaf).
  assert (is_terminal n = true \/ visit n = 0%Z \/
          (is_terminal n = false /\ visit n = 1%Z)) as Hcase.
  { destruct (is_terminal n) eqn:Ht; [by left|]. right.
    specialize (Hleaf Hcs eq_refl). destruct (Hvisits l n Hn) as [Hpos _].
    destruct (decide (visit n = 0%Z)); [by left|right]. split; [done|lia]. }
  destruct Hcase as [Hskip|[Hskip|[Hterm Hone]]].
  1,2: rewrite (expand_step_skip _ _ _ Hn) in Hrun by auto;
       injection Hrun as <- <-; split_and!; [done|done|done|];
       intros a na Ha Hna; destruct (decide (a = l)) as [->|Hne];
       [|by apply (Hcons a)];
       rewrite Hn in Hna; injection Hna as <-;
       unfold pending; rewrite Hcs;
       split_and!; [apply NoDup_nil_2|done|intros _ Ht; first [congruence|lia]].
  rewrite (expand_step_expand _ _ _ Hn Hterm) in Hrun by lia.
  injection Hrun as <- <-. cbn [heap root set_heap].
  pose proof (tree_shape_expanded _ _ _ _ Hshape Hn Hcs) as Hshape1.
  assert (l < length (heap w))%nat as Hlt by (by eapply lookup_lt_Some).
  assert (forall a na, in_tree (heap w) (root w) a -> a <> l ->
            expanded_heap (heap w) l n !! a = Some na ->
            accounted (expanded_heap (heap w) l n) na) as Hold.
  { intros a na Ha Hne Hna.
    destruct (in_tree_allocated _ _ _ Hshape Ha) as [na' Hna'].
    assert (a < length (heap w))%nat as Hlta by (by eapply lookup_lt_Some).
    rewrite expanded_heap_old in Hna by done.
    apply (accounted_same (heap w) _ na); [done|done|done| |by apply (Hcons a)].
    intros c Hc. apply visit_at_expanded_old; [done|].
    pose proof (sound_allocated _ _ _ _ (conj Hshape Hvisits) Ha Hna) as Hall.
    unfold allocated in Hall. rewrite List.Forall_forall in Hall.
    destruct (Hall c) as [nc Hnc]; [by apply list_elem_of_In|].
    by eapply lookup_lt_Some. }
  assert (forall a na, (length (heap w) <= a)%nat ->
            expanded_heap (heap w) l n !! a = Some na ->
            pending (expanded_heap (heap w) l n) na /\
            accounted (expanded_heap (heap w) l n) na) as Hnew.
  { intros a na Ha Hna.
    destruct (expanded_heap_fresh _ _ _ _ _ Ha Hna) as (Hcsa & Hva & _).
    unfold pending, accounted. rewrite Hcsa, Hva.
    split; (split_and!; [apply NoDup_nil_2|done|intros _ _; lia]). }
  pose proof (expanded_heap_self _ _ _ Hn) as Hself.
  destruct (expand (state n)) as [|st sts] eqn:Hsts.
  - split_and!; [done|done|by apply in_tree_expanded_old|].
    intros a na Ha Hna.
    assert (in_tree (heap w) (root w) a) as Ha'.
    { destruct (in_tree_expanded _ _ _ _ _ Hshape Hn Hcs Ha) as [?|Hge]; [done|].
      apply lookup_lt_Some in Hna. rewrite expanded_heap_length, Hsts in Hna.
      simpl in Hna. lia. }
    destruct (decide (a = l)) as [->|Hne]; [|by apply (Hold a)].
    rewrite Hself in Hna. injection Hna as <-.
    unfold pending. cbn [children set_children set_is_terminal is_terminal].
    split_and!; [apply NoDup_nil_2|done|done].
  - assert (in_tree (expanded_heap (heap w) l n) (root w) (length (heap w))) as Hc.
    { apply (in_tree_child _ _ l (set_children
               (seq (length (heap w)) (length (st :: sts))) n));
        [by apply in_tree_expanded_old|done|].
      cbn [children set_children]. apply elem_of_seq. simpl. lia. }
    split_and!; [done|done|done|].
    intros a na Ha Hna.
    destruct (decide (a = length (heap w))) as [->|Hac].
    { by destruct (Hnew (length (heap w)) na). }
    destruct (decide (length (heap w) <= a)%nat) as [Hge|Hlta].
    { by destruct (Hnew a na). }
    assert (in_tree (heap w) (root w) a) as Ha'.
    { destruct (in_tree_expanded _ _ _ _ _ Hshape Hn Hcs Ha) as [?|Hge]; [done|lia]. }
    destruct (decide (a = l)) as [->|Hne]; [|by apply (Hold a)].
    remember (seq (length (heap w)) (length (st :: sts))) as cs eqn:Hseq.
    rewrite Hself in Hna. injection Hna as <-.
    unfold accounted. cbn [children set_children visit is_terminal].
    split_and!; [subst cs; apply NoDup_seq| |by subst cs].
    intros _. rewrite visits_of_zero; [lia|].
    intros c Hcin. apply visit_at_expanded_new. subst cs.
    apply elem_of_seq in Hcin. lia.
Qed.

Lemma search_iter_conserved fuel w c w' :
  sound (heap w) (root w) -> conserved (heap w) (root w) ->
  search_iter exploration_weight fuel (root w) w = (Done c, w') ->
  conserved (heap w') (root w').
Proof.
  intros Hsound Hcons Hrun.
  destruct (search_iter_sound _ _ _ _ _ _ _ Hsound Hrun) as [_ Hroot].
  rewrite Hroot. rewrite search_iter_unfold in Hrun.
  destruct (descend exploration_weight fuel (root w) w) as [[l|e] w0] eqn:Hdesc; [|done].
  destruct (descend_outcome _ _ _ _ _ _ Hdesc) as [-> Hleaf].
  destruct (Hleaf l eq_refl) as (n & Hn & Hcs).
  pose proof (descend_in_tree _ _ _ _ Hsound Hdesc) as Hl.
  destruct (expand_step l w) as [[c1|e] w1] eqn:Hexp; [|done].
  destruct (expand_step_conserved_but _ _ _ _ _ Hsound Hcons Hl Hn Hcs Hexp)
    as (_ & Hshape1 & Hc1 & Hbut).
  by eapply simulate_and_backpropagate_conserved.
Qed.

Lemma in_tree_childless h r n a :
  h !! r = Some n -> children n = [] -> in_tree h r a -> a = r.
Proof.
  intros Hr Hcs Ha. induction Ha as [|p np c _ IH Hp Hc]; [done|].
  rewrite IH in Hp. rewrite Hr in Hp. injection Hp as <-.
  rewrite Hcs in Hc. by apply elem_of_nil in Hc.
Qed.

Lemma conserved_fresh (st : State) (e : Env) :
  conserved (heap (fresh_world st e)) (root (fresh_world st e)).
Proof.
  intros a na Ha Hna.
  assert (a = 0%nat) as ->.
  { by apply (in_tree_childless [new_node st] 0%nat (new_node st)). }
  injection Hna as <-. unfold accounted. simpl.
  split_and!; [apply NoDup_nil_2|done|done].
Qed.

Lemma conserved_move h r n c nc :
  sound h r -> conserved h r -> h !! r = Some n -> c ∈ children n ->
  h !! c = Some nc ->
  conserved (<[c := set_parent None nc]> h) c.
Proof.
  intros Hsound Hcons Hr Hc Hnc a na Ha Hna.
  apply (in_tree_insert h c c nc) in Ha; [|done|done].
  assert (in_tree h r a) as Ha'.
  { apply (in_tree_trans _ _ c); [|done].
    by apply (in_tree_child _ _ r n); [apply in_tree_root|..]. }
  assert (forall x, visit_at (<[c := set_parent None nc]> h) x = visit_at h x) as Hsame.
  { intros x. by apply (visit_at_insert_same _ _ nc). }
  destruct (decide (a = c)) as [->|Hne].
  - rewrite list_lookup_insert_eq in Hna by (by eapply lookup_lt_Some).
    injection Hna as <-.
    apply (accounted_same h _ nc); [done|done|done|auto|by apply (Hcons c)].
  - rewrite list_lookup_insert_ne in Hna by done.
    apply (accounted_same h _ na); [done|done|done|auto|by apply (Hcons a)].
Qed.

Lemma conserved_new_root h (st : State) :
  conserved (<[length h := set_parent None (new_node st)]> (h ++ [new_node st]))
            (length h).
Proof.
  assert ((<[length h := set_parent None (new_node st)]> (h ++ [new_node st]))
            !! length h = Some (set_parent None (new_node st))) as Hnew.
  { apply list_lookup_insert_eq. rewrite length_app. simpl. lia. }
  intros a na Ha Hna.
  rewrite (in_tree_childless _ _ _ a Hnew eq_refl Ha) in Hna.
  rewrite Hnew in Hna. injection Hna as <-. unfold accounted. simpl.
  split_and!; [apply NoDup_nil_2|done|done].
Qed.

Lemma in_session_ok_session w :
  in_session_ok exploration_weight w -> in_session exploration_weight w.
Proof.
  induction 1 as [st e|w fuel c w' _ IH Hrun|w n c out w' _ IH Hr Hc Hrun
                  |w st out w' _ IH Hrun].
  - apply session_fresh.
  - by eapply session_cycle.
  - by eapply session_move.
  - by eapply session_new_root.
Qed.

Lemma in_session_ok_conserved w :
  in_session_ok exploration_weight w -> conserved (heap w) (root w).
Proof.
  induction 1 as [st e|w fuel c w' Hs IH Hrun|w n c out w' Hs IH Hr Hc Hrun
                  |w st out w' Hs IH Hrun].
  - apply conserved_fresh.
  - apply (search_iter_conserved fuel w c w'); [|done|done].
    by apply (in_session_sound exploration_weight), in_session_ok_session.
  - pose proof (in_session_sound _ _ (in_session_ok_session _ Hs)) as Hsound.
    destruct (sound_move _ _ _ _ Hsound Hr Hc) as (nc & Hnc & _).
    rewrite (move_to_node_run _ _ _ Hnc) in Hrun. injection Hrun as <- <-.
    simpl. by apply (conserved_move _ (root w) n).
  - rewrite move_to_new_run in Hrun. injection Hrun as <- <-. simpl.
    apply conserved_new_root.
Qed.

(** X18: as long as no search cycle has raised, every visit in the tree is
    accounted for.  At every point of such a session and for every node
    under the root: its children are distinct; if it has children, its
    visit count is one (the visit that simulated the node itself, before it
    was expanded) plus the sum of the visit counts of its children; if it
    has none and is not terminal, it has been visited at most once, so that
    a node is expanded on its second visit. *)
Theorem visits_conserved w :
  in_session_ok exploration_weight w ->
  forall p n, in_tree (heap w) (root w) p -> heap w !! p = Some n ->
    NoDup (children n) /\
    (children n <> [] -> visit n = (1 + visits_of (heap w) (children n))%Z) /\
    (children n = [] -> is_terminal n = false -> (visit n <= 1)%Z).
Proof. intros Hs p n Hp Hn. exact (in_session_ok_conserved w Hs p n Hp Hn). Qed.
End Conservation.

Lemma after_two_cycles_in_session_ok :
  in_session_ok default_exploration_weight after_two_cycles.
Proof.
  apply (ok_cycle default_exploration_weight after_one_cycle 10 1%nat); [|reflexivity].
  apply (ok_cycle default_exploration_weight opening 10 0%nat); [|reflexivity].
  apply ok_fresh.
Qed.

Lemma visits_conserved_witness :
  visit root_twice = (1 + visits_of (heap after_two_cycles) (children root_twice))%Z.
Proof.
  destruct (visits_conserved default_exploration_weight after_two_cycles
              after_two_cycles_in_session_ok 0%nat root_twice
              (in_tree_root _ _) after_two_cycles_root) as (_ & Hsum & _).
  apply Hsum. discriminate.
Defined.
